(** * arpen-express: the Express plugin layer, embedded and verified

    The first half of the file embeds the sources, one module per source
    file:

    - [Js]              values, truthiness and the effect monad shared by
                        all parts;
    - [Routes]          [middleware/routes.js], both revisions;
    - [Express]         [servers/express.js]: [init], [start], [stop];
    - [Model]           the session, user and request objects;
    - [ExpressSession]  [services/express-session.js]: the session bridge;
    - [SessionMw]       [middleware/session.js], both revisions;
    - [ExpressEdge]     [servers/express.js]: ports, options and the TLS
                        branch of [init];
    - [BridgeEdge], [SessionMwEdge]
                        further vocabulary and instances for the bridge
                        and the session middleware;
    - [Assets]          [middleware/static-files.js] and
                        [middleware/favicon.js];
    - [Sockets]         the socket events of the socket-enabled revision
                        of [servers/express.js].

    Each of these modules ends with the vocabulary its statements need and
    with a concrete instance to evaluate the embedding on. The second half
    ([RoutesFacts], [ExpressFacts], [ExpressSessionFacts],
    [SessionMwFacts], then [ExpressEdgeFacts], [BridgeEdgeFacts],
    [SessionMwEdgeFacts], [RoutesEdgeFacts], [AssetsFacts],
    [SocketsFacts]) holds the proofs.

    External collaborators (the DI container, the repositories, the
    session service with its token codec, the random string generator,
    geo-IP) are never given a body: they are fields of records or
    arguments, and every theorem quantifies over them. Promises are
    computations in the monad [M]; [await] runs them. *)

From stdpp Require Import base option list sorting gmap strings.
From Stdlib Require Import ZArith Lia Ascii.
From Stdlib Require DecimalString DecimalN.

Open Scope Z_scope.

(* ===================================================================== *)
(** * Shared JavaScript notions *)
(* ===================================================================== *)

Module Js.

(** A thrown JavaScript [Error] is identified by its message. *)
Definition Error := string.

(** The outcome of evaluating an expression or of settling a promise. *)
Inductive Result (A : Type) : Type :=
| Ok (a : A)
| Throw (e : Error).
Arguments Ok {A} a.
Arguments Throw {A} e.

Definition is_throw {A} (r : Result A) : bool :=
  match r with Throw _ => true | Ok _ => false end.

(** A slot that holds an object, [null] or [undefined]. Objects are the
    only truthy inhabitants. *)
Inductive Nullable (A : Type) : Type :=
| Undefined
| Null
| Obj (a : A).
Arguments Undefined {A}.
Arguments Null {A}.
Arguments Obj {A} a.

Definition truthy {A} (v : Nullable A) : bool :=
  match v with Obj _ => true | _ => false end.

(** [v || null] for a slot. *)
Definition or_null {A} (v : Nullable A) : Nullable A :=
  if truthy v then v else Null.

(** Primitive values stored in payloads and identifiers. *)
Inductive Atom : Type :=
| AUndefined
| ANull
| ABool (b : bool)
| ANum (n : Z)
| AStr (s : string).

Definition atom_truthy (a : Atom) : bool :=
  match a with
  | AUndefined | ANull => false
  | ABool b => b
  | ANum n => negb (n =? 0)
  | AStr s => negb (String.eqb s "")
  end.

(** A string-valued slot: [None] is [undefined]; the empty string is the
    only falsy string. *)
Definition str_truthy (o : option string) : bool :=
  match o with
  | Some s => negb (String.eqb s "")
  | None => false
  end.

(** Computations over a mutable world [S] that may throw. An [async]
    function is such a computation; [await p] runs [p] to its settlement. *)
Definition M (S A : Type) : Type := S → Result A * S.

Definition ret {S A} (a : A) : M S A := λ s, (Ok a, s).

Definition throw {S A} (e : Error) : M S A := λ s, (Throw e, s).

Definition bind {S A B} (m : M S A) (k : A → M S B) : M S B :=
  λ s, match m s with
       | (Ok a, s') => k a s'
       | (Throw e, s') => (Throw e, s')
       end.

(** [try { m } catch (error) { h error }] *)
Definition try_catch {S A} (m : M S A) (h : Error → M S A) : M S A :=
  λ s, match m s with
       | (Ok a, s') => (Ok a, s')
       | (Throw e, s') => h e s'
       end.

Definition get {S} : M S S := λ s, (Ok s, s).
Definition modify {S} (f : S → S) : M S unit := λ s, (Ok tt, f s).

(** Lift a side-effect free call of a collaborator. *)
Definition call {S A} (r : Result A) : M S A := λ s, (r, s).

End Js.

Import Js.

#[global] Instance M_ret {S} : MRet (M S) := λ A, @ret S A.
#[global] Instance M_bind {S} : MBind (M S) := λ A B k m, @bind S A B m k.

(* ===================================================================== *)
(** * Module-provided routes ([express.routes]) *)
(* ===================================================================== *)

Module Routes.

(** What a module's [routers()] yields: an Express router handle with a
    numeric [priority]. *)
Record Router := mkRouter {
  priority : Z;
  router : nat;
}.

#[global] Instance Router_eq_dec : EqDecision Router.
Proof. solve_decision. Defined.

(** A loaded application module. [routers = None] stands for
    [typeof _module.routers !== 'function']. *)
Record AppModule := mkModule {
  routers : option (list Router);
}.

(** The Express application as far as this middleware touches it: the
    stack of [(path, handle)] mounted by [express.use]. *)
Record ExpressApp := mkExpressApp {
  stack : list (string * nat);
}.

Definition use (path : string) (handle : nat) (e : ExpressApp) : ExpressApp :=
  {| stack := stack e ++ [(path, handle)] |}.

(** [Array.prototype.sort(cmp)]. The comparator contract is the
    language's: [cmp a b > 0] places [a] after [b]; elements that compare
    as [0] keep their order. The insertion below realises that contract. *)
Section ArraySort.
Context {A : Type} (cmp : A → A → Z).

Fixpoint sort_insert (x : A) (l : list A) : list A :=
  match l with
  | [] => [x]
  | y :: l' => if cmp x y <=? 0 then x :: y :: l' else y :: sort_insert x l'
  end.

Fixpoint array_sort (l : list A) : list A :=
  match l with
  | [] => []
  | x :: l' => sort_insert x (array_sort l')
  end.
End ArraySort.

(** The comparator of the source: [(a, b) => b.priority - a.priority]. *)
Definition by_priority_desc (a b : Router) : Z := priority b - priority a.

(** The two nested [for ... of] loops that fill [routers]. *)
Definition push_all (acc : list Router) (rs : list Router) : list Router :=
  fold_left (λ a r, a ++ [r]) rs acc.

Definition collect (modules : list AppModule) : list Router :=
  fold_left
    (λ acc m, match routers m with
              | None => acc
              | Some rs => push_all acc rs
              end)
    modules [].

(** [Routes.register], revision with priorities. [modules] is
    [this._modules.values()] in insertion order. *)
Definition register (modules : list AppModule) (e : ExpressApp) : ExpressApp :=
  let routers := array_sort by_priority_desc (collect modules) in
  fold_left (λ e r, use "/" (router r) e) routers e.

(** [Routes.register], revision that mounts [server.routers] as they are. *)
Definition register_server_routers (server_routers : list nat) (e : ExpressApp)
  : ExpressApp :=
  fold_left (λ e r, use "/" r e) server_routers e.

(** The routers in the order in which [register] mounts them. *)
Definition mount_order (modules : list AppModule) : list Router :=
  array_sort by_priority_desc (collect modules).

(** ** Vocabulary of the statements *)

(** Descending priority, and the class of routers of one priority. *)
Definition desc (a b : Router) : Prop := priority b ≤ priority a.

Definition has_priority (p : Z) (r : Router) : Prop := priority r = p.

#[global] Instance has_priority_dec p r : Decision (has_priority p r).
Proof. unfold has_priority. apply _. Defined.

End Routes.

(* ===================================================================== *)
(** * The Express server ([servers.express]): init, start, stop *)
(* ===================================================================== *)

Module Express.

(** How a promise returned by a middleware method settles. *)
Inductive Settlement : Type :=
| Resolves
| Rejects (e : Error).

(** What [obj.register(server)] / [obj.unregister(server)] can do when
    called: hand back a promise, hand back something that is not a
    promise, or throw on the spot. *)
Inductive CallResult : Type :=
| ReturnsPromise (s : Settlement)
| ReturnsOther
| ThrowsSync (e : Error).

(** A middleware class as the server sees it. [mw_unregister = None]
    stands for [typeof obj.unregister !== 'function']. Both methods
    receive the server; its name is what they can tell servers apart by. *)
Record MwClass := mkMwClass {
  mw_register : string → CallResult;
  mw_unregister : option (string → CallResult);
}.

(** An instance: object identity plus the class it was built from. *)
Record MwObj := mkMwObj {
  obj_id : nat;
  obj_class : MwClass;
}.

Inductive Method : Type := Register | Unregister.

#[global] Instance Method_eq_dec : EqDecision Method.
Proof. solve_decision. Defined.

(** Observable steps of the lifecycle. [EvCall] is the moment the method
    is entered, [EvSettled] the moment the promise it returned settles
    (which is when an [await] on it resumes). *)
Inductive Event : Type :=
| EvCall (m : Method) (mw : string) (obj : nat) (server : string)
| EvSettled (m : Method) (mw : string) (obj : nat) (server : string)
| EvListen (server : string)
| EvClose (server : string).

#[global] Instance Event_eq_dec : EqDecision Event.
Proof. solve_decision. Defined.

(** The DI container, shared by every server of the process.
    - [services]: the classes registered by name;
    - [middleware]: the instance registered as ['express.middleware'],
      a [Map] from identifier to instance ([None]: [has] answers false);
    - [next_obj], [resolved]: every [get] of a class builds a new object;
      [resolved] logs these constructions;
    - [trace]: the events so far. *)
Record App := mkApp {
  services : gmap string MwClass;
  middleware : option (gmap string MwObj);
  next_obj : nat;
  resolved : list (string * nat);
  trace : list Event;
}.

(** The server object ([this]). *)
Record Server := mkServer {
  name : option string;
  express : bool;
  server : bool;
  listening : bool;
}.

(** What [config.get] answers under [servers.<name>]:
    - [enable]: [None] when unset;
    - [setup]: outcome of what [init] does between the assignment
      [this.express = express()] and the assignment of [this.server]:
      setting the options and the views, reading the TLS files and
      creating the HTTP(S) server. A step of these that throws leaves
      [this.express] assigned and [this.server] as it was;
    - [middleware_list]: [Some l] iff the setting is an array. *)
Record ServerConfig := mkServerConfig {
  enable : option bool;
  setup : Result unit;
  middleware_list : option (list string);
}.

Definition Config := string → ServerConfig.

Record St := mkSt {
  srv : Server;
  app : App;
}.

Definition set_srv (f : Server → Server) (st : St) : St :=
  {| srv := f (srv st); app := app st |}.

Definition set_app (f : App → App) (st : St) : St :=
  {| srv := srv st; app := f (app st) |}.

Definition emit (ev : Event) : M St unit :=
  modify (set_app (λ a,
    {| services := services a; middleware := middleware a;
       next_obj := next_obj a; resolved := resolved a;
       trace := trace a ++ [ev] |})).

(** [this._app.get(cur)] for a middleware identifier. *)
Definition app_get (cur : string) : M St MwObj :=
  st ← get;
  match services (app st) !! cur with
  | None => throw ("No service: " +:+ cur)
  | Some c =>
      let o := {| obj_id := next_obj (app st); obj_class := c |} in
      modify (set_app (λ a,
        {| services := services a; middleware := middleware a;
           next_obj := Datatypes.S (next_obj a);
           resolved := resolved a ++ [(cur, obj_id o)];
           trace := trace a |}));;
      mret o
  end.

(** [middleware.set(cur, obj)] on the shared map. *)
Definition middleware_set (cur : string) (obj : MwObj) : M St unit :=
  modify (set_app (λ a,
    {| services := services a;
       middleware := Some (<[cur := obj]> (default ∅ (middleware a)));
       next_obj := next_obj a; resolved := resolved a; trace := trace a |})).

(** The [has]/[get]/[registerInstance] preamble on ['express.middleware']. *)
Definition load_middleware_map : M St unit :=
  st ← get;
  match middleware (app st) with
  | Some _ => mret tt
  | None =>
      modify (set_app (λ a,
        {| services := services a; middleware := Some ∅;
           next_obj := next_obj a; resolved := resolved a; trace := trace a |}))
  end.

Definition method_name (m : Method) : string :=
  match m with Register => "register" | Unregister => "unregister" end.

(** Call a method, check that it returned a promise, and return that
    promise from the enclosing [async] callback. *)
Definition invoke (m : Method) (cur : string) (obj : MwObj)
    (f : string → CallResult) : M St unit :=
  st ← get;
  let this_name := default "" (name (srv st)) in
  emit (EvCall m cur (obj_id obj) this_name);;
  match f this_name with
  | ThrowsSync e => throw e
  | ReturnsOther =>
      throw ("Middleware '" +:+ cur +:+ "' " +:+ method_name m
               +:+ "() did not return a Promise")
  | ReturnsPromise s =>
      emit (EvSettled m cur (obj_id obj) this_name);;
      match s with
      | Resolves => mret tt
      | Rejects e => throw e
      end
  end.

(** Body of the [reduce] callback of [init], after [await prev]. *)
Definition register_one (cur : string) : M St unit :=
  st ← get;
  obj ← match default ∅ (middleware (app st)) !! cur with
        | Some o => mret o
        | None => o ← app_get cur; middleware_set cur o;; mret o
        end;
  invoke Register cur obj (mw_register (obj_class obj)).

(** Body of the [reduce] callback of [stop], after [await prev]. *)
Definition unregister_one (cur : string) : M St unit :=
  st ← get;
  match default ∅ (middleware (app st)) !! cur with
  | None => mret tt
  | Some obj =>
      match mw_unregister (obj_class obj) with
      | None => mret tt
      | Some f => invoke Unregister cur obj f
      end
  end.

(** [list.reduce(async (prev, cur) => { await prev; body(cur) },
                 Promise.resolve())] *)
Definition reduce_await (body : string → M St unit) (l : list string)
  : M St unit :=
  fold_left (λ prev cur, prev;; body cur) l (mret tt).

Definition not_initialized (n : string) : Error :=
  "Server " +:+ n +:+ " was not properly initialized".

Definition init (config : Config) (n : string) : M St unit :=
  modify (set_srv (λ s,
    {| name := Some n; express := express s; server := server s;
       listening := listening s |}));;
  if decide (enable (config n) = Some false) then mret tt else
  modify (set_srv (λ s,
    {| name := name s; express := true; server := server s;
       listening := listening s |}));;
  call (setup (config n));;
  modify (set_srv (λ s,
    {| name := name s; express := express s; server := true;
       listening := false |}));;
  match middleware_list (config n) with
  | None => mret tt
  | Some middlewareConfig =>
      load_middleware_map;;
      reduce_await register_one middlewareConfig
  end.

Definition start (config : Config) (n : string) : M St unit :=
  st ← get;
  if decide (Some n ≠ name (srv st)) then throw (not_initialized n) else
  if decide (enable (config n) = Some false) then mret tt else
  if server (srv st) && negb (listening (srv st)) then
    emit (EvListen n);;
    modify (set_srv (λ s,
      {| name := name s; express := express s; server := server s;
         listening := true |}))
  else mret tt.

Definition stop (config : Config) (n : string) : M St unit :=
  st ← get;
  if decide (Some n ≠ name (srv st)) then throw (not_initialized n) else
  if decide (enable (config n) = Some false) then mret tt else
  if negb (server (srv st)) || negb (listening (srv st)) then mret tt else
  emit (EvClose n);;
  modify (set_srv (λ s,
    {| name := name s; express := express s; server := false;
       listening := false |}));;
  st ← get;
  match middleware_list (config n), middleware (app st) with
  | Some middlewareConfig, Some _ =>
      reduce_await unregister_one middlewareConfig
  | _, _ => mret tt
  end.

(** The events a completed call contributes. *)
Definition call_events (m : Method) (server : string) (cur : string) (o : nat)
  : list Event :=
  [EvCall m cur o server; EvSettled m cur o server].

(** The identifiers whose method [m] was entered, in trace order. *)
Definition called (m : Method) (t : list Event) : list string :=
  omap (λ ev, match ev with
              | EvCall m' mw _ _ => if decide (m' = m) then Some mw else None
              | _ => None
              end) t.

(** ** Vocabulary of the statements *)

(** The plain loop that the [reduce] over promises amounts to. *)
Fixpoint each_in_turn (body : string → M St unit) (l : list string)
  : M St unit :=
  match l with
  | [] => mret tt
  | cur :: l' => body cur;; each_in_turn body l'
  end.

Definition add_events (evs : list Event) (st : St) : St :=
  set_app (λ a,
    {| services := services a; middleware := middleware a;
       next_obj := next_obj a; resolved := resolved a;
       trace := trace a ++ evs |}) st.

Definition this_name (st : St) : string := default "" (name (srv st)).

(** The state right after [app.get(cur)] and [middleware.set(cur, obj)]. *)
Definition cached (cur : string) (c : MwClass) (st : St) : St :=
  set_app (λ a,
    {| services := services a;
       middleware :=
         Some (<[cur := {| obj_id := next_obj a; obj_class := c |}]>
                 (default ∅ (middleware a)));
       next_obj := Datatypes.S (next_obj a);
       resolved := resolved a ++ [(cur, next_obj a)];
       trace := trace a |}) st.

(** The shared map of instances. *)
Definition cache (a : App) : gmap string MwObj := default ∅ (middleware a).

(** The class behind identifier [m]: that of the cached instance if there
    is one, else the class the container would build. *)
Definition class_of (a : App) (m : string) : option MwClass :=
  match cache a !! m with
  | Some o => Some (obj_class o)
  | None => services a !! m
  end.

(** Identity of the instance cached under [m]. *)
Definition instance_id (a : App) (m : string) : nat :=
  match cache a !! m with
  | Some o => obj_id o
  | None => 0%nat
  end.

(** [sequential m server l evs]: [evs] is what a chain over [l] can emit.
    Identifiers are entered in list order; an identifier is entered only
    after the promise of the one before it has settled; the chain may stop
    at any point, possibly right after entering a call that threw or did
    not return a promise. *)
Inductive sequential (m : Method) (server : string)
  : list string → list Event → Prop :=
| seq_stop l : sequential m server l []
| seq_entered cur o l : sequential m server (cur :: l) [EvCall m cur o server]
| seq_awaited cur o l evs :
    sequential m server l evs →
    sequential m server (cur :: l) (call_events m server cur o ++ evs).

(** All the events of a chain that ran to its end. *)
Definition completed (m : Method) (server : string) (a : App)
    (l : list string) : list Event :=
  l ≫= λ cur, call_events m server cur (instance_id a cur).

(** [init] up to the loading of the middleware, spelt out. *)
Definition named (n : string) (st : St) : St :=
  set_srv (λ s, {| name := Some n; express := express s; server := server s;
                   listening := listening s |}) st.

Definition created (st : St) : St :=
  set_srv (λ s, {| name := name s; express := true; server := true;
                   listening := false |}) st.

(** [init] cut short by a set-up that threw: the Express application is
    assigned, the server is not. *)
Definition half_created (st : St) : St :=
  set_srv (λ s, {| name := name s; express := true; server := server s;
                   listening := listening s |}) st.

Definition with_map (st : St) : St :=
  set_app (λ a, {| services := services a;
                   middleware := Some (cache a);
                   next_obj := next_obj a; resolved := resolved a;
                   trace := trace a |}) st.

(** What a single step of either chain can do to the trace. *)
Inductive step_shape (m : Method) (server cur : string) (o : nat)
  : Result unit → list Event → Prop :=
| step_entered e : step_shape m server cur o (Throw e) [EvCall m cur o server]
| step_awaited r : step_shape m server cur o r (call_events m server cur o).

(** Every identifier of [l] resolves to a class whose [register], called
    with server [n], returns a promise that resolves. *)
Definition registers_resolve (n : string) (a : App) (l : list string) : Prop :=
  ∀ cur, cur ∈ l →
    ∃ c, class_of a cur = Some c ∧
         mw_register c n = ReturnsPromise Resolves.

(** The identifiers [stop] has something to do for: an instance is cached
    and it has an [unregister] method. *)
Definition unregisterable (a : App) (m : string) : bool :=
  match cache a !! m with
  | Some o => bool_decide (is_Some (mw_unregister (obj_class o)))
  | None => false
  end.

Definition unregisters_resolve (n : string) (a : App) (l : list string)
  : Prop :=
  ∀ cur o f, cur ∈ l → cache a !! cur = Some o →
    mw_unregister (obj_class o) = Some f →
    f n = ReturnsPromise Resolves.

(** The invariant of the shared container: no identifier was built twice;
    what was built is what the map holds; and every [register] call so
    far, from whichever server, went to the instance the map holds. *)
Definition singleton_inv (a : App) : Prop :=
  NoDup (resolved a).*1 ∧
  (∀ m o, (m, o) ∈ resolved a →
          ∃ obj, cache a !! m = Some obj ∧ obj_id obj = o) ∧
  (∀ m o sv, EvCall Register m o sv ∈ trace a →
             ∃ obj, cache a !! m = Some obj ∧ obj_id obj = o).

(** The states a container shared by any number of servers can reach:
    it starts with nothing built and nothing logged, and any server, under
    any configuration, may run [init], [start] or [stop] against it. *)
Inductive reachable : App → Prop :=
| reach_fresh svcs mw nx :
    reachable {| services := svcs; middleware := mw; next_obj := nx;
                 resolved := []; trace := [] |}
| reach_init a config n sv :
    reachable a →
    reachable (app (init config n {| srv := sv; app := a |}).2)
| reach_start a config n sv :
    reachable a →
    reachable (app (start config n {| srv := sv; app := a |}).2)
| reach_stop a config n sv :
    reachable a →
    reachable (app (stop config n {| srv := sv; app := a |}).2).

(** Whether the class behind [m] has an [unregister] method. *)
Definition has_unregister (a : App) (m : string) : bool :=
  match class_of a m with
  | Some c => bool_decide (is_Some (mw_unregister c))
  | None => false
  end.

(** ** A concrete server *)

(** A server named ["api"] with the middleware list of the specification;
    only [routes] lacks an [unregister] method. *)
Definition resolving : MwClass :=
  {| mw_register := λ _, ReturnsPromise Resolves;
     mw_unregister := Some (λ _, ReturnsPromise Resolves) |}.

Definition register_only : MwClass :=
  {| mw_register := λ _, ReturnsPromise Resolves; mw_unregister := None |}.

Definition api_list : list string := ["parser"; "session"; "routes"].

Definition api_config : Config :=
  λ _, {| enable := None; setup := Ok tt; middleware_list := Some api_list |}.

Definition api_state : St :=
  {| srv := {| name := None; express := false; server := false;
               listening := false |};
     app := {| services := {[ "parser" := resolving; "session" := resolving;
                              "routes" := register_only ]};
               middleware := None; next_obj := 0; resolved := [];
               trace := [] |} |}.

End Express.

(* ===================================================================== *)
(** * Data shared by the session bridge and the session middleware *)
(* ===================================================================== *)

Module Model.

(** Application-defined key/value data of a session. *)
Abbreviation Payload := (gmap string Atom).

(** A user entity, owned by the user repository. *)
Record User := mkUser {
  id : Atom;
  profile : gmap string Atom;
}.

(** Result of a geo-IP lookup. *)
Record Geo := mkGeo {
  country : string;
  region : string;
  city : string;
}.

(** Request metadata snapshot; [None] is [null]. *)
Record Info := mkInfo {
  ip : option string;
  forwarded_for : option string;
  user_agent : option string;
  geoip : option Geo;
}.

(** The session model object. *)
Record Session := mkSession {
  token : option string;
  payload : Nullable Payload;
  info : Nullable Info;
  user : Nullable User;
  userId : Atom;
}.

(** The Express request, as far as the sources read or write it. *)
Module Req.
Record t := mk {
  cookies : option (gmap string string);
  headers : gmap string string;
  ip : option string;
  session : Nullable Payload;
  user : Nullable User;
}.
End Req.

Definition set_token (v : option string) (s : Session) : Session :=
  {| token := v; payload := payload s; info := info s; user := user s;
     userId := userId s |}.
Definition set_payload (v : Nullable Payload) (s : Session) : Session :=
  {| token := token s; payload := v; info := info s; user := user s;
     userId := userId s |}.
Definition set_info (v : Nullable Info) (s : Session) : Session :=
  {| token := token s; payload := payload s; info := v; user := user s;
     userId := userId s |}.
Definition set_user (v : Nullable User) (s : Session) : Session :=
  {| token := token s; payload := payload s; info := info s; user := v;
     userId := userId s |}.
Definition set_userId (v : Atom) (s : Session) : Session :=
  {| token := token s; payload := payload s; info := info s; user := user s;
     userId := v |}.

End Model.

(* ===================================================================== *)
(** * The session bridge ([expressSession]) *)
(* ===================================================================== *)

Module ExpressSession.
Import Model.

(** The session repository. Every method may throw, [getModel]
    included; [findByToken] answers an array whose entries may be [null];
    [deleteExpired] is optional. *)
Module SessionRepo.
Record t := mk {
  getModel : Result Session;
  findByToken : string → Result (list (Nullable Session));
  save : Session → Result unit;
  delete : Session → Result unit;
  deleteExpired : option (Z → Result unit);
}.
End SessionRepo.

(** The user repository: [find(id)] answers an array of users. *)
Module UserRepo.
Record t := mk {
  find : Atom → Result (list (Nullable User));
}.
End UserRepo.

(** Every call that reaches a repository is logged. *)
Inductive StorageCall : Type :=
| CGetModel
| CFindByToken (t : string)
| CSave (s : Session)
| CDelete (s : Session)
| CDeleteExpired (timeout : Z)
| CUserFind (uid : Atom).

(** The settings under [servers.<server>.session]; [None] is unset. *)
Record SessionConfig := mkSessionConfig {
  secret_ : option string;   (* the [secret] key; [secret] is the getter *)
  save_interval : option Z;
  expire_timeout : option Z;
  expire_interval : option Z;
  session_repository : option string;
  user_repository : option string;
  ip_header : option string;
  model : option string;
}.

Record Config := mkConfig {
  project : string;
  session_config : string → SessionConfig;
}.

(** [app.get] at the three places the bridge uses it; the container
    throws when it cannot resolve the name. *)
Record App := mkApp {
  get_model : string → Result Session;
  get_session_repo : string → Result SessionRepo.t;
  get_user_repo : string → Result UserRepo.t;
}.

Record RandomOptions := mkRandomOptions {
  lower : bool;
  upper : bool;
  digits : bool;
  special : bool;
}.

(** The pending output of the random source. *)
Abbreviation Entropy := (list nat).

Record Util := mkUtil {
  getRandomString : nat → RandomOptions → Entropy → string * Entropy;
}.

Record World := mkWorld {
  calls : list StorageCall;
  entropy : Entropy;
}.

(** The bridge object. *)
Record t := mk {
  server : string;
  _app : App;
  _config : Config;
  _util : Util;
  _tokenLength : nat;
  _sessionRepo : option SessionRepo.t;
  _userRepo : option UserRepo.t;
}.

(** [if (name) this._repo = this._app.get(name)] *)
Definition resolve_opt {A} (get : string → Result A) (n : option string)
  : Result (option A) :=
  if str_truthy n then
    match get (default "" n) with
    | Ok r => Ok (Some r)
    | Throw e => Throw e
    end
  else Ok None.

Definition constructor (app : App) (config : Config) (util : Util)
    (server : string) : Result t :=
  let sessionRepo := session_repository (session_config config server) in
  let userRepo := user_repository (session_config config server) in
  match resolve_opt (get_session_repo app) sessionRepo with
  | Throw e => Throw e
  | Ok srepo =>
      match resolve_opt (get_user_repo app) userRepo with
      | Throw e => Throw e
      | Ok urepo =>
          Ok {| server := server;
                _app := app;
                _config := config;
                _util := util;
                _tokenLength := 64;
                _sessionRepo := srepo;
                _userRepo := urepo |}
      end
  end.

Definition cfg (b : t) : SessionConfig := session_config (_config b) (server b).

(** [x || 0] for a numeric setting. *)
Definition or_zero (o : option Z) : Z := default 0 o.

Definition secret (b : t) : option string := secret_ (cfg b).
Definition saveInterval (b : t) : Z := or_zero (save_interval (cfg b)).
Definition expirationTimeout (b : t) : Z := or_zero (expire_timeout (cfg b)).
Definition expirationInterval (b : t) : Z := or_zero (expire_interval (cfg b)).

Definition tokenVar (b : t) : string :=
  "sid_" +:+ server b +:+ "_" +:+ project (_config b).

Definition set_tokenLength (length : nat) (b : t) : t :=
  {| server := server b; _app := _app b; _config := _config b;
     _util := _util b; _tokenLength := length;
     _sessionRepo := _sessionRepo b; _userRepo := _userRepo b |}.

Definition tokenLength (b : t) : nat := _tokenLength b.

(** White space as [String.prototype.trim] and [parseInt] take it. A
    string of the model holds the code units of a JavaScript string, one
    per character, so it holds code units below 256 only (which is what
    Node hands out as header values). In that range the white space and
    line terminators of the language are tab to carriage return, space
    and the no-break space U+00A0; those above it (U+FEFF, U+2028 and the
    like) cannot occur in a string of the model. *)
Definition is_space (a : ascii) : bool :=
  let n := nat_of_ascii a in
  ((9 <=? n) && (n <=? 13) || (n =? 32) || (n =? 160))%nat.

Fixpoint trim_start (s : string) : string :=
  match s with
  | String a s' => if is_space a then trim_start s' else s
  | EmptyString => EmptyString
  end.

Definition trim (s : string) : string :=
  String.rev (trim_start (String.rev (trim_start s))).

(** [v || null] for a string slot. *)
Definition str_or_null (o : option string) : option string :=
  if str_truthy o then o else None.

Section WithGeoip.
(** [geoip.lookup] of the [geoip-lite] package; [None] is [null]. *)
Context (geoip_lookup : string → option Geo).

Definition _getInfo (b : t) (req : option Req.t) : Info :=
  let ip :=
    match req with
    | Some req =>
        let ipHeader := ip_header (cfg b) in
        let ip :=
          if str_truthy ipHeader
          then trim <$> (Req.headers req !! default "" ipHeader)
          else None in
        if str_truthy ip then ip else Req.ip req
    | None => None
    end in
  let forwarded :=
    req ≫= λ req, trim <$> (Req.headers req !! "x-forwarded-for") in
  let agent :=
    req ≫= λ req, trim <$> (Req.headers req !! "user-agent") in
  {| ip := str_or_null ip;
     forwarded_for := str_or_null forwarded;
     user_agent := str_or_null agent;
     geoip := if str_truthy ip then geoip_lookup (default "" ip) else None |}.

Definition repo_call {A} (c : StorageCall) (r : Result A) : M World A :=
  modify (λ w, {| calls := calls w ++ [c]; entropy := entropy w |});;
  call r.

Definition random_string (b : t) (n : nat) (o : RandomOptions)
  : M World string :=
  w ← get;
  let '(str, rest) := getRandomString (_util b) n o (entropy w) in
  modify (λ w, {| calls := calls w; entropy := rest |});;
  mret str.

Definition alphanumeric : RandomOptions :=
  {| lower := true; upper := true; digits := true; special := false |}.

Definition create (b : t) (user : Nullable User) (req : option Req.t)
  : M World Session :=
  let model := model (cfg b) in
  session ←
    (if str_truthy model then call (get_model (_app b) (default "" model))
     else match _sessionRepo b with
          | Some repo => repo_call CGetModel (SessionRepo.getModel repo)
          | None => throw "No model for the bridge"
          end);
  tok ← random_string b (tokenLength b) alphanumeric;
  let session := set_token (Some tok) session in
  let session := set_payload (Obj ∅) session in
  let session := set_info (Obj (_getInfo b req)) session in
  let session := set_user user session in
  mret (match user with
        | Obj u => set_userId (id u) session
        | _ => session
        end).

(** [(xs.length && xs[0])] followed by a truthiness test or [|| null]. *)
Definition first_or_null {A} (xs : list (Nullable A)) : Nullable A :=
  match xs with
  | [] => Null
  | x :: _ => or_null x
  end.

Definition find (b : t) (token : string) (req : option Req.t)
  : M World (Nullable Session) :=
  match _sessionRepo b with
  | None => mret Null
  | Some repo =>
      sessions ← repo_call (CFindByToken token)
                           (SessionRepo.findByToken repo token);
      match first_or_null sessions with
      | Obj session =>
          session ←
            match atom_truthy (userId session), _userRepo b with
            | true, Some urepo =>
                users ← repo_call (CUserFind (userId session))
                                  (UserRepo.find urepo (userId session));
                mret (set_user (first_or_null users) session)
            | _, _ => mret session
            end;
          let session :=
            match req with
            | Some _ => set_info (Obj (_getInfo b req)) session
            | None => session
            end in
          mret (Obj session)
      | _ => mret Null
      end
  end.

(** [save] returns nothing; the model returns the session object as the
    call leaves it. *)
Definition save (b : t) (session : Session) (req : option Req.t)
  : M World Session :=
  let session :=
    match req with
    | Some _ => set_info (Obj (_getInfo b req)) session
    | None => session
    end in
  let session :=
    set_userId (match user session with Obj u => id u | _ => ANull end)
               session in
  match _sessionRepo b with
  | Some repo =>
      repo_call (CSave session) (SessionRepo.save repo session);;
      mret session
  | None => mret session
  end.

Definition destroy (b : t) (session : Session) : M World unit :=
  match _sessionRepo b with
  | Some repo => repo_call (CDelete session) (SessionRepo.delete repo session)
  | None => mret tt
  end.

Definition expire (b : t) : M World unit :=
  match _sessionRepo b with
  | Some repo =>
      match SessionRepo.deleteExpired repo with
      | Some del =>
          repo_call (CDeleteExpired (expirationTimeout b))
                    (del (expirationTimeout b))
      | None => mret tt
      end
  | None => mret tt
  end.
(** ** Vocabulary of the statements *)

(** Where [create] takes the model object from, if anywhere. *)
Definition model_source (b : t) : option (Result Session) :=
  if str_truthy (model (cfg b))
  then Some (get_model (_app b) (default "" (model (cfg b))))
  else SessionRepo.getModel <$> _sessionRepo b.

(** The session [create] builds on top of the model object [base]. *)
Definition created_from (b : t) (base : Session) (tok : string)
    (user : Nullable User) (req : option Req.t) : Session :=
  {| token := Some tok;
     payload := Obj ∅;
     info := Obj (_getInfo b req);
     user := user;
     userId := match user with Obj u => id u | _ => userId base end |}.

(** The session [find] returns for a stored session [s]. *)
Definition refreshed (b : t) (req : option Req.t) (s : Session) : Session :=
  match req with
  | Some _ => set_info (Obj (_getInfo b req)) s
  | None => s
  end.

End WithGeoip.

(** The characters that [alphanumeric] selects. *)
Definition is_alnum (a : ascii) : bool :=
  let n := nat_of_ascii a in
  ((48 <=? n) && (n <=? 57) || (65 <=? n) && (n <=? 90)
   || (97 <=? n) && (n <=? 122))%nat.

Fixpoint all_chars (p : ascii → bool) (s : string) : bool :=
  match s with
  | EmptyString => true
  | String a s' => p a && all_chars p s'
  end.

(** The contract of [util.getRandomString] that the bridge relies on:
    the requested length, and for the [alphanumeric] options only letters
    and digits. *)
Definition random_string_contract (u : Util) : Prop :=
  ∀ n e,
    String.length (getRandomString u n alphanumeric e).1 = n ∧
    all_chars is_alnum (getRandomString u n alphanumeric e).1 = true.

(** ** A concrete bridge *)

(** The model object a repository hands out, a stored session and its
    owner. *)
Definition blank : Session :=
  {| token := None; payload := Undefined; info := Undefined;
     user := Undefined; userId := AUndefined |}.

Definition stored : Session :=
  {| token := Some "known"; payload := Obj {[ "cart" := ANum 3 ]};
     info := Null; user := Null; userId := ANum 7 |}.

Definition alice : User := {| id := ANum 7; profile := ∅ |}.

Definition demo_repo : SessionRepo.t :=
  {| SessionRepo.getModel := Ok blank;
     SessionRepo.findByToken :=
       λ t, if String.eqb t "known" then Ok [Obj stored] else Ok [];
     SessionRepo.save := λ _, Ok tt;
     SessionRepo.delete := λ _, Ok tt;
     SessionRepo.deleteExpired := None |}.

Definition demo_users : UserRepo.t :=
  {| UserRepo.find := λ _, Ok [Obj alice] |}.

(** A generator that turns each number of the source into a letter. *)
Fixpoint letters (n : nat) (e : list nat) : string :=
  match n with
  | O => EmptyString
  | Datatypes.S n' =>
      String (ascii_of_nat (97 + hd 0%nat e `mod` 26)) (letters n' (tl e))
  end.

Definition demo_util : Util :=
  {| getRandomString := λ n _ e, (letters n e, drop n e) |}.

Definition demo_app : App :=
  {| get_model := λ _, Ok blank;
     get_session_repo := λ _, Ok demo_repo;
     get_user_repo := λ _, Ok demo_users |}.

Definition demo_session_config : SessionConfig :=
  {| secret_ := Some "s3cret"; save_interval := None; expire_timeout := Some 60;
     expire_interval := None; session_repository := Some "repositories.session";
     user_repository := Some "repositories.user"; ip_header := None;
     model := Some "models.session" |}.

Definition demo_config : Config :=
  {| project := "demo"; session_config := λ _, demo_session_config |}.

Definition demo_bridge : t :=
  {| server := "api"; _app := demo_app; _config := demo_config;
     _util := demo_util; _tokenLength := 64;
     _sessionRepo := Some demo_repo; _userRepo := Some demo_users |}.

(** The same server on a container that does not know the configured
    model. *)
Definition unresolved_bridge : t :=
  {| server := "api";
     _app := {| get_model := λ n, Throw ("No service: " +:+ n);
                get_session_repo := λ _, Ok demo_repo;
                get_user_repo := λ _, Ok demo_users |};
     _config := demo_config;
     _util := demo_util; _tokenLength := 64;
     _sessionRepo := Some demo_repo; _userRepo := Some demo_users |}.

(** The same server without any repository. *)
Definition bare_bridge : t :=
  {| server := "api"; _app := demo_app; _config := demo_config;
     _util := demo_util; _tokenLength := 64;
     _sessionRepo := None; _userRepo := None |}.

Definition demo_world : World := {| calls := []; entropy := [3; 1; 4; 1; 5]%nat |}.

Definition no_geoip : string → option Geo := λ _, None.

End ExpressSession.

(* ===================================================================== *)
(** * The session middleware ([express.session]), both revisions *)
(* ===================================================================== *)

Module SessionMw.
Import Model.

Record Cookie := mkCookie {
  cookie_name : string;
  cookie_value : string;
  maxAge : Z;
  path : string;
  httpOnly : bool;
}.

(** The response: [res.locals], the cookies set through [res.cookie] and
    the number of times the original [end] was applied. *)
Record Res := mkRes {
  locals_session : Nullable Payload;
  locals_user : Nullable User;
  cookies_set : list Cookie;
  end_calls : nat;
}.

(** The methods of the session service ([this._session]) that the
    middleware awaits. [decodeJwt] stands for the call and the read of
    [.session] on what it resolves to (a result without that field gives
    [undefined]; a [null] result makes the read throw inside the same
    [try]); [update] may change the session object it is given and
    resolves to a value that is only tested for truthiness. *)
Record SessionService := mkSessionService {
  decodeJwt : string → string → Req.t → Result (Nullable Session);
  create : string → Nullable User → Req.t → Result (Nullable Session);
  update : string → Session → Req.t → Result bool * Session;
  encodeJwt : string → Session → Result string;
}.

(** Everything one request carries: [req], [res], the closure variable
    [session] shared by the handler and the patched [res.end], what
    [logger.error] and [console.log] received, and the calls of [next]. *)
Record Ctx := mkCtx {
  req : Req.t;
  res : Res;
  session : Nullable Session;
  log : list Error;
  console : list string;
  next_calls : nat;
}.

Definition payload_nonempty (p : Nullable Payload) : bool :=
  match p with
  | Obj m => negb (bool_decide (m = ∅))
  | _ => false
  end.

(** Modelled from the spec: [isValid] of the session service, whose source
    is not part of the tree. ``True iff the session carries a non-empty
    payload or an attached user.'' *)
Definition isValid (name : string) (s : Session) : bool :=
  payload_nonempty (payload s) || truthy (user s).

(** [req.session = res.locals.session = v] *)
Definition with_session (v : Nullable Payload) (c : Ctx) : Ctx :=
  {| req := {| Req.cookies := Req.cookies (req c);
               Req.headers := Req.headers (req c);
               Req.ip := Req.ip (req c);
               Req.session := v;
               Req.user := Req.user (req c) |};
     res := {| locals_session := v; locals_user := locals_user (res c);
               cookies_set := cookies_set (res c);
               end_calls := end_calls (res c) |};
     session := session c; log := log c; console := console c;
     next_calls := next_calls c |}.

(** [req.user = res.locals.user = v] *)
Definition with_user (v : Nullable User) (c : Ctx) : Ctx :=
  {| req := {| Req.cookies := Req.cookies (req c);
               Req.headers := Req.headers (req c);
               Req.ip := Req.ip (req c);
               Req.session := Req.session (req c);
               Req.user := v |};
     res := {| locals_session := locals_session (res c); locals_user := v;
               cookies_set := cookies_set (res c);
               end_calls := end_calls (res c) |};
     session := session c; log := log c; console := console c;
     next_calls := next_calls c |}.

(** Assignment to the closure variable [session]. *)
Definition with_var (v : Nullable Session) (c : Ctx) : Ctx :=
  {| req := req c; res := res c; session := v; log := log c;
     console := console c; next_calls := next_calls c |}.

(** [this._logger.error(e)] *)
Definition logged (e : Error) (c : Ctx) : Ctx :=
  {| req := req c; res := res c; session := session c;
     log := log c ++ [e]; console := console c;
     next_calls := next_calls c |}.

(** [console.log(s)] *)
Definition printed (s : string) (c : Ctx) : Ctx :=
  {| req := req c; res := res c; session := session c; log := log c;
     console := console c ++ [s]; next_calls := next_calls c |}.

(** [next()] *)
Definition nexted (c : Ctx) : Ctx :=
  {| req := req c; res := res c; session := session c; log := log c;
     console := console c; next_calls := Datatypes.S (next_calls c) |}.

(** [res.cookie(name, value, options)] *)
Definition with_cookie (k : Cookie) (c : Ctx) : Ctx :=
  {| req := req c;
     res := {| locals_session := locals_session (res c);
               locals_user := locals_user (res c);
               cookies_set := cookies_set (res c) ++ [k];
               end_calls := end_calls (res c) |};
     session := session c; log := log c; console := console c;
     next_calls := next_calls c |}.

(** [origEnd.apply(res, args)] *)
Definition ended (c : Ctx) : Ctx :=
  {| req := req c;
     res := {| locals_session := locals_session (res c);
               locals_user := locals_user (res c);
               cookies_set := cookies_set (res c);
               end_calls := Datatypes.S (end_calls (res c)) |};
     session := session c; log := log c; console := console c;
     next_calls := next_calls c |}.

Definition assign_session (v : Nullable Payload) : M Ctx unit :=
  modify (with_session v).
Definition assign_user (v : Nullable User) : M Ctx unit :=
  modify (with_user v).
Definition assign_var (v : Nullable Session) : M Ctx unit :=
  modify (with_var v).
Definition logger_error (e : Error) : M Ctx unit := modify (logged e).
Definition console_log (s : string) : M Ctx unit := modify (printed s).
Definition next : M Ctx unit := modify nexted.
Definition res_cookie (k : Cookie) : M Ctx unit := modify (with_cookie k).
Definition origEnd : M Ctx unit := modify ended.

(** [req.cookies && bridge.tokenVar && req.cookies[bridge.tokenVar]] *)
Definition cookie_token (cookies : option (gmap string string))
    (tokenVar : string) : option string :=
  match cookies with
  | None => None
  | Some jar => if String.eqb tokenVar "" then None else jar !! tokenVar
  end.

(** [(session && session.payload) || null] and its sibling for the user. *)
Definition payload_or_null (s : Nullable Session) : Nullable Payload :=
  match s with Obj s => or_null (payload s) | _ => Null end.
Definition user_or_null (s : Nullable Session) : Nullable User :=
  match s with Obj s => or_null (user s) | _ => Null end.

(** The options every session cookie is set with. *)
Definition session_cookie (tokenVar token : string) : Cookie :=
  {| cookie_name := tokenVar;
     cookie_value := token;
     maxAge := 365 * 24 * 60 * 60 * 1000;
     path := "/";
     httpOnly := false |}.

(** [Object.assign(target, source)] on payload objects: the properties of
    [source] win; a [null] or [undefined] source is skipped. *)
Definition object_assign (target : Payload) (source : Nullable Payload)
  : Payload :=
  match source with
  | Obj p => p ∪ target
  | _ => target
  end.

Section Handlers.
Context (svc : SessionService) (name : string) (tokenVar : string).

(** The [try] block shared by both revisions up to the point where they
    publish the session on the request. *)
Definition resolve_session : M Ctx unit :=
  c ← get;
  let token := cookie_token (Req.cookies (req c)) tokenVar in
  (if str_truthy token then
     s ← call (decodeJwt svc name (default "" token) (req c));
     assign_var s
   else mret tt);;
  c ← get;
  if negb (truthy (session c)) then
    s ← call (create svc name Null (req c));
    assign_var s
  else mret tt.

(** *** Revision with a nullable [req.session] *)

Definition handler_v1 : M Ctx unit :=
  assign_session Null;;
  assign_user Null;;
  assign_var Undefined;;
  try_catch
    (resolve_session;;
     c ← get;
     assign_session (payload_or_null (session c));;
     assign_user (user_or_null (session c)))
    logger_error;;
  next.

Definition end_v1 : M Ctx unit :=
  c ← get;
  match session c with
  | Obj s =>
      let s := set_user (Req.user (req c)) s in
      assign_var (Obj s);;
      try_catch
        (let '(r, s') := update svc name s (req c) in
         assign_var (Obj s');;
         call r;;
         if isValid name s' && negb (String.eqb tokenVar "") then
           token ← call (encodeJwt svc name s');
           console_log token;;
           res_cookie (session_cookie tokenVar token)
         else mret tt)
        logger_error
  | _ => mret tt
  end;;
  origEnd.

(** *** Revision where [req.session] is always an object *)

Definition handler_v2 : M Ctx unit :=
  assign_session (Obj ∅);;
  assign_user Null;;
  assign_var Undefined;;
  try_catch
    (resolve_session;;
     c ← get;
     match session c with
     | Obj s =>
         match Req.session (req c) with
         | Obj target => assign_session (Obj (object_assign target (payload s)))
         | _ => throw "TypeError: Cannot convert undefined or null to object"
         end
     | _ => mret tt
     end;;
     assign_user (user_or_null (session c)))
    logger_error;;
  next.

Definition end_v2 : M Ctx unit :=
  c ← get;
  match session c with
  | Obj s =>
      let s := set_payload (Req.session (req c)) s in
      let s := set_user (Req.user (req c)) s in
      assign_var (Obj s);;
      try_catch
        (let '(r, s') := update svc name s (req c) in
         assign_var (Obj s');;
         ok ← call r;
         if ok && negb (String.eqb tokenVar "") then
           token ← call (encodeJwt svc name s');
           res_cookie (session_cookie tokenVar token)
         else mret tt)
        logger_error
  | _ => mret tt
  end;;
  origEnd.

(** ** Vocabulary of the statements *)

(** The request as each revision leaves it before entering [try]. *)
Definition reset_v1 (c : Ctx) : Ctx :=
  with_var Undefined (with_user Null (with_session Null c)).

Definition reset_v2 (c : Ctx) : Ctx :=
  with_var Undefined (with_user Null (with_session (Obj ∅) c)).

Definition token_of (c : Ctx) : option string :=
  cookie_token (Req.cookies (req c)) tokenVar.

(** The error, if any, that decoding the token or creating a session
    raises for the request in [c]. *)
Inductive bridge_error (c : Ctx) : Error → Prop :=
| decode_threw e :
    str_truthy (token_of c) = true →
    decodeJwt svc name (default "" (token_of c)) (req c) = Throw e →
    bridge_error c e
| create_threw e :
    str_truthy (token_of c) = false →
    create svc name Null (req c) = Throw e →
    bridge_error c e
| create_threw_after_decode s e :
    str_truthy (token_of c) = true →
    decodeJwt svc name (default "" (token_of c)) (req c) = Ok s →
    truthy s = false →
    create svc name Null (req c) = Throw e →
    bridge_error c e.

(** Outcome of the resolution block: whether it threw, and the value
    the closure variable is left with. *)
Definition resolution (c : Ctx) : Result unit * Nullable Session :=
  let decoded :=
    if str_truthy (token_of c)
    then decodeJwt svc name (default "" (token_of c)) (req c)
    else Ok (session c) in
  match decoded with
  | Throw e => (Throw e, session c)
  | Ok s =>
      if truthy s then (Ok tt, s)
      else match create svc name Null (req c) with
           | Ok s' => (Ok tt, s')
           | Throw e => (Throw e, s)
           end
  end.

(** What each revision publishes when the resolution block succeeded
    with the closure variable holding [v]. *)
Definition publish_v1 (v : Nullable Session) (c : Ctx) : Ctx :=
  with_user (user_or_null v) (with_session (payload_or_null v) c).

Definition publish_v2 (v : Nullable Session) (c : Ctx) : Ctx :=
  with_user (user_or_null v)
    (match v with
     | Obj s => with_session (Obj (object_assign ∅ (payload s))) c
     | _ => c
     end).

(** The session object as each revision hands it to [update]. *)
Definition finalized_v1 (c : Ctx) (s0 : Session) : Session :=
  set_user (Req.user (req c)) s0.

Definition finalized_v2 (c : Ctx) (s0 : Session) : Session :=
  set_user (Req.user (req c)) (set_payload (Req.session (req c)) s0).

(** The tail shared by both patched [res.end]: [issue] is the test that
    guards the cookie. *)
Definition finalize (issue : bool → Session → bool) (print : bool)
    (s : Session) (c : Ctx) : Ctx :=
  let '(r, s') := update svc name s (req c) in
  let c1 := with_var (Obj s') c in
  match r with
  | Throw e => logged e c1
  | Ok ok =>
      if issue ok s' && negb (String.eqb tokenVar "") then
        match encodeJwt svc name s' with
        | Ok tok =>
            with_cookie (session_cookie tokenVar tok)
                        (if print then printed tok c1 else c1)
        | Throw e => logged e c1
        end
      else c1
  end.

(** When one of the methods that the hook awaits throws, the error it
    threw is what [logger.error] receives. *)
Definition request_contained (handler : M Ctx unit) (reset : Ctx → Ctx)
    (c : Ctx) : Prop :=
  (handler c).1 = Ok tt ∧
  next_calls (handler c).2 = Datatypes.S (next_calls c) ∧
  (∀ e, bridge_error (reset c) e → log (handler c).2 = log c ++ [e]).

Definition finalize_contained (end_ : M Ctx unit)
    (finalized : Ctx → Session → Session)
    (issue : bool → Session → bool) (c : Ctx) : Prop :=
  (end_ c).1 = Ok tt ∧
  end_calls (res (end_ c).2) = Datatypes.S (end_calls (res c)) ∧
  (∀ s0 s' e,
     session c = Obj s0 →
     update svc name (finalized c s0) (req c) = (Throw e, s') →
     log (end_ c).2 = log c ++ [e]) ∧
  (∀ s0 s' ok e,
     session c = Obj s0 →
     update svc name (finalized c s0) (req c) = (Ok ok, s') →
     issue ok s' = true → String.eqb tokenVar "" = false →
     encodeJwt svc name s' = Throw e →
     log (end_ c).2 = log c ++ [e]).

End Handlers.

(** A request as it arrives: nothing set on it by this middleware yet. *)
Definition fresh_ctx (cookies : option (gmap string string))
    (headers : gmap string string) (ip : option string) : Ctx :=
  {| req := {| Req.cookies := cookies; Req.headers := headers; Req.ip := ip;
               Req.session := Undefined; Req.user := Undefined |};
     res := {| locals_session := Undefined; locals_user := Undefined;
               cookies_set := []; end_calls := 0 |};
     session := Undefined; log := []; console := []; next_calls := 0 |}.

(** ** Concrete requests *)

(** A session service whose every method throws. *)
Definition failing : SessionService :=
  {| decodeJwt := λ _ _ _, Throw "jwt malformed";
     create := λ _ _ _, Throw "No model for the bridge";
     update := λ _ s _, (Throw "save failed", s);
     encodeJwt := λ _ _, Throw "secretOrPrivateKey must have a value" |}.

Definition anonymous : Session :=
  {| token := Some "t0"; payload := Obj ∅; info := Null; user := Null;
     userId := ANull |}.

Definition shopper : Session :=
  {| token := Some "t1"; payload := Obj {[ "cart" := ANum 3 ]}; info := Null;
     user := Null; userId := ANull |}.

(** A session service that works: it knows the token ["jwt:t1"], creates
    anonymous sessions, and reports validity from [update]. *)
Definition working : SessionService :=
  {| decodeJwt := λ _ t _,
       if String.eqb t "jwt:t1" then Ok (Obj shopper) else Ok Undefined;
     create := λ _ _ _, Ok (Obj anonymous);
     update := λ n s _, (Ok (isValid n s), s);
     encodeJwt := λ _ s, Ok ("jwt:" +:+ default "" (token s)) |}.

(** A request without cookies, and one that carries the session cookie. *)
Definition arriving : Ctx := fresh_ctx None ∅ None.

Definition returning : Ctx :=
  fresh_ctx (Some {[ "sid_api_demo" := "jwt:t1" ]}) ∅ None.

End SessionMw.

(* ===================================================================== *)
(** * The Express server, continued: failures and ports *)
(* ===================================================================== *)

Module ExpressEdge.
Import Express.

(** The error with which a call of [register] or [unregister] makes the
    chain reject, if it does. *)
Definition call_error (m : Method) (cur : string) (r : CallResult)
  : option Error :=
  match r with
  | ReturnsPromise Resolves => None
  | ReturnsPromise (Rejects e) => Some e
  | ReturnsOther =>
      Some ("Middleware '" +:+ cur +:+ "' " +:+ method_name m
              +:+ "() did not return a Promise")
  | ThrowsSync e => Some e
  end.

(** ** [_normalizePort] *)

(** What [config.get] can hand to [_normalizePort]: a string, an
    integer-valued number, or nothing. *)
Inductive PortVal : Type :=
| VStr (s : string)
| VNum (n : Z)
| VUndefined.

(** What [_normalizePort] returns: a port number, the value it was given,
    or [false]. [RPort 0] stands for both zeros of the language. *)
Inductive Port : Type :=
| RPort (port : Z)
| RVal (val : PortVal)
| RFalse.

(** Numbers are doubles. Every integer up to [2^53] in magnitude is one,
    is written by [String] in plain decimal, and is what [parseInt] gives
    for its decimal notation; beyond that bound integers need not be
    numbers, [parseInt] rounds, and from [10^21] on [String] writes an
    exponent. The model follows numbers up to the bound and says so where
    it stops. *)
Definition max_exact : Z := 2 ^ 53.

Definition exact (z : Z) : bool := Z.abs z <=? max_exact.

(** Decimal notation of a natural number. *)
Definition decimal (n : N) : string :=
  DecimalString.NilEmpty.string_of_uint (N.to_uint n).

(** [String(val)], which [parseInt] applies to its argument first; [None]
    for an integer beyond the bound, which the model does not follow. *)
Definition to_string (val : PortVal) : option string :=
  match val with
  | VStr s => Some s
  | VNum n =>
      if exact n
      then Some (if n <? 0 then "-" +:+ decimal (Z.to_N (- n))
                 else decimal (Z.to_N n))
      else None
  | VUndefined => Some "undefined"
  end.

Definition is_digit (a : ascii) : bool :=
  let n := nat_of_ascii a in
  ((48 <=? n) && (n <=? 57))%nat.

(** The longest prefix of [s] made of decimal digits. *)
Fixpoint digits_prefix (s : string) : string :=
  match s with
  | String a s' => if is_digit a then String a (digits_prefix s') else ""
  | EmptyString => ""
  end.

(** The optional sign in front of the digits. *)
Definition read_sign (s : string) : Z * string :=
  match s with
  | String a s' =>
      if Ascii.eqb a "-" then (-1, s')
      else if Ascii.eqb a "+" then (1, s')
      else (1, s)
  | EmptyString => (1, s)
  end.

(** The number the digits at the front of [s] denote; [None] without a
    digit. *)
Definition read_digits (s : string) : option N :=
  match digits_prefix s with
  | EmptyString => None
  | ds => N.of_uint <$> DecimalString.NilEmpty.uint_of_string ds
  end.

(** The mathematical integer that [parseInt(s, 10)] reads: leading white
    space is skipped, one sign is read, then the digits up to the first
    other character; [None] when there is no digit. *)
Definition read_integer (s : string) : option Z :=
  let '(sign, s) := read_sign (ExpressSession.trim_start s) in
  (λ n, sign * Z.of_N n) <$> read_digits s.

(** What [parseInt(s, 10)] returns: [NaN], the integer read when it is
    within the bound, and otherwise a number of which the model keeps the
    sign only (its value is the integer read, rounded, or an infinity). *)
Inductive Parsed : Type :=
| NaN
| Num (z : Z)
| Inexact (negative : bool).

Definition parseInt (s : string) : Parsed :=
  match read_integer s with
  | None => NaN
  | Some z => if exact z then Num z else Inexact (z <? 0)
  end.

(** [_normalizePort]; [None] where the model does not follow the numbers:
    the value is an integer beyond the bound, or the port read is (the
    code then returns that port, a number above [2^53]). *)
Definition _normalizePort (val : PortVal) : option Port :=
  s ← to_string val;
  match parseInt s with
  | NaN => Some (RVal val)
  | Num port => Some (if 0 <=? port then RPort port else RFalse)
  | Inexact true => Some RFalse
  | Inexact false => None
  end.

(** ** The options loop of [init] *)

(** [s.replace(c, d)] with a one-character pattern: only the first
    occurrence is replaced. *)
Fixpoint replace_first (c d : ascii) (s : string) : string :=
  match s with
  | EmptyString => EmptyString
  | String a s' =>
      if Ascii.eqb a c then String d s' else String a (replace_first c d s')
  end.

(** [for (let option of Object.keys(options)) this.express.set(
      option.replace('_', ' '), options[option])], on the table of
    application settings. *)
Definition set_options {V} (options : list (string * V))
    (settings : gmap string V) : gmap string V :=
  fold_left (λ st kv, <[replace_first "_" " " kv.1 := kv.2]> st)
            options settings.

(** The server of the specification, switched off. *)
Definition disabled_config : Config :=
  λ _, {| enable := Some false; setup := Throw "unused";
          middleware_list := Some api_list |}.

(** ** The transport [init] creates *)

(** The options given to [https.createServer]: the buffers read from the
    key and certificate files and, when there is one, from the CA file. *)
Record TlsOptions := mkTlsOptions {
  tls_key : string;
  tls_cert : string;
  tls_ca : option string;
}.

Inductive Transport : Type :=
| Http
| Https (options : TlsOptions).

(** The rejections among promises. *)
Definition rejections {A} (ps : list (Result A)) : list Error :=
  omap (λ p, match p with Throw e => Some e | Ok _ => None end) ps.

(** A configuration in which [key] holds [v]. *)
Definition override (key : string) (v : option string)
    (get : string → option string) : string → option string :=
  λ k, if String.eqb k key then v else get k.

Section Transport.
(** [path.join] and the base path; [config.get] on the keys tested for
    truthiness and on the keys that hold a path ([None] when unset);
    [filer.lockReadBuffer], by how the promise it returns settles; and,
    for [Promise.all], which of several rejections settles first. *)
Context (path_join : list string → string) (base_path : string).
Context (config_truthy : string → bool).
Context (config_str : string → option string).
Context (lockReadBuffer : option string → Result string).
Context (first_settled : list Error → Error).

(** [if (p && p[0] !== '/') p = path.join(base_path, p)] *)
Definition under_base (p : option string) : option string :=
  match p with
  | Some (String a _ as s) =>
      if Ascii.eqb a "/" then p else Some (path_join [base_path; s])
  | _ => p
  end.

Definition create_server (name : string) : Result Transport :=
  if config_truthy ("servers." +:+ name +:+ ".ssl.enable") then
    let key := under_base (config_str ("servers." +:+ name +:+ ".ssl.key")) in
    let cert :=
      under_base (config_str ("servers." +:+ name +:+ ".ssl.cert")) in
    let ca := under_base (config_str ("server." +:+ name +:+ ".ssl.ca")) in
    let keyVal := lockReadBuffer key in
    let certVal := lockReadBuffer cert in
    let caVal := if str_truthy ca then [lockReadBuffer ca] else [] in
    match keyVal, certVal, caVal with
    | Ok k, Ok c, [] =>
        Ok (Https {| tls_key := k; tls_cert := c; tls_ca := None |})
    | Ok k, Ok c, [Ok a] =>
        Ok (Https {| tls_key := k; tls_cert := c; tls_ca := Some a |})
    | _, _, _ =>
        Throw (first_settled (rejections ([keyVal; certVal] ++ caVal)))
    end
  else Ok Http.

End Transport.

(** A server with TLS switched on, whose files all exist. *)
Definition tls_truthy (k : string) : bool := String.eqb k "servers.api.ssl.enable".

Definition tls_settings (k : string) : option string :=
  if String.eqb k "servers.api.ssl.key" then Some "certs/api.key"
  else if String.eqb k "servers.api.ssl.cert" then Some "/etc/ssl/api.crt"
  else if String.eqb k "servers.api.ssl.ca" then Some "certs/ca.crt"
  else None.

Definition tls_read (f : option string) : Result string :=
  match f with
  | Some f => Ok ("<" +:+ f +:+ ">")
  | None => Throw "The path argument must be a string"
  end.

End ExpressEdge.

(* ===================================================================== *)
(** * The session bridge, continued: other servers and failing storage *)
(* ===================================================================== *)

Module BridgeEdge.
Import Model ExpressSession.

(** A session repository whose storage is down. *)
Definition broken_repo : SessionRepo.t :=
  {| SessionRepo.getModel := Throw "connection refused";
     SessionRepo.findByToken := λ _, Throw "connection refused";
     SessionRepo.save := λ _, Throw "connection refused";
     SessionRepo.delete := λ _, Throw "connection refused";
     SessionRepo.deleteExpired := Some (λ _, Throw "connection refused") |}.

Definition broken_bridge : t :=
  {| server := "api"; _app := demo_app; _config := demo_config;
     _util := demo_util; _tokenLength := 64;
     _sessionRepo := Some broken_repo; _userRepo := Some demo_users |}.

(** A second server of the same project. *)
Definition admin_bridge : t :=
  {| server := "admin"; _app := demo_app; _config := demo_config;
     _util := demo_util; _tokenLength := 64;
     _sessionRepo := Some demo_repo; _userRepo := Some demo_users |}.

(** The server of the specification without a user repository. *)
Definition lonely_bridge : t :=
  {| server := "api"; _app := demo_app; _config := demo_config;
     _util := demo_util; _tokenLength := 64;
     _sessionRepo := Some demo_repo; _userRepo := None |}.

(** A string has no white space in front, or none at its end. *)
Definition no_lead (s : string) : Prop :=
  ∀ a r, s = String a r → is_space a = false.

Definition no_trail (s : string) : Prop :=
  ∀ r a, s = r +:+ String a "" → is_space a = false.

(** The snapshot of a call without a request. *)
Definition no_info : Info :=
  {| ip := None; forwarded_for := None; user_agent := None; geoip := None |}.

(** What [save] writes into [userId] for the attached user. *)
Definition owner (user : Nullable User) : Atom :=
  match user with Obj u => id u | _ => ANull end.

End BridgeEdge.

(* ===================================================================== *)
(** * The session middleware, continued: whole requests *)
(* ===================================================================== *)

Module SessionMwEdge.
Import Model SessionMw.

(** The same session service with one method replaced. *)
Definition with_decodeJwt
    (d : string → string → Req.t → Result (Nullable Session))
    (svc : SessionService) : SessionService :=
  {| decodeJwt := d; create := create svc; update := update svc;
     encodeJwt := encodeJwt svc |}.

Definition with_create
    (k : string → Nullable User → Req.t → Result (Nullable Session))
    (svc : SessionService) : SessionService :=
  {| decodeJwt := decodeJwt svc; create := k; update := update svc;
     encodeJwt := encodeJwt svc |}.

Section Requests.
Context (svc : SessionService) (name : string) (tokenVar : string).

(** A request that no later handler touches: the handler runs, then the
    patched [res.end]. *)
Definition request_v1 : M Ctx unit :=
  handler_v1 svc name tokenVar;; end_v1 svc name tokenVar.

Definition request_v2 : M Ctx unit :=
  handler_v2 svc name tokenVar;; end_v2 svc name tokenVar.

(** What a handler leaves alone, and the only thing it may log. *)
Definition handler_framed (handler : M Ctx unit) (reset : Ctx → Ctx)
    (c : Ctx) : Prop :=
  let c' := (handler c).2 in
  cookies_set (res c') = cookies_set (res c) ∧
  end_calls (res c') = end_calls (res c) ∧
  console c' = console c ∧
  Req.cookies (req c') = Req.cookies (req c) ∧
  Req.headers (req c') = Req.headers (req c) ∧
  Req.ip (req c') = Req.ip (req c) ∧
  (log c' = log c ∨
   ∃ e, bridge_error svc name tokenVar (reset c) e ∧ log c' = log c ++ [e]).

(** What a patched [res.end] leaves alone, and the two things it may do:
    log at most one error, or set one cookie ([print] tells whether the
    revision also prints the token). *)
Definition end_framed (end_ : M Ctx unit) (print : bool) (c : Ctx) : Prop :=
  let c' := (end_ c).2 in
  req c' = req c ∧
  locals_session (res c') = locals_session (res c) ∧
  locals_user (res c') = locals_user (res c) ∧
  next_calls c' = next_calls c ∧
  ((cookies_set (res c') = cookies_set (res c) ∧ console c' = console c ∧
    (log c' = log c ∨ ∃ e, log c' = log c ++ [e])) ∨
   (∃ tok,
      cookies_set (res c')
        = cookies_set (res c) ++ [session_cookie tokenVar tok] ∧
      log c' = log c ∧
      console c' = console c ++ (if print then [tok] else []))).

(** The outcome of a request whose token could not be decoded. *)
Definition turned_away (request : M Ctx unit) (shown : Nullable Payload)
    (e : Error) (c : Ctx) : Prop :=
  let c' := (request c).2 in
  session c' = Undefined ∧
  Req.session (req c') = shown ∧
  Req.user (req c') = Null ∧
  cookies_set (res c') = cookies_set (res c) ∧
  log c' = log c ++ [e] ∧
  end_calls (res c') = Datatypes.S (end_calls (res c)).

End Requests.

(** The session object an untouched request hands to [update], for the
    session [s] it resolved. *)
Definition written_back_v1 (s : Session) : Session :=
  set_user (or_null (user s)) s.

Definition written_back_v2 (s : Session) : Session :=
  set_user (or_null (user s))
           (set_payload (Obj (object_assign ∅ (payload s))) s).

End SessionMwEdge.

(* ===================================================================== *)
(** * Static files and the favicon ([express.staticFiles],
      [express.favicon]) *)
(* ===================================================================== *)

Module Assets.

(** The [static] key of a module's configuration; [None] when it is not
    set. *)
Record ModuleConfig := mkModuleConfig {
  static : option (list string);
}.

(** What [express.use] received: the static handler of a directory, or
    the favicon handler that [serve-favicon] built. *)
Inductive Mounted : Type :=
| Static (dir : string)
| Favicon (handle : nat).

Section Register.
(** [path.join] of Node, the base path of the application,
    [fs.lstatSync(f).isFile()] and [favicon(f)] of [serve-favicon]; the
    last two may throw. *)
Context (path_join : list string → string) (base_path : string).
Context (lstat_isFile : string → Result bool).
Context (favicon : string → Result nat).

(** [dir[0] === '/'] *)
Definition is_absolute (dir : string) : bool :=
  match dir with
  | String a _ => Ascii.eqb a "/"
  | EmptyString => false
  end.

(** [dir[0] === '/' ? dir
      : path.join(base_path, 'modules', moduleName, dir)] *)
Definition resolve (moduleName dir : string) : string :=
  if is_absolute dir then dir
  else path_join [base_path; "modules"; moduleName; dir].

(** [StaticFiles.register]: [modules] is [config.modules] in iteration
    order and [stack] what the application has mounted so far. *)
Definition static_register (modules : list (string * ModuleConfig))
    (stack : list Mounted) : list Mounted :=
  fold_left
    (λ stack m,
       fold_left (λ stack dir, stack ++ [Static (resolve m.1 dir)])
                 (default [] (static m.2)) stack)
    modules stack.

Definition favicon_file (moduleName dir : string) : string :=
  path_join [resolve moduleName dir; "img"; "favicon.ico"].

(** One turn of the inner loop of [Favicon.register]: [Some h] when the
    handler [h] was mounted and the function returned, [None] when the
    loop goes on (no file there, or something threw inside the [try]). *)
Definition try_favicon (filename : string) : option nat :=
  match lstat_isFile filename with
  | Ok true =>
      match favicon filename with
      | Ok h => Some h
      | Throw _ => None
      end
  | _ => None
  end.

Fixpoint favicon_dirs (moduleName : string) (dirs : list string)
  : option nat :=
  match dirs with
  | [] => None
  | dir :: dirs' =>
      match try_favicon (favicon_file moduleName dir) with
      | Some h => Some h
      | None => favicon_dirs moduleName dirs'
      end
  end.

Fixpoint favicon_modules (modules : list (string * ModuleConfig))
  : option nat :=
  match modules with
  | [] => None
  | m :: modules' =>
      match favicon_dirs m.1 (default [] (static m.2)) with
      | Some h => Some h
      | None => favicon_modules modules'
      end
  end.

(** [Favicon.register] *)
Definition favicon_register (modules : list (string * ModuleConfig))
    (stack : list Mounted) : list Mounted :=
  match favicon_modules modules with
  | Some h => stack ++ [Favicon h]
  | None => stack
  end.

(** ** Vocabulary of the statements *)

(** The directories the static middleware serves, in mounting order. *)
Definition static_dirs (modules : list (string * ModuleConfig))
  : list string :=
  concat (map (λ m, map (resolve m.1) (default [] (static m.2))) modules).

(** The favicon file of a served directory. *)
Definition icon_of (dir : string) : string :=
  path_join [dir; "img"; "favicon.ico"].

End Register.

(** A file system with one icon, and an application of two modules. *)
Definition demo_join (parts : list string) : string := String.concat "/" parts.

Definition demo_lstat (f : string) : Result bool :=
  if String.eqb f "/srv/modules/shop/public/img/favicon.ico" then Ok true
  else if String.eqb f "/var/www/img/favicon.ico" then Ok false
  else Throw "ENOENT".

Definition demo_favicon (f : string) : Result nat := Ok (String.length f).

Definition demo_modules : list (string * ModuleConfig) :=
  [ ("core", {| static := None |});
    ("site", {| static := Some ["/var/www"; "assets"] |});
    ("shop", {| static := Some ["public"] |}) ].

End Assets.

(* ===================================================================== *)
(** * Web sockets of the Express server: re-emitted socket events *)
(* ===================================================================== *)

Module Sockets.

(** Arguments of an event: a string, a socket object, or data that came
    over the wire. *)
Inductive Val : Type :=
| VStr (s : string)
| VSocket (id : string)
| VData (n : nat).

(** The functions this class puts on a socket. [Reemit] is the closure
    that [_getSocketEventHandler] returns; every call of that method makes
    a new function object, told apart by [gen], the number of the call of
    [_installSocketEvent] or of the connection handler that made it
    (neither makes two closures for one event and socket). [Cleanup] is the
    arrow function given to [socket.once('disconnect', ...)]. *)
Inductive Listener : Type :=
| Reemit (gen : nat) (event id : string)
| Cleanup (id : string).

#[global] Instance Listener_eq_dec : EqDecision Listener.
Proof. solve_decision. Defined.

(** ** Node's [EventEmitter], as far as the class relies on it *)

Section Emitter.
Context {L : Type} `{EqDecision L}.

Definition listeners (em : gmap string (list L)) (event : string) : list L :=
  default [] (em !! event).

Definition listenerCount (em : gmap string (list L)) (event : string) : nat :=
  length (listeners em event).

(** [on] appends, [prependListener] puts in front. *)
Definition em_on (event : string) (h : L) (em : gmap string (list L))
  : gmap string (list L) :=
  <[event := listeners em event ++ [h]]> em.

Definition em_prepend (event : string) (h : L) (em : gmap string (list L))
  : gmap string (list L) :=
  <[event := h :: listeners em event]> em.

(** [removeListener] takes out one instance of [h], the last one in the
    list. *)
Fixpoint remove_last (h : L) (l : list L) : list L :=
  match l with
  | [] => []
  | x :: l' =>
      if decide (x = h)
      then (if decide (h ∈ l') then x :: remove_last h l' else l')
      else x :: remove_last h l'
  end.

Definition em_remove (event : string) (h : L) (em : gmap string (list L))
  : gmap string (list L) :=
  <[event := remove_last h (listeners em event)]> em.

Definition em_remove_all (event : string) (em : gmap string (list L))
  : gmap string (list L) :=
  delete event em.

End Emitter.

(** ** The state of the server *)

(** An entry of [this.sockets]: the socket, which is an emitter, and the
    [handlers] map from socket event to the closure installed for it. *)
Record Info := mkInfo {
  socket : gmap string (list Listener);
  handlers : gmap string Listener;
}.

(** [sockets] and [socketEvents] of the class, the listeners of the
    server itself (application functions, named by numbers), the count of
    closure-making calls so far, and the calls application listeners
    received: listener, event and arguments. *)
Record Server := mkServer {
  sockets : gmap string Info;
  socketEvents : list string;
  own : gmap string (list nat);
  generation : nat;
  delivered : list (nat * string * list Val);
}.

(** The server as the constructor leaves it. *)
Definition new : Server :=
  {| sockets := ∅; socketEvents := []; own := ∅; generation := 0;
     delivered := [] |}.

Definition with_own (o : gmap string (list nat)) (srv : Server) : Server :=
  {| sockets := sockets srv; socketEvents := socketEvents srv; own := o;
     generation := generation srv; delivered := delivered srv |}.

Definition with_sockets (m : gmap string Info) (srv : Server) : Server :=
  {| sockets := m; socketEvents := socketEvents srv; own := own srv;
     generation := generation srv; delivered := delivered srv |}.

(** [this.emit(event, ...args)]: the listeners of the event are called in
    order. Application listeners are taken not to call back into the
    server while they run, and the emitter's own [newListener] and
    [removeListener] events are not followed. *)
Definition emit (event : string) (args : list Val) (srv : Server) : Server :=
  {| sockets := sockets srv; socketEvents := socketEvents srv;
     own := own srv; generation := generation srv;
     delivered := delivered srv
                  ++ map (λ h, (h, event, args)) (listeners (own srv) event) |}.

(** [s.split(c)] and the event name behind the prefix:
    [event.split('_').slice(1).join('_')]. *)
Fixpoint split (c : ascii) (s : string) : list string :=
  match s with
  | EmptyString => [EmptyString]
  | String a s' =>
      if Ascii.eqb a c then EmptyString :: split c s'
      else match split c s' with
           | h :: t => String a h :: t
           | [] => [String a EmptyString]
           end
  end.

Definition socket_event (event : string) : string :=
  String.concat "_" (drop 1 (split "_" event)).

(** [Set.prototype.add] and [delete] on a set kept in insertion order. *)
Definition set_add (e : string) (l : list string) : list string :=
  if decide (e ∈ l) then l else l ++ [e].

Definition set_delete (e : string) (l : list string) : list string :=
  filter (λ x, x ≠ e) l.

(** ** The methods *)

Definition _getSocketEventHandler (gen : nat) (event id : string) : Listener :=
  Reemit gen event id.

(** What a listener on a socket does when the socket emits its event
    with [args]: the closure of [_getSocketEventHandler] puts the id in
    front and emits on the server; the disconnect arrow forgets the
    socket. *)
Definition call_listener (l : Listener) (args : list Val) (srv : Server)
  : Server :=
  match l with
  | Reemit _ event id => emit ("socket_" +:+ event) (VStr id :: args) srv
  | Cleanup id => with_sockets (delete id (sockets srv)) srv
  end.

(** The body of the loops that install a closure on one socket. *)
Definition install (gen : nat) (event id : string) (info : Info) : Info :=
  let handler := _getSocketEventHandler gen event id in
  {| socket := em_on event handler (socket info);
     handlers := <[event := handler]> (handlers info) |}.

Definition _installSocketEvent (event : string) (srv : Server) : Server :=
  let socketEvent := socket_event event in
  {| sockets :=
       map_imap (λ id info,
                   Some (if decide (listenerCount (socket info) socketEvent
                                    = 0%nat)
                         then install (generation srv) socketEvent id info
                         else info))
                (sockets srv);
     socketEvents := set_add socketEvent (socketEvents srv);
     own := own srv;
     generation := Datatypes.S (generation srv);
     delivered := delivered srv |}.

Definition uninstall (socketEvent : string) (info : Info) : Info :=
  match handlers info !! socketEvent with
  | None => info
  | Some handler =>
      {| socket := em_remove socketEvent handler (socket info);
         handlers := delete socketEvent (handlers info) |}
  end.

Definition _removeSocketEvent (event : string) (srv : Server) : Server :=
  let socketEvent := socket_event event in
  {| sockets := uninstall socketEvent <$> sockets srv;
     socketEvents := set_delete socketEvent (socketEvents srv);
     own := own srv;
     generation := generation srv;
     delivered := delivered srv |}.

Definition on (event : string) (handler : nat) (srv : Server) : Server :=
  let srv := with_own (em_on event handler (own srv)) srv in
  if String.prefix "socket_" event then _installSocketEvent event srv
  else srv.

Definition prependListener (event : string) (handler : nat) (srv : Server)
  : Server :=
  let srv := with_own (em_prepend event handler (own srv)) srv in
  if String.prefix "socket_" event then _installSocketEvent event srv
  else srv.

Definition removeListener (event : string) (handler : nat) (srv : Server)
  : Server :=
  let srv := with_own (em_remove event handler (own srv)) srv in
  if String.prefix "socket_" event
     && bool_decide (listenerCount (own srv) event = 0%nat)
  then _removeSocketEvent event srv
  else srv.

Definition removeAllListeners (event : string) (srv : Server) : Server :=
  let srv := with_own (em_remove_all event (own srv)) srv in
  if String.prefix "socket_" event then _removeSocketEvent event srv
  else srv.

(** The handler of [io.on('connection', ...)] for a new socket, to which
    [uuid.v1()] gave [id]. *)
Definition connection (id : string) (srv : Server) : Server :=
  let info :=
    fold_left (λ info event, install (generation srv) event id info)
              (socketEvents srv) {| socket := ∅; handlers := ∅ |} in
  let info :=
    {| socket := em_on "disconnect" (Cleanup id) (socket info);
       handlers := handlers info |} in
  emit "socket_connection" [VStr id; VSocket id]
    {| sockets := <[id := info]> (sockets srv);
       socketEvents := socketEvents srv;
       own := own srv;
       generation := Datatypes.S (generation srv);
       delivered := delivered srv |}.

(** The socket [id] emits [event] with [args]: its listeners for the
    event run in order. Only sockets the server keeps are followed. *)
Definition fire (id event : string) (args : list Val) (srv : Server)
  : Server :=
  match sockets srv !! id with
  | Some info =>
      fold_left (λ srv l, call_listener l args srv)
                (listeners (socket info) event) srv
  | None => srv
  end.

(** [this.sockets.clear()] of [stop]. *)
Definition clear (srv : Server) : Server := with_sockets ∅ srv.

(** ** Vocabulary of the statements *)

(** The states the server gets into: listeners come and go, sockets
    connect (each under an id not in use) and emit events, the server
    stops. *)
Inductive reachable : Server → Prop :=
| reach_new : reachable new
| reach_on srv event h : reachable srv → reachable (on event h srv)
| reach_prepend srv event h :
    reachable srv → reachable (prependListener event h srv)
| reach_remove srv event h :
    reachable srv → reachable (removeListener event h srv)
| reach_remove_all srv event :
    reachable srv → reachable (removeAllListeners event srv)
| reach_connection srv id :
    reachable srv → sockets srv !! id = None → reachable (connection id srv)
| reach_fire srv id event args :
    reachable srv → reachable (fire id event args srv)
| reach_clear srv : reachable srv → reachable (clear srv).

(** The listeners a kept socket is meant to have for an event: the
    closure recorded in [handlers], if any, and for [disconnect] the
    arrow that forgets the socket. *)
Definition expected (id : string) (info : Info) (event : string)
  : list Listener :=
  match handlers info !! event with
  | Some h => [h]
  | None => []
  end ++ (if decide (event = "disconnect") then [Cleanup id] else []).

Definition socket_ok (events : list string) (id : string) (info : Info)
  : Prop :=
  (∀ event h, handlers info !! event = Some h →
              event ∈ events ∧ ∃ gen, h = Reemit gen event id) ∧
  (∀ event, listeners (socket info) event = expected id info event) ∧
  (∀ event, event ∈ events → event ≠ "disconnect" →
            is_Some (handlers info !! event)).

Definition inv (srv : Server) : Prop :=
  NoDup (socketEvents srv) ∧
  (∀ e, e ∈ socketEvents srv ↔ listeners (own srv) ("socket_" +:+ e) ≠ []) ∧
  map_Forall (socket_ok (socketEvents srv)) (sockets srv).

(** A server with one listener for [socket_message] and one socket. *)
Definition chatting : Server :=
  connection "s1" (on "socket_message" 7 new).

End Sockets.

(* ===================================================================== *)
(** * Facts about the routes middleware *)
(* ===================================================================== *)

Module RoutesFacts.
Import Routes.

Lemma push_all_app acc rs : push_all acc rs = acc ++ rs.
Proof.
  unfold push_all. revert acc.
  induction rs as [|r rs IH]; intros acc; simpl.
  - by rewrite app_nil_r.
  - rewrite IH, <- app_assoc. done.
Qed.

Lemma collect_from acc modules :
  fold_left
    (λ acc m, match routers m with
              | None => acc
              | Some rs => push_all acc rs
              end) modules acc
  = acc ++ concat (map (λ m, default [] (routers m)) modules).
Proof.
  revert acc. induction modules as [|m ms IH]; intros acc; simpl.
  - by rewrite app_nil_r.
  - rewrite IH. destruct (routers m) as [rs|]; simpl.
    + by rewrite push_all_app, <- app_assoc.
    + done.
Qed.

(** The loops concatenate the modules' routers in module order. *)
Lemma collect_concat modules :
  collect modules = concat (map (λ m, default [] (routers m)) modules).
Proof. unfold collect. by rewrite collect_from. Qed.

Lemma sort_insert_perm x l : sort_insert by_priority_desc x l ≡ₚ x :: l.
Proof.
  induction l as [|y l IH]; simpl; [done|].
  destruct (by_priority_desc x y <=? 0); [done|].
  rewrite IH. apply Permutation_swap.
Qed.

Lemma array_sort_perm l : array_sort by_priority_desc l ≡ₚ l.
Proof.
  induction l as [|x l IH]; simpl; [done|].
  by rewrite sort_insert_perm, IH.
Qed.

Lemma sort_insert_sorted x l :
  StronglySorted desc l → StronglySorted desc (sort_insert by_priority_desc x l).
Proof.
  induction 1 as [|y l Hl IH Hy]; simpl.
  - repeat constructor.
  - destruct (Z.leb_spec (by_priority_desc x y) 0) as [Hle|Hgt];
      unfold by_priority_desc in *.
    + constructor; [by constructor|].
      constructor; [unfold desc; lia|].
      eapply Forall_impl; [exact Hy|]. unfold desc. intros; lia.
    + constructor; [exact IH|].
      rewrite sort_insert_perm. constructor; [unfold desc; lia | exact Hy].
Qed.

Lemma array_sort_sorted l : StronglySorted desc (array_sort by_priority_desc l).
Proof.
  induction l as [|x l IH]; simpl; [constructor|].
  by apply sort_insert_sorted.
Qed.

(** Inserting never moves an element across one of the same priority. *)
Lemma sort_insert_filter p x l :
  filter (has_priority p) (sort_insert by_priority_desc x l)
  = filter (has_priority p) (x :: l).
Proof.
  induction l as [|y l IH]; simpl; [done|].
  destruct (Z.leb_spec (by_priority_desc x y) 0) as [Hle|Hgt]; [done|].
  unfold by_priority_desc in Hgt.
  rewrite filter_cons, IH, !filter_cons.
  unfold has_priority.
  repeat case_decide; try done; lia.
Qed.

Lemma array_sort_filter p l :
  filter (has_priority p) (array_sort by_priority_desc l)
  = filter (has_priority p) l.
Proof.
  induction l as [|x l IH]; simpl; [done|].
  by rewrite sort_insert_filter, !filter_cons, IH.
Qed.

Lemma mount_from rs e :
  stack (fold_left (λ e r, use "/" (router r) e) rs e)
  = stack e ++ map (λ r, ("/", router r)) rs.
Proof.
  revert e. induction rs as [|r rs IH]; intros e; simpl.
  - by rewrite app_nil_r.
  - rewrite IH. simpl. by rewrite <- app_assoc.
Qed.

(** The revision without priorities mounts [server.routers] unchanged. *)
Lemma register_server_routers_stack rs e :
  stack (register_server_routers rs e) = stack e ++ map (λ r, ("/", r)) rs.
Proof.
  unfold register_server_routers. revert e.
  induction rs as [|r rs IH]; intros e; simpl.
  - by rewrite app_nil_r.
  - rewrite IH. simpl. by rewrite <- app_assoc.
Qed.

(** Two descending lists that agree on every priority class are equal:
    the order in which [register] mounts is the only one that is both
    descending and stable, whatever algorithm the engine's [sort] runs. *)
Lemma desc_stable_unique (l1 l2 : list Router) :
  StronglySorted desc l1 → StronglySorted desc l2 →
  (∀ p, filter (has_priority p) l1 = filter (has_priority p) l2) →
  l1 = l2.
Proof.
  intros H1. revert l2.
  induction H1 as [|a l1 Hs1 IH Ha]; intros l2 H2 Hf.
  - destruct l2 as [|b l2]; [done|].
    specialize (Hf (priority b)). rewrite filter_cons in Hf.
    unfold has_priority in Hf at 2. by case_decide.
  - destruct H2 as [|b l2 Hs2 Hb].
    + specialize (Hf (priority a)). rewrite filter_cons in Hf.
      unfold has_priority in Hf at 1. by case_decide.
    + assert (Hab : priority a = priority b).
      { assert (priority b ≤ priority a).
        { assert (Hin : b ∈ filter (has_priority (priority b)) (a :: l1)).
          { rewrite Hf. apply list_elem_of_filter. split; [done|left]. }
          apply list_elem_of_filter in Hin as [_ Hin].
          apply elem_of_cons in Hin as [->|Hin]; [lia|].
          rewrite Forall_forall in Ha. by apply Ha. }
        assert (priority a ≤ priority b).
        { assert (Hin : a ∈ filter (has_priority (priority a)) (b :: l2)).
          { rewrite <- Hf. apply list_elem_of_filter. split; [done|left]. }
          apply list_elem_of_filter in Hin as [_ Hin].
          apply elem_of_cons in Hin as [->|Hin]; [lia|].
          rewrite Forall_forall in Hb. by apply Hb. }
        lia. }
      assert (a = b) as ->.
      { specialize (Hf (priority a)). rewrite !filter_cons in Hf.
        unfold has_priority in Hf at 1 3.
        rewrite decide_True in Hf by done.
        rewrite decide_True in Hf by done. congruence. }
      f_equal. apply IH; [done|]. intros p.
      specialize (Hf p). rewrite !filter_cons in Hf.
      case_decide; congruence.
Qed.

(** C8, as the sources have it. The revision of [register] that reads
    the routers of the loaded modules mounts, behind what is already
    mounted and at the root path, every router that the modules
    contribute (the routers of each module that has a [routers] function,
    module by module), in descending order of priority, routers of equal
    priority keeping their original relative order: the mounted sequence
    is a rearrangement of the contributed one, it is descending, and each
    priority class appears in it exactly as it was contributed. The
    revision that mounts [server.routers] mounts that array in its own
    order. *)
Theorem routes_mounted_by_priority (modules : list AppModule) (e : ExpressApp) :
  let contributed := concat (map (λ m, default [] (routers m)) modules) in
  ∃ order,
    stack (register modules e)
      = stack e ++ map (λ r, ("/", router r)) order ∧
    order ≡ₚ contributed ∧
    StronglySorted desc order ∧
    (∀ p, filter (has_priority p) order
          = filter (has_priority p) contributed) ∧
    (∀ server_routers,
       stack (register_server_routers server_routers e)
       = stack e ++ map (λ r, ("/", r)) server_routers).
Proof.
  cbn zeta. rewrite <-collect_concat.
  exists (array_sort by_priority_desc (collect modules)).
  unfold register. split; [apply mount_from|].
  split; [apply array_sort_perm|].
  split; [apply array_sort_sorted|].
  split; [intros p; apply array_sort_filter|].
  intros rs. apply register_server_routers_stack.
Qed.

(** C8 as stated fails on the revision that mounts [server.routers]:
    routers handed over with priorities 5 and 20, in this order, are
    mounted in this order. *)
Lemma server_routers_mounted_unsorted :
  ¬ (∀ rs e, ∃ order,
       stack (register_server_routers (map router rs) e)
         = stack e ++ map (λ r, ("/", router r)) order ∧
       order ≡ₚ rs ∧
       StronglySorted desc order).
Proof.
  intros H.
  destruct (H [mkRouter 5 1; mkRouter 20 2] {| stack := [] |})
    as (order & Hst & Hperm & Hsorted).
  pose proof (Permutation_length Hperm) as Hlen.
  destruct order as [|a [|b [|c order]]]; try discriminate Hlen.
  cbn in Hst. injection Hst as Ha Hb.
  assert (Hin : a ∈ [mkRouter 5 1; mkRouter 20 2])
    by (rewrite <-Hperm; left).
  assert (Hin' : b ∈ [mkRouter 5 1; mkRouter 20 2])
    by (rewrite <-Hperm; right; left).
  apply elem_of_cons in Hin as [->|Hin].
  - apply elem_of_cons in Hin' as [->|Hin']; [discriminate Hb|].
    apply elem_of_cons in Hin' as [->|Hin']; [|by apply elem_of_nil in Hin'].
    apply StronglySorted_inv in Hsorted as [_ Hall].
    apply Forall_cons in Hall as [Hdesc _]. unfold desc in Hdesc.
    cbn in Hdesc. lia.
  - apply elem_of_cons in Hin as [->|Hin]; [discriminate Ha|].
    by apply elem_of_nil in Hin.
Qed.

(** The scenario of the specification: priorities [5, 20, 5], contributed
    by two modules, are mounted as [20, 5, 5] with the two 5s in their
    original order (handles 1 and 3). *)
Example routes_5_20_5 :
  stack (register
           [ {| routers := Some [mkRouter 5 1; mkRouter 20 2] |};
             {| routers := None |};
             {| routers := Some [mkRouter 5 3] |} ]
           {| stack := [] |})
  = [("/", 2%nat); ("/", 1%nat); ("/", 3%nat)].
Proof. reflexivity. Qed.

(** Any order that is descending and stable is the one [register] uses. *)
Corollary mount_order_unique (modules : list AppModule) (l : list Router) :
  StronglySorted desc l →
  (∀ p, filter (has_priority p) l = filter (has_priority p) (collect modules)) →
  l = mount_order modules.
Proof.
  intros Hs Hf. apply desc_stable_unique; [done|apply array_sort_sorted|].
  intros p. rewrite Hf. unfold mount_order. by rewrite array_sort_filter.
Qed.

End RoutesFacts.

(* ===================================================================== *)
(** * Facts about the server lifecycle *)
(* ===================================================================== *)

Module ExpressFacts.
Import Express.

Lemma fold_await body l (acc : M St unit) st :
  fold_left (λ prev cur, prev;; body cur) l acc st
  = (acc;; each_in_turn body l) st.
Proof.
  revert acc st. induction l as [|cur l IH]; intros acc st; simpl.
  - unfold mbind, M_bind, bind, mret, M_ret, ret.
    destruct (acc st) as [[[]|e] st']; done.
  - rewrite IH.
    unfold mbind, M_bind, bind.
    destruct (acc st) as [[[]|e] st']; done.
Qed.

(** Awaiting the previous promise first makes the reduction sequential. *)
Lemma reduce_await_seq body l st :
  reduce_await body l st = each_in_turn body l st.
Proof. unfold reduce_await. by rewrite fold_await. Qed.

Lemma invoke_eq m cur obj f st :
  invoke m cur obj f st =
  match f (this_name st) with
  | ThrowsSync e =>
      (Throw e, add_events [EvCall m cur (obj_id obj) (this_name st)] st)
  | ReturnsOther =>
      (Throw ("Middleware '" +:+ cur +:+ "' " +:+ method_name m
                +:+ "() did not return a Promise"),
       add_events [EvCall m cur (obj_id obj) (this_name st)] st)
  | ReturnsPromise s =>
      (match s with Resolves => Ok tt | Rejects e => Throw e end,
       add_events (call_events m (this_name st) cur (obj_id obj)) st)
  end.
Proof.
  unfold invoke, this_name, add_events, call_events, emit.
  unfold mbind, M_bind, bind, mret, M_ret, ret, get, modify, throw, set_app.
  simpl. destruct st as [sv a]; simpl.
  destruct (f (default "" (name sv))) as [[|e]| |e]; simpl;
    rewrite <- ?app_assoc; done.
Qed.

Lemma register_one_eq cur st :
  register_one cur st =
  match default ∅ (middleware (app st)) !! cur with
  | Some o => invoke Register cur o (mw_register (obj_class o)) st
  | None =>
      match services (app st) !! cur with
      | None => (Throw ("No service: " +:+ cur), st)
      | Some c =>
          invoke Register cur {| obj_id := next_obj (app st); obj_class := c |}
                 (mw_register c) (cached cur c st)
      end
  end.
Proof.
  unfold register_one, app_get, middleware_set, cached.
  unfold mbind, M_bind, bind, mret, M_ret, ret, get, modify, throw, set_app.
  simpl. destruct st as [sv a]; simpl.
  destruct (default ∅ (middleware a) !! cur) as [o|]; [done|]. cbn.
  destruct (services a !! cur) as [c|]; done.
Qed.

Lemma completed_sequential m server a l :
  sequential m server l (completed m server a l).
Proof.
  induction l as [|cur l IH]; [constructor|].
  unfold completed. rewrite bind_cons. by constructor.
Qed.

Lemma called_app m evs1 evs2 :
  called m (evs1 ++ evs2) = called m evs1 ++ called m evs2.
Proof. unfold called. apply omap_app. Qed.

Lemma called_call_events m server cur o :
  called m (call_events m server cur o) = [cur].
Proof. unfold called, call_events. simpl. by rewrite decide_True. Qed.

Lemma called_completed m server a l : called m (completed m server a l) = l.
Proof.
  induction l as [|cur l IH]; [done|].
  unfold completed in *. rewrite bind_cons, called_app, IH.
  by rewrite called_call_events.
Qed.

Lemma init_eq config n st :
  init config n st =
  if decide (enable (config n) = Some false) then (Ok tt, named n st) else
  match setup (config n) with
  | Throw e => (Throw e, half_created (named n st))
  | Ok _ =>
      match middleware_list (config n) with
      | None => (Ok tt, created (named n st))
      | Some l => each_in_turn register_one l (with_map (created (named n st)))
      end
  end.
Proof.
  unfold init, named, created, with_map, load_middleware_map, cache.
  unfold mbind, M_bind, bind, mret, M_ret, ret, get, modify, call, set_srv,
    set_app.
  destruct st as [sv a]. cbn.
  case_decide; [done|].
  destruct (setup (config n)) as [[]|e]; [|done].
  destruct (middleware_list (config n)) as [l|]; [|done].
  rewrite <- reduce_await_seq.
  destruct a as [svc [mw|] nx rs tr]; done.
Qed.

Lemma stop_eq config n st :
  stop config n st =
  if decide (Some n ≠ name (srv st)) then (Throw (not_initialized n), st) else
  if decide (enable (config n) = Some false) then (Ok tt, st) else
  if negb (server (srv st)) || negb (listening (srv st)) then (Ok tt, st) else
  let st' :=
    set_srv (λ s, {| name := name s; express := express s; server := false;
                     listening := false |}) (add_events [EvClose n] st) in
  match middleware_list (config n), middleware (app st) with
  | Some l, Some _ => each_in_turn unregister_one l st'
  | _, _ => (Ok tt, st')
  end.
Proof.
  unfold stop, emit, add_events.
  unfold mbind, M_bind, bind, mret, M_ret, ret, get, modify, throw, set_srv,
    set_app.
  destruct st as [sv a]. cbn.
  repeat (case_decide; [done|]).
  destruct (negb (server sv) || negb (listening sv)); [done|]. cbn.
  destruct (middleware_list (config n)) as [l|]; [|done].
  destruct (middleware a) as [mw|]; [|done].
  by rewrite <- reduce_await_seq.
Qed.

Lemma start_eq config n st :
  start config n st =
  if decide (Some n ≠ name (srv st)) then (Throw (not_initialized n), st) else
  if decide (enable (config n) = Some false) then (Ok tt, st) else
  if server (srv st) && negb (listening (srv st)) then
    (Ok tt,
     set_srv (λ s, {| name := name s; express := express s; server := server s;
                      listening := true |}) (add_events [EvListen n] st))
  else (Ok tt, st).
Proof.
  unfold start, emit, add_events.
  unfold mbind, M_bind, bind, mret, M_ret, ret, get, modify, throw, set_srv,
    set_app.
  destruct st as [sv a]. cbn.
  repeat (case_decide; [done|]).
  destruct (server sv && negb (listening sv)); done.
Qed.

Lemma invoke_facts m cur obj f st r st' :
  invoke m cur obj f st = (r, st') →
  srv st' = srv st ∧
  services (app st') = services (app st) ∧
  middleware (app st') = middleware (app st) ∧
  next_obj (app st') = next_obj (app st) ∧
  resolved (app st') = resolved (app st) ∧
  ∃ evs, trace (app st') = trace (app st) ++ evs ∧
         step_shape m (this_name st) cur (obj_id obj) r evs ∧
         (r = Ok tt → evs = call_events m (this_name st) cur (obj_id obj)) ∧
         (f (this_name st) = ReturnsPromise Resolves → r = Ok tt).
Proof.
  rewrite invoke_eq. intros H.
  destruct (f (this_name st)) as [[|e]| |e]; inversion H; subst; clear H;
    (repeat split; try done); eexists; (split; [reflexivity|]);
    (repeat split; try done); constructor.
Qed.

Lemma register_one_facts cur st r st' :
  register_one cur st = (r, st') →
  srv st' = srv st ∧
  services (app st') = services (app st) ∧
  (∀ m o, cache (app st) !! m = Some o → cache (app st') !! m = Some o) ∧
  (∀ m, class_of (app st') m = class_of (app st) m) ∧
  ∃ evs, trace (app st') = trace (app st) ++ evs ∧
    ((evs = [] ∧ is_throw r = true ∧ st' = st) ∨
     (∃ o, cache (app st') !! cur = Some o ∧
           step_shape Register (this_name st) cur (obj_id o) r evs ∧
           (r = Ok tt →
            evs = call_events Register (this_name st) cur (obj_id o)))) ∧
    (∀ c, class_of (app st) cur = Some c →
          mw_register c (this_name st) = ReturnsPromise Resolves → r = Ok tt).
Proof.
  rewrite register_one_eq. unfold class_of, cache.
  destruct (default ∅ (middleware (app st)) !! cur) as [o|] eqn:Hc.
  - intros H. apply invoke_facts in H
      as (Hs & Hsv & Hmw & _ & _ & evs & Ht & Hsh & Hok & Hres).
    rewrite Hs, Hsv, Hmw. repeat split; try done.
    exists evs. split; [done|]. split.
    + right. exists o. rewrite Hc. done.
    + intros c [= <-]. done.
  - destruct (services (app st) !! cur) as [c|] eqn:Hsvc.
    + intros H. apply invoke_facts in H
        as (Hs & Hsv & Hmw & _ & _ & evs & Ht & Hsh & Hok & Hres).
      rewrite Hs, Hsv, Hmw. destruct st as [sv a]. cbn in *.
      split; [done|]. split; [done|]. split.
      { intros m o Hm. rewrite lookup_insert_ne; [done|]. congruence. }
      split.
      { intros m. destruct (decide (cur = m)) as [<-|Hne].
        - by rewrite lookup_insert_eq, Hc.
        - by rewrite lookup_insert_ne. }
      exists evs. split; [done|]. split.
      * right. eexists. rewrite lookup_insert_eq. done.
      * intros c' [= <-]. done.
    + intros [= <- <-]. repeat split; try done.
      exists []. rewrite app_nil_r. split; [done|]. split.
      * left. done.
      * intros c [=].
Qed.

Lemma unregister_one_facts cur st r st' :
  unregister_one cur st = (r, st') →
  srv st' = srv st ∧
  services (app st') = services (app st) ∧
  middleware (app st') = middleware (app st) ∧
  next_obj (app st') = next_obj (app st) ∧
  resolved (app st') = resolved (app st) ∧
  ∃ evs, trace (app st') = trace (app st) ++ evs ∧
    match cache (app st) !! cur with
    | None => evs = [] ∧ r = Ok tt
    | Some o =>
        match mw_unregister (obj_class o) with
        | None => evs = [] ∧ r = Ok tt
        | Some f =>
            step_shape Unregister (this_name st) cur (obj_id o) r evs ∧
            (r = Ok tt →
             evs = call_events Unregister (this_name st) cur (obj_id o)) ∧
            (f (this_name st) = ReturnsPromise Resolves → r = Ok tt)
        end
    end.
Proof.
  unfold unregister_one, cache.
  unfold mbind at 1, M_bind, bind at 1, get. cbn.
  destruct (default ∅ (middleware (app st)) !! cur) as [o|].
  - destruct (mw_unregister (obj_class o)) as [f|].
    + intros H. apply invoke_facts in H
        as (Hs & Hsv & Hmw & Hn & Hr & evs & Ht & Hsh & Hok & Hres).
      repeat split; try done. by exists evs.
    + intros [= <- <-]. repeat split; try done.
      exists []. by rewrite app_nil_r.
  - intros [= <- <-]. repeat split; try done.
    exists []. by rewrite app_nil_r.
Qed.

Lemma bind_run {A B} (m : M St A) (k : A → M St B) st :
  (m ≫= k) st =
  match m st with
  | (Ok a, st') => k a st'
  | (Throw e, st') => (Throw e, st')
  end.
Proof. done. Qed.

Lemma registers_chain l st r st' :
  each_in_turn register_one l st = (r, st') →
  srv st' = srv st ∧
  services (app st') = services (app st) ∧
  (∀ m o, cache (app st) !! m = Some o → cache (app st') !! m = Some o) ∧
  (∀ m, class_of (app st') m = class_of (app st) m) ∧
  ∃ evs, trace (app st') = trace (app st) ++ evs ∧
    sequential Register (this_name st) l evs ∧
    (r = Ok tt → evs = completed Register (this_name st) (app st') l) ∧
    (registers_resolve (this_name st) (app st) l → r = Ok tt).
Proof.
  revert st. induction l as [|cur l IH]; intros st.
  - intros [= <- <-]. repeat split; try done.
    exists []. rewrite app_nil_r. repeat split; try done. constructor.
  - cbn [each_in_turn]. rewrite bind_run.
    destruct (register_one cur st) as [r1 st1] eqn:H1.
    apply register_one_facts in H1
      as (Hs1 & Hv1 & Hm1 & Hc1 & evs1 & Ht1 & Hsh1 & Hok1).
    assert (Hn1 : this_name st1 = this_name st)
      by (unfold this_name; by rewrite Hs1).
    destruct r1 as [[]|e].
    + intros H2. apply IH in H2
        as (Hs2 & Hv2 & Hm2 & Hc2 & evs2 & Ht2 & Hsq2 & Hcomp2 & Hok2).
      rewrite Hn1 in *.
      split; [congruence|]. split; [congruence|].
      split; [by auto|]. split; [intros m; by rewrite Hc2|].
      destruct Hsh1 as [(_ & [=] & _) | (o & Ho & Hsh & Hev)].
      specialize (Hev eq_refl). subst evs1.
      exists (call_events Register (this_name st) cur (obj_id o) ++ evs2).
      split; [by rewrite Ht2, Ht1, app_assoc|].
      split; [by constructor|]. split.
      * intros ->. rewrite (Hcomp2 eq_refl). unfold completed.
        rewrite bind_cons. unfold instance_id at 2.
        by rewrite (Hm2 _ _ Ho).
      * intros Hall. apply Hok2. intros m Hm.
        destruct (Hall m) as (c & Hc & Hr); [by right|].
        exists c. by rewrite Hc1.
    + intros [= <- <-].
      repeat split; try done.
      exists evs1. split; [done|]. split; [|split; [done|]].
      * destruct Hsh1 as [(-> & _) | (o & Ho & Hsh & _)]; [constructor|].
        inversion Hsh; subst; [constructor|].
        rewrite <- (app_nil_r (call_events _ _ _ _)).
        constructor. constructor.
      * intros Hall. destruct (Hall cur) as (c & Hc & Hr); [by left|].
        by apply (Hok1 c).
Qed.

Lemma unregisters_chain l st r st' :
  each_in_turn unregister_one l st = (r, st') →
  srv st' = srv st ∧
  services (app st') = services (app st) ∧
  middleware (app st') = middleware (app st) ∧
  next_obj (app st') = next_obj (app st) ∧
  resolved (app st') = resolved (app st) ∧
  ∃ evs, trace (app st') = trace (app st) ++ evs ∧
    sequential Unregister (this_name st)
               (filter (λ m, unregisterable (app st) m) l) evs ∧
    (r = Ok tt →
     evs = completed Unregister (this_name st) (app st)
                     (filter (λ m, unregisterable (app st) m) l)) ∧
    (unregisters_resolve (this_name st) (app st) l → r = Ok tt).
Proof.
  revert st. induction l as [|cur l IH]; intros st.
  - intros [= <- <-]. repeat split; try done.
    exists []. rewrite app_nil_r. repeat split; try done. constructor.
  - cbn [each_in_turn]. rewrite bind_run.
    destruct (unregister_one cur st) as [r1 st1] eqn:H1.
    apply unregister_one_facts in H1
      as (Hs1 & Hv1 & Hm1 & Hn1 & Hr1 & evs1 & Ht1 & Hsh1).
    assert (Hnm : this_name st1 = this_name st)
      by (unfold this_name; by rewrite Hs1).
    assert (Hca : cache (app st1) = cache (app st))
      by (unfold cache; by rewrite Hm1).
    assert (Hun : ∀ m, unregisterable (app st1) m = unregisterable (app st) m)
      by (intros m; unfold unregisterable; by rewrite Hca).
    assert (Hfl : filter (λ m, unregisterable (app st1) m) l
                  = filter (λ m, unregisterable (app st) m) l).
    { apply list_filter_iff. intros m. by rewrite Hun. }
    rewrite filter_cons.
    assert (Hyes : ∀ o f, cache (app st) !! cur = Some o →
                          mw_unregister (obj_class o) = Some f →
                          Is_true (unregisterable (app st) cur)).
    { intros o f Ho Hf. unfold unregisterable. rewrite Ho, Hf.
      by apply bool_decide_pack. }
    assert (Hno1 : cache (app st) !! cur = None →
                   ¬ Is_true (unregisterable (app st) cur)).
    { intros Ho. unfold unregisterable. rewrite Ho. intros []. }
    assert (Hno2 : ∀ o, cache (app st) !! cur = Some o →
                        mw_unregister (obj_class o) = None →
                        ¬ Is_true (unregisterable (app st) cur)).
    { intros o Ho Hf. unfold unregisterable. rewrite Ho, Hf.
      intros ?%bool_decide_unpack%is_Some_None. done. }
    destruct r1 as [[]|e].
    + intros H2. apply IH in H2
        as (Hs2 & Hv2 & Hm2 & Hn2 & Hr2 & evs2 & Ht2 & Hsq2 & Hcomp2 & Hok2).
      rewrite Hnm, Hfl in *.
      do 5 (split; [congruence|]).
      exists (evs1 ++ evs2). split; [by rewrite Ht2, Ht1, app_assoc|].
      assert (Hrest : unregisters_resolve (this_name st) (app st) (cur :: l) →
                      unregisters_resolve (this_name st) (app st1) l).
      { intros Hall m o f Hin Ho Hf. rewrite Hca in Ho.
        eapply Hall; [by right|done..]. }
      assert (Hcm : completed Unregister (this_name st) (app st1)
                      (filter (λ m, unregisterable (app st) m) l)
                    = completed Unregister (this_name st) (app st)
                      (filter (λ m, unregisterable (app st) m) l)).
      { unfold completed, instance_id. by rewrite Hca. }
      destruct (cache (app st) !! cur) as [o|] eqn:Ho.
      * destruct (mw_unregister (obj_class o)) as [f|] eqn:Hf.
        -- destruct Hsh1 as (Hsh & Hev & _). specialize (Hev eq_refl).
           subst evs1. rewrite decide_True by eauto.
           split; [by constructor|]. split; [|by auto].
           intros ->. rewrite (Hcomp2 eq_refl), Hcm. unfold completed at 2.
           rewrite bind_cons. unfold instance_id at 1. by rewrite Ho.
        -- destruct Hsh1 as [-> _]. rewrite decide_False by eauto.
           split; [done|]. split; [|by auto].
           intros ->. by rewrite (Hcomp2 eq_refl), Hcm.
      * destruct Hsh1 as [-> _]. rewrite decide_False by eauto.
        split; [done|]. split; [|by auto].
        intros ->. by rewrite (Hcomp2 eq_refl), Hcm.
    + intros [= <- <-].
      do 5 (split; [done|]).
      exists evs1. split; [done|].
      destruct (cache (app st) !! cur) as [o|] eqn:Ho;
        [destruct (mw_unregister (obj_class o)) as [f|] eqn:Hf|];
        try (by destruct Hsh1 as [_ [=]]).
      destruct Hsh1 as (Hsh & _ & Hres).
      rewrite decide_True by eauto.
      split; [|split; [done|]].
      * inversion Hsh; subst; [constructor|].
        rewrite <- (app_nil_r (call_events _ _ _ _)).
        constructor. constructor.
      * intros Hall. apply Hres. eapply Hall; [by left|done..].
Qed.

Lemma this_name_init n st : this_name (with_map (created (named n st))) = n.
Proof. done. Qed.

Lemma class_of_with_map n st m :
  class_of (app (with_map (created (named n st)))) m = class_of (app st) m.
Proof. destruct st as [sv [svc [mw|] nx rs tr]]; done. Qed.

(** Part of C1 about [init], for any state the server and the container
    may be in. *)
Lemma init_registers_in_order config n mws st :
  middleware_list (config n) = Some mws →
  ∃ evs,
    trace (app (init config n st).2) = trace (app st) ++ evs ∧
    sequential Register n mws evs ∧
    (enable (config n) ≠ Some false →
     setup (config n) = Ok tt →
     registers_resolve n (app st) mws →
     (init config n st).1 = Ok tt ∧
     evs = completed Register n (app (init config n st).2) mws).
Proof.
  intros Hl. rewrite init_eq, Hl.
  case_decide as Hen.
  { exists []. rewrite app_nil_r. repeat split; [constructor|done..]. }
  destruct (setup (config n)) as [[]|e].
  2: { exists []. rewrite app_nil_r. repeat split; [constructor|done..]. }
  destruct (each_in_turn register_one mws (with_map (created (named n st))))
    as [r st'] eqn:Hrun.
  apply registers_chain in Hrun
    as (_ & _ & _ & _ & evs & Ht & Hsq & Hcomp & Hok).
  rewrite this_name_init in *.
  cbn [fst snd]. exists evs. split; [rewrite Ht; by destruct st as [sv []]|].
  split; [done|]. intros _ _ Hall.
  assert (r = Ok tt) as ->.
  { apply Hok. intros cur Hin. destruct (Hall cur Hin) as (c & Hc & Hr).
    exists c. by rewrite class_of_with_map. }
  split; [done|]. by apply Hcomp.
Qed.

(** Part of C1 about [stop]. *)
Lemma stop_unregisters_in_order config n mws st :
  middleware_list (config n) = Some mws →
  ∃ pre evs,
    trace (app (stop config n st).2) = trace (app st) ++ pre ++ evs ∧
    (pre = [] ∨ pre = [EvClose n]) ∧
    sequential Unregister n
               (filter (λ m, unregisterable (app st) m) mws) evs ∧
    (name (srv st) = Some n →
     enable (config n) ≠ Some false →
     server (srv st) = true → listening (srv st) = true →
     unregisters_resolve n (app st) mws →
     (stop config n st).1 = Ok tt ∧
     pre = [EvClose n] ∧
     evs = completed Unregister n (app st)
                     (filter (λ m, unregisterable (app st) m) mws)).
Proof.
  intros Hl. rewrite stop_eq, Hl.
  case_decide as Hnm.
  { exists [], []. rewrite !app_nil_r.
    repeat split; [by left|constructor|congruence..]. }
  case_decide as Hen.
  { exists [], []. rewrite !app_nil_r.
    repeat split; [by left|constructor|done..]. }
  destruct (server (srv st)) eqn:Hsv, (listening (srv st)) eqn:Hli; cbn -[filter];
    try (exists [], []; rewrite !app_nil_r;
         repeat split; [by left|constructor|done..]).
  destruct (middleware (app st)) as [mw|] eqn:Hmw.
  - match goal with
    | |- context [each_in_turn unregister_one mws ?s] =>
        destruct (each_in_turn unregister_one mws s) as [r st'] eqn:Hrun
    end.
    apply unregisters_chain in Hrun
      as (_ & _ & _ & _ & _ & evs & Ht & Hsq & Hcomp & Hok).
    unfold this_name in Hsq, Hcomp, Hok. cbn -[filter] in Hsq, Hcomp, Hok, Ht.
    rewrite <- Hnm in Hsq, Hcomp, Hok. cbn -[filter] in Hsq, Hcomp, Hok.
    assert (Hf : ∀ l : list string,
               filter (λ m, unregisterable
                 {| services := services (app st);
                    middleware := middleware (app st);
                    next_obj := next_obj (app st);
                    resolved := resolved (app st);
                    trace := trace (app st) ++ [EvClose n] |} m) l
               = filter (λ m, unregisterable (app st) m) l).
    { intros l. apply list_filter_iff. intros m. done. }
    rewrite Hf in Hsq, Hcomp.
    exists [EvClose n], evs. cbn -[filter].
    split; [by rewrite Ht, <- app_assoc|].
    split; [by right|]. split; [done|].
    intros _ _ _ _ Hall.
    assert (r = Ok tt) as -> by (apply Hok; exact Hall).
    split; [done|]. split; [done|]. by rewrite (Hcomp eq_refl).
  - exists [EvClose n], []. cbn -[filter].
    split; [done|]. split; [by right|].
    assert (filter (λ m, unregisterable (app st) m) mws = []) as ->.
    { clear Hl. induction mws as [|m l IHl]; [done|].
      rewrite filter_cons, decide_False; [done|].
      unfold unregisterable, cache. rewrite Hmw. cbn.
      rewrite lookup_empty. intros []. }
    split; [constructor|]. done.
Qed.

(** C1. With middleware list [mws] configured for server [n]:
    [init] enters [register] of the identifiers in list order, each only
    after the promise of the previous call has settled, and when every
    [register] resolves it goes through the whole list; [stop] does the
    same with [unregister] over the instances registered before (those in
    the shared map that have the method), in that same list order. *)
Theorem lifecycle_order (config : Config) (n : string) (mws : list string) :
  middleware_list (config n) = Some mws →
  (∀ st, ∃ evs,
     trace (app (init config n st).2) = trace (app st) ++ evs ∧
     sequential Register n mws evs ∧
     (enable (config n) ≠ Some false →
      setup (config n) = Ok tt →
      registers_resolve n (app st) mws →
      (init config n st).1 = Ok tt ∧
      evs = completed Register n (app (init config n st).2) mws)) ∧
  (∀ st, ∃ pre evs,
     trace (app (stop config n st).2) = trace (app st) ++ pre ++ evs ∧
     (pre = [] ∨ pre = [EvClose n]) ∧
     sequential Unregister n
                (filter (λ m, unregisterable (app st) m) mws) evs ∧
     (name (srv st) = Some n →
      enable (config n) ≠ Some false →
      server (srv st) = true → listening (srv st) = true →
      unregisters_resolve n (app st) mws →
      (stop config n st).1 = Ok tt ∧
      pre = [EvClose n] ∧
      evs = completed Unregister n (app st)
                      (filter (λ m, unregisterable (app st) m) mws))).
Proof.
  intros Hl. split; intros st.
  - by apply init_registers_in_order.
  - by apply stop_unregisters_in_order.
Qed.

(** ** One instance per identifier *)

Lemma inv_extend a a' evs :
  singleton_inv a →
  middleware a' = middleware a →
  resolved a' = resolved a →
  trace a' = trace a ++ evs →
  (∀ m o sv, EvCall Register m o sv ∈ evs →
             ∃ obj, cache a !! m = Some obj ∧ obj_id obj = o) →
  singleton_inv a'.
Proof.
  intros (Hnd & Hres & Htr) Hmw Hrs Ht Hev.
  unfold singleton_inv, cache in *. rewrite Hmw, Hrs, Ht.
  split; [done|]. split; [done|].
  intros m o sv [Hin|Hin]%elem_of_app; eauto.
Qed.

Lemma step_shape_calls m server cur o r evs m' x o' sv :
  step_shape m server cur o r evs →
  EvCall m' x o' sv ∈ evs → x = cur ∧ o' = o.
Proof.
  intros Hsh Hin. inversion Hsh; subst; unfold call_events in Hin;
    repeat (apply elem_of_cons in Hin as [Hin|Hin];
            [by inversion Hin|]);
    by apply elem_of_nil in Hin.
Qed.

Lemma sequential_unregister_only server l evs m o sv :
  sequential Unregister server l evs → EvCall Register m o sv ∉ evs.
Proof.
  induction 1 as [l|cur o' l|cur o' l evs Hsq IH]; unfold call_events.
  - apply not_elem_of_nil.
  - intros [=]%list_elem_of_singleton.
  - intros Hin. cbn in Hin.
    repeat (apply elem_of_cons in Hin as [Hin|Hin]; [by inversion Hin|]).
    done.
Qed.

Lemma cached_inv cur c st :
  cache (app st) !! cur = None →
  singleton_inv (app st) →
  singleton_inv (app (cached cur c st)).
Proof.
  intros Hnone (Hnd & Hres & Htr). destruct st as [sv a].
  unfold singleton_inv, cache in *. cbn in *.
  assert (Hfresh : cur ∉ (resolved a).*1).
  { intros ((m & o) & -> & Hin)%list_elem_of_fmap. cbn in *.
    destruct (Hres _ _ Hin) as (obj & Hobj & _). congruence. }
  split; [|split].
  - rewrite fmap_app. apply NoDup_app. split; [done|]. split.
    + intros x Hx [->|[]%elem_of_nil]%elem_of_cons. done.
    + apply NoDup_singleton.
  - intros m o [Hin|Hin]%elem_of_app.
    + destruct (Hres _ _ Hin) as (obj & Hobj & Hid).
      exists obj. split; [|done].
      rewrite lookup_insert_ne; [done|]. congruence.
    + apply list_elem_of_singleton in Hin as [= -> ->].
      eexists. by rewrite lookup_insert_eq.
  - intros m o sv' Hin. destruct (Htr _ _ _ Hin) as (obj & Hobj & Hid).
    exists obj. split; [|done].
    rewrite lookup_insert_ne; [done|]. congruence.
Qed.

Lemma register_one_inv cur st r st' :
  register_one cur st = (r, st') →
  singleton_inv (app st) → singleton_inv (app st').
Proof.
  rewrite register_one_eq.
  destruct (default ∅ (middleware (app st)) !! cur) as [o|] eqn:Hc.
  - intros (_ & _ & Hmw & _ & Hrs & evs & Ht & Hsh & _)%invoke_facts Hinv.
    eapply inv_extend; [done..|].
    intros m o' sv Hin.
    destruct (step_shape_calls _ _ _ _ _ _ _ _ _ _ Hsh Hin) as [-> ->].
    by exists o.
  - destruct (services (app st) !! cur) as [c|].
    + intros (_ & _ & Hmw & _ & Hrs & evs & Ht & Hsh & _)%invoke_facts Hinv.
      eapply inv_extend; [by apply cached_inv|done..|].
      intros m o' sv Hin.
      destruct (step_shape_calls _ _ _ _ _ _ _ _ _ _ Hsh Hin) as [-> ->].
      destruct st as [sv' a]. unfold cache. cbn.
      eexists. by rewrite lookup_insert_eq.
    + by intros [= <- <-].
Qed.

Lemma registers_inv l st r st' :
  each_in_turn register_one l st = (r, st') →
  singleton_inv (app st) → singleton_inv (app st').
Proof.
  revert st. induction l as [|cur l IH]; intros st.
  - by intros [= <- <-].
  - cbn [each_in_turn]. rewrite bind_run.
    destruct (register_one cur st) as [[[]|e] st1] eqn:H1.
    + intros H2 Hinv. eapply IH; [done|]. by eapply register_one_inv.
    + intros [= <- <-] Hinv. by eapply register_one_inv.
Qed.

Lemma inv_set_srv f st : app (set_srv f st) = app st.
Proof. done. Qed.

Lemma init_inv config n st :
  singleton_inv (app st) → singleton_inv (app (init config n st).2).
Proof.
  intros Hinv. rewrite init_eq.
  case_decide; [done|].
  destruct (setup (config n)) as [[]|e]; [|done].
  destruct (middleware_list (config n)) as [l|]; [|done].
  destruct (each_in_turn register_one l (with_map (created (named n st))))
    as [r st'] eqn:Hrun.
  eapply registers_inv; [done|].
  destruct st as [sv [svc [mw|] nx rs tr]]; done.
Qed.

Lemma start_inv config n st :
  singleton_inv (app st) → singleton_inv (app (start config n st).2).
Proof.
  intros Hinv. rewrite start_eq.
  repeat (case_decide; [done|]).
  destruct (server (srv st) && negb (listening (srv st))); [|done].
  eapply (inv_extend _ _ [EvListen n]); [done..|].
  intros m o sv [=]%list_elem_of_singleton.
Qed.

Lemma stop_inv config n st :
  singleton_inv (app st) → singleton_inv (app (stop config n st).2).
Proof.
  intros Hinv. rewrite stop_eq.
  repeat (case_decide; [done|]).
  destruct (negb (server (srv st)) || negb (listening (srv st))); [done|].
  assert (Hclose : singleton_inv (app (add_events [EvClose n] st))).
  { eapply (inv_extend _ _ [EvClose n]); [done..|].
    intros m o sv [=]%list_elem_of_singleton. }
  cbn zeta.
  destruct (middleware_list (config n)) as [l|]; [|done].
  destruct (middleware (app st)) as [mw|] eqn:Hmw; [|done].
  match goal with
  | |- context [each_in_turn unregister_one l ?s] =>
      destruct (each_in_turn unregister_one l s) as [r st'] eqn:Hrun
  end.
  apply unregisters_chain in Hrun
    as (_ & _ & Hm & _ & Hr & evs & Ht & Hsq & _).
  eapply inv_extend; [exact Hclose|done..|].
  intros m o sv Hin.
  by apply (sequential_unregister_only _ _ _ m o sv) in Hsq.
Qed.

Lemma reachable_inv a : reachable a → singleton_inv a.
Proof.
  induction 1 as [svcs mw nx|a config n sv _ IH|a config n sv _ IH
                 |a config n sv _ IH].
  - unfold singleton_inv. cbn. split; [constructor|].
    split; intros; set_solver.
  - by apply (init_inv config n {| srv := sv; app := a |}).
  - by apply (start_inv config n {| srv := sv; app := a |}).
  - by apply (stop_inv config n {| srv := sv; app := a |}).
Qed.

(** An instance, once in the map, is never replaced by a later [init]. *)
Lemma init_keeps_instances config n st m o :
  cache (app st) !! m = Some o →
  cache (app (init config n st).2) !! m = Some o.
Proof.
  intros Hm. rewrite init_eq.
  case_decide; [done|].
  destruct (setup (config n)) as [[]|e]; [|done].
  destruct (middleware_list (config n)) as [l|]; [|done].
  destruct (each_in_turn register_one l (with_map (created (named n st))))
    as [r st'] eqn:Hrun.
  apply registers_chain in Hrun as (_ & _ & Hmono & _).
  apply Hmono. destruct st as [sv [svc [mw|] nx rs tr]]; done.
Qed.

(** What a step, and so a chain, builds: nothing that was built is
    forgotten; an instance is built only for an identifier the map did
    not hold; and an instance that enters the map was built then. *)
Lemma register_one_built cur st r st' :
  register_one cur st = (r, st') →
  (∀ p, p ∈ resolved (app st) → p ∈ resolved (app st')) ∧
  (∀ m o, (m, o) ∈ resolved (app st') →
          (m, o) ∈ resolved (app st) ∨ cache (app st) !! m = None) ∧
  (∀ m obj, cache (app st') !! m = Some obj →
            cache (app st) !! m = Some obj ∨
            (m, obj_id obj) ∈ resolved (app st')).
Proof.
  rewrite register_one_eq. unfold cache.
  destruct (default ∅ (middleware (app st)) !! cur) as [o|] eqn:Hc.
  - intros (_ & _ & Hmw & _ & Hrs & _)%invoke_facts.
    rewrite Hmw, Hrs. by eauto.
  - destruct (services (app st) !! cur) as [c|].
    + intros (_ & _ & Hmw & _ & Hrs & _)%invoke_facts.
      rewrite Hmw, Hrs. destruct st as [sv a]. cbn in *. split; [|split].
      * intros p Hp. apply elem_of_app. by left.
      * intros m o [Hin|Hin]%elem_of_app; [by left|].
        apply list_elem_of_singleton in Hin as [= -> ->]. by right.
      * intros m obj. destruct (decide (m = cur)) as [->|Hne].
        -- rewrite lookup_insert_eq. intros [= <-]. right.
           apply elem_of_app. right. by left.
        -- rewrite lookup_insert_ne by done. by left.
    + intros [= <- <-]. by eauto.
Qed.

Lemma registers_built l st r st' :
  each_in_turn register_one l st = (r, st') →
  (∀ p, p ∈ resolved (app st) → p ∈ resolved (app st')) ∧
  (∀ m o, (m, o) ∈ resolved (app st') →
          (m, o) ∈ resolved (app st) ∨ cache (app st) !! m = None) ∧
  (∀ m obj, cache (app st') !! m = Some obj →
            cache (app st) !! m = Some obj ∨
            (m, obj_id obj) ∈ resolved (app st')).
Proof.
  revert st. induction l as [|cur l IH]; intros st.
  - intros [= <- <-]. by eauto.
  - cbn [each_in_turn]. rewrite bind_run.
    destruct (register_one cur st) as [r1 st1] eqn:H1.
    pose proof (register_one_built _ _ _ _ H1) as (Hm1 & Hr1 & Hc1).
    apply register_one_facts in H1 as (_ & _ & Hmono & _).
    destruct r1 as [[]|e]; [|by intros [= <- <-]].
    intros (Hm2 & Hr2 & Hc2)%IH. split; [by auto|]. split.
    + intros m o Hin. destruct (Hr2 _ _ Hin) as [Hin1|Hnone]; [by auto|].
      right. destruct (cache (app st) !! m) as [x|] eqn:Hx; [|done].
      by rewrite (Hmono _ _ Hx) in Hnone.
    + intros m obj Hin. destruct (Hc2 _ _ Hin) as [Hin1|?]; [|by auto].
      destruct (Hc1 _ _ Hin1) as [?|?]; by auto.
Qed.

Lemma registers_cached l st st' :
  each_in_turn register_one l st = (Ok tt, st') →
  ∀ m, m ∈ l → is_Some (cache (app st') !! m).
Proof.
  revert st. induction l as [|cur l IH]; intros st Hrun m Hin.
  - by apply elem_of_nil in Hin.
  - cbn [each_in_turn] in Hrun. rewrite bind_run in Hrun.
    destruct (register_one cur st) as [[[]|e] st1] eqn:H1; [|done].
    apply elem_of_cons in Hin as [->|Hin]; [|by eapply IH].
    apply register_one_facts in H1 as (_ & _ & _ & _ & evs & _ & Hsh & _).
    destruct Hsh as [(_ & [=] & _)|(o & Ho & _)].
    apply registers_chain in Hrun as (_ & _ & Hmono & _).
    rewrite (Hmono _ _ Ho). by eexists.
Qed.

(** C9. In every state that the container can reach through [init]s (and
    [start]s and [stop]s) of any servers: an identifier has been resolved
    by the container at most once; the instance built then is the one
    stored under the identifier in the shared map; and all [register]
    calls for one identifier, whichever [init] of whichever server made
    them, received the same instance, which is the stored one. And every
    [init], of any server, that runs to its end from such a state does
    this for each identifier of its list: afterwards the map holds an
    instance under the identifier, and the [register] calls this [init]
    made for it went to that instance, with this server. If the map
    already held an instance, it is that very instance and nothing new was
    built for the identifier; if not, the container resolved the
    identifier now, for the first and only time, from the class registered
    under that name, and the instance was stored. *)
Theorem middleware_singletons (a : App) :
  reachable a →
  NoDup (resolved a).*1 ∧
  (∀ m o, (m, o) ∈ resolved a →
          ∃ obj, cache a !! m = Some obj ∧ obj_id obj = o) ∧
  (∀ m o sv, EvCall Register m o sv ∈ trace a →
             ∃ obj, cache a !! m = Some obj ∧ obj_id obj = o) ∧
  (∀ m o1 o2 sv1 sv2,
     EvCall Register m o1 sv1 ∈ trace a →
     EvCall Register m o2 sv2 ∈ trace a → o1 = o2) ∧
  (∀ config n sv l cur,
     middleware_list (config n) = Some l →
     enable (config n) ≠ Some false →
     (init config n {| srv := sv; app := a |}).1 = Ok tt →
     cur ∈ l →
     let a' := app (init config n {| srv := sv; app := a |}).2 in
     ∃ obj evs,
       cache a' !! cur = Some obj ∧
       trace a' = trace a ++ evs ∧
       EvCall Register cur (obj_id obj) n ∈ evs ∧
       (∀ o sv', EvCall Register cur o sv' ∈ evs →
                 o = obj_id obj ∧ sv' = n) ∧
       (∀ o', (cur, o') ∈ resolved a' → o' = obj_id obj) ∧
       (∀ o, cache a !! cur = Some o →
             obj = o ∧
             ∀ o', (cur, o') ∈ resolved a' → (cur, o') ∈ resolved a) ∧
       (cache a !! cur = None →
        services a !! cur = Some (obj_class obj) ∧
        (cur, obj_id obj) ∈ resolved a' ∧
        ∀ o', (cur, o') ∉ resolved a)).
Proof.
  intros Hreach. pose proof (reachable_inv a Hreach) as (Hnd & Hres & Htr).
  split; [done|]. split; [done|]. split; [done|]. split.
  { intros m o1 o2 sv1 sv2 H1 H2.
    destruct (Htr _ _ _ H1) as (obj1 & Hc1 & <-).
    destruct (Htr _ _ _ H2) as (obj2 & Hc2 & <-).
    congruence. }
  intros config n sv l cur Hl Hen Hok Hcur. cbn zeta.
  set (st := {| srv := sv; app := a |}) in *.
  pose proof (reachable_inv _ (reach_init a config n sv Hreach))
    as (_ & Hres' & _).
  fold st in Hres'.
  rewrite init_eq, Hl, decide_False in Hok, Hres' |- * by done.
  destruct (setup (config n)) as [[]|e]; [|done].
  destruct (each_in_turn register_one l (with_map (created (named n st))))
    as [r st1] eqn:Hrun.
  cbn [fst snd] in *. subst r.
  pose proof (registers_cached _ _ _ Hrun cur Hcur) as [obj Hobj].
  pose proof (registers_built _ _ _ _ Hrun) as (_ & Hnew & Hbuilt).
  apply registers_chain in Hrun
    as (_ & Hsvc & Hmono & Hcls & evs & Ht & _ & Hcomp & _).
  specialize (Hcomp eq_refl). rewrite this_name_init in Hcomp.
  assert (Hcache0 : cache (app (with_map (created (named n st)))) = cache a)
    by (unfold st; destruct a as [svc [mw|] nx rs tr]; done).
  assert (Hres0 : resolved (app (with_map (created (named n st))))
                  = resolved a) by done.
  assert (Htr0 : trace (app (with_map (created (named n st)))) = trace a)
    by done.
  assert (Hid : instance_id (app st1) cur = obj_id obj)
    by (unfold instance_id; by rewrite Hobj).
  exists obj, evs. split; [done|]. split; [by rewrite Ht, Htr0|].
  assert (Hone : ∀ o', (cur, o') ∈ resolved (app st1) → o' = obj_id obj).
  { intros o' Hin. destruct (Hres' _ _ Hin) as (obj' & Hc' & <-).
    congruence. }
  split; [|split; [|split; [done|split]]].
  - rewrite Hcomp. unfold completed. apply list_elem_of_bind.
    exists cur. split; [|done]. rewrite Hid. by left.
  - intros o sv'. rewrite Hcomp. unfold completed.
    intros (m & Hin & Hm)%list_elem_of_bind.
    unfold call_events in Hin.
    apply elem_of_cons in Hin as [Heq|Hin].
    + injection Heq as <- -> ->. by rewrite Hid.
    + apply elem_of_cons in Hin as [Heq|Hin]; [done|].
      by apply elem_of_nil in Hin.
  - intros o Ho. rewrite <-Hcache0 in Ho.
    pose proof (Hmono _ _ Ho) as Ho'. split; [congruence|].
    intros o' Hin. destruct (Hnew _ _ Hin) as [Hin0|Hnone].
    + by rewrite <-Hres0.
    + by rewrite Ho in Hnone.
  - intros Hnone. rewrite <-Hcache0 in Hnone.
    destruct (Hbuilt _ _ Hobj) as [Hold|Hin]; [by rewrite Hnone in Hold|].
    split; [|split; [done|]].
    + pose proof (Hcls cur) as Hc. unfold class_of in Hc.
      rewrite Hobj, Hnone in Hc. rewrite Hc. unfold st.
      by destruct a.
    + intros o' Hin'. destruct (Hres _ _ Hin') as (x & Hx & _).
      rewrite <-Hcache0 in Hx. by rewrite Hnone in Hx.
Qed.

(** ** The whole life of one server *)

Lemma init_ok_state config n mws st :
  middleware_list (config n) = Some mws →
  enable (config n) ≠ Some false →
  setup (config n) = Ok tt →
  registers_resolve n (app st) mws →
  ∃ st1,
    init config n st = (Ok tt, st1) ∧
    srv st1 = {| name := Some n; express := true; server := true;
                 listening := false |} ∧
    (∀ m, class_of (app st1) m = class_of (app st) m) ∧
    (∀ m, m ∈ mws → is_Some (cache (app st1) !! m)) ∧
    trace (app st1) = trace (app st) ++ completed Register n (app st1) mws.
Proof.
  intros Hl Hen Hsetup Hall. rewrite init_eq, Hl, Hsetup.
  rewrite decide_False by done.
  destruct (each_in_turn register_one mws (with_map (created (named n st))))
    as [r st1] eqn:Hrun.
  pose proof Hrun as Hrun'.
  apply registers_chain in Hrun
    as (Hs & _ & _ & Hc & evs & Ht & _ & Hcomp & Hok).
  rewrite this_name_init in *.
  assert (r = Ok tt) as ->.
  { apply Hok. intros cur Hin. destruct (Hall cur Hin) as (c & Hc' & Hr).
    exists c. by rewrite class_of_with_map. }
  exists st1. split; [done|]. split; [by rewrite Hs|].
  split; [intros m; by rewrite Hc, class_of_with_map|].
  split; [by eapply registers_cached|].
  rewrite Ht, (Hcomp eq_refl). by destruct st as [sv []].
Qed.

(** [init], [start], [stop] in a row, when every promise resolves: the
    identifiers are registered in list order, the server listens, is
    closed, and the identifiers whose class has [unregister] are
    unregistered in list order, on the very instances registered. *)
Lemma init_start_stop config n mws st :
  middleware_list (config n) = Some mws →
  enable (config n) ≠ Some false →
  setup (config n) = Ok tt →
  registers_resolve n (app st) mws →
  (∀ cur c f, cur ∈ mws → class_of (app st) cur = Some c →
              mw_unregister c = Some f → f n = ReturnsPromise Resolves) →
  ∃ st3,
    (init config n;; start config n;; stop config n) st = (Ok tt, st3) ∧
    trace (app st3)
    = trace (app st)
      ++ completed Register n (app st3) mws
      ++ [EvListen n; EvClose n]
      ++ completed Unregister n (app st3)
                   (filter (λ m, has_unregister (app st) m) mws).
Proof.
  intros Hl Hen Hsetup Hreg Hunreg.
  destruct (init_ok_state _ _ _ _ Hl Hen Hsetup Hreg)
    as (st1 & Hinit & Hsrv1 & Hcls1 & Hcached1 & Ht1).
  rewrite bind_run, Hinit, bind_run, start_eq, Hsrv1.
  rewrite decide_False by (intros Hne; by apply Hne).
  rewrite decide_False by done. cbn [server listening negb andb].
  set (st2 := set_srv _ (add_events [EvListen n] st1)).
  assert (Hcache2 : cache (app st2) = cache (app st1)) by done.
  assert (Hun : ∀ l : list string,
             (∀ m, m ∈ l → m ∈ mws) →
             filter (λ m, unregisterable (app st2) m) l
             = filter (λ m, has_unregister (app st) m) l).
  { intros l Hsub. induction l as [|m l IHl]; [done|].
    rewrite !filter_cons, IHl by (intros; apply Hsub; by right).
    assert (unregisterable (app st2) m = has_unregister (app st) m) as ->;
      [|done].
    unfold unregisterable, has_unregister. rewrite Hcache2, <- Hcls1.
    unfold class_of.
    destruct (Hcached1 m) as [o ->]; [apply Hsub; by left|]. done. }
  destruct (stop_unregisters_in_order config n mws st2 Hl)
    as (pre & evs & Ht3 & _ & _ & Hok).
  assert (Hsrv2 : srv st2 = {| name := Some n; express := true;
                              server := true; listening := true |}).
  { subst st2. cbn. by rewrite Hsrv1. }
  destruct Hok as (Hr3 & -> & ->); [first [done|by rewrite Hsrv2]..| |].
  { intros cur o f Hin Ho Hf. rewrite Hcache2 in Ho.
    eapply Hunreg; [done| |done].
    rewrite <- Hcls1. unfold class_of. by rewrite Ho. }
  destruct (stop config n st2) as [r3 st3] eqn:Hstop.
  cbn [fst snd] in Hr3, Ht3.
  subst r3. exists st3. split; [reflexivity|].
  assert (Hcache3 : cache (app st3) = cache (app st1)).
  { pose proof (stop_eq config n st2) as Heq. rewrite Hstop, Hsrv2 in Heq.
    rewrite decide_False in Heq by (intros Hne; by apply Hne).
    rewrite decide_False in Heq by done. cbn in Heq.
    rewrite Hl in Heq.
    destruct (middleware (app st1)) as [mw|] eqn:Hmw.
    - symmetry in Heq.
      apply unregisters_chain in Heq as (_ & _ & Hm & _).
      unfold cache. rewrite Hm. cbn. by rewrite Hmw.
    - injection Heq as ->. unfold cache. cbn. by rewrite Hmw. }
  rewrite Ht3, Hun by done.
  change (trace (app st2)) with (trace (app st1) ++ [EvListen n]).
  rewrite Ht1.
  assert (Hc : ∀ m' l, completed m' n (app st3) l = completed m' n (app st1) l).
  { intros m' l. unfold completed, instance_id. by rewrite Hcache3. }
  assert (Hc2 : ∀ m' l, completed m' n (app st2) l = completed m' n (app st1) l).
  { intros m' l. unfold completed, instance_id. by rewrite Hcache2. }
  rewrite !Hc, Hc2, <- !app_assoc. done.
Qed.

Example api_lifecycle :
  trace (app ((init api_config "api";; start api_config "api";;
               stop api_config "api") api_state).2)
  = [ EvCall Register "parser" 0 "api"; EvSettled Register "parser" 0 "api";
      EvCall Register "session" 1 "api"; EvSettled Register "session" 1 "api";
      EvCall Register "routes" 2 "api"; EvSettled Register "routes" 2 "api";
      EvListen "api"; EvClose "api";
      EvCall Unregister "parser" 0 "api";
      EvSettled Unregister "parser" 0 "api";
      EvCall Unregister "session" 1 "api";
      EvSettled Unregister "session" 1 "api" ].
Proof. vm_compute. reflexivity. Qed.

Lemma api_registers_resolve : registers_resolve "api" (app api_state) api_list.
Proof.
  intros cur Hin. unfold api_list in Hin.
  repeat (apply elem_of_cons in Hin as [->|Hin];
          [eexists; split; [vm_compute; reflexivity|reflexivity]|]).
  by apply elem_of_nil in Hin.
Defined.

Lemma lifecycle_order_witness :
  middleware_list (api_config "api") = Some api_list ∧
  ∃ evs,
    trace (app (init api_config "api" api_state).2)
      = trace (app api_state) ++ evs ∧
    sequential Register "api" api_list evs ∧
    (init api_config "api" api_state).1 = Ok tt ∧
    evs = completed Register "api"
                    (app (init api_config "api" api_state).2) api_list.
Proof.
  split; [reflexivity|].
  destruct (lifecycle_order api_config "api" api_list eq_refl) as [Hinit _].
  destruct (Hinit api_state) as (evs & Ht & Hsq & Hok).
  exists evs. split; [exact Ht|]. split; [exact Hsq|].
  apply Hok; [discriminate|reflexivity|exact api_registers_resolve].
Defined.

Lemma middleware_singletons_witness :
  let a := app (init api_config "api" api_state).2 in
  reachable a ∧
  ∃ obj,
    cache (app (init api_config "web" {| srv := srv api_state; app := a |}).2)
      !! "session" = Some obj ∧
    obj = {| obj_id := 1; obj_class := resolving |}.
Proof.
  cbn zeta.
  assert (Hr : reachable (app (init api_config "api" api_state).2))
    by apply (reach_init _ api_config "api" (srv api_state)), reach_fresh.
  split; [exact Hr|].
  destruct (middleware_singletons _ Hr) as (_ & _ & _ & _ & Hinit).
  destruct (Hinit api_config "web" (srv api_state) api_list "session")
    as (obj & evs & Hobj & _ & _ & _ & _ & Hsame & _).
  - reflexivity.
  - discriminate.
  - reflexivity.
  - right. left.
  - exists obj. split; [exact Hobj|].
    apply (Hsame {| obj_id := 1; obj_class := resolving |}). reflexivity.
Defined.

(** Two servers sharing the container: the second [init] builds nothing
    and registers the instances the first one built. *)
Example two_servers_share_instances :
  let a := app (init api_config "web" (init api_config "api" api_state).2).2 in
  resolved a = [("parser", 0%nat); ("session", 1%nat); ("routes", 2%nat)] ∧
  omap (λ ev, match ev with
              | EvCall Register mw o sv => Some (mw, o, sv)
              | _ => None
              end) (trace a)
  = [ ("parser", 0%nat, "api"); ("session", 1%nat, "api");
      ("routes", 2%nat, "api"); ("parser", 0%nat, "web");
      ("session", 1%nat, "web"); ("routes", 2%nat, "web") ].
Proof. vm_compute. done. Qed.

End ExpressFacts.

(* ===================================================================== *)
(** * Facts about the session bridge *)
(* ===================================================================== *)

Module ExpressSessionFacts.
Import Model ExpressSession.

Section Bridge.
Context (geoip_lookup : string → option Geo).

Abbreviation create := (ExpressSession.create geoip_lookup).
Abbreviation find := (ExpressSession.find geoip_lookup).
Abbreviation save := (ExpressSession.save geoip_lookup).
Abbreviation _getInfo := (ExpressSession._getInfo geoip_lookup).
Abbreviation created_from := (ExpressSession.created_from geoip_lookup).
Abbreviation refreshed := (ExpressSession.refreshed geoip_lookup).

Lemma create_eq b user req w :
  create b user req w =
  match model_source b with
  | None => (Throw "No model for the bridge", w)
  | Some r =>
      let asked :=
        calls w ++ (if str_truthy (model (cfg b)) then [] else [CGetModel]) in
      match r with
      | Throw e => (Throw e, {| calls := asked; entropy := entropy w |})
      | Ok base =>
          let '(tok, rest) :=
            getRandomString (_util b) (tokenLength b) alphanumeric
                            (entropy w) in
          (Ok (created_from b base tok user req),
           {| calls := asked; entropy := rest |})
      end
  end.
Proof.
  unfold ExpressSession.create, model_source, random_string, repo_call,
    created_from.
  unfold mbind, M_bind, bind, mret, M_ret, ret, get, modify, throw, call.
  destruct (str_truthy (model (cfg b))).
  - cbn. rewrite app_nil_r.
    destruct (get_model (_app b) (default "" (model (cfg b)))) as [base|e];
      [|by destruct w].
    cbn. destruct (getRandomString _ _ _ _) as [tok rest]. cbn.
    destruct w, user as [| |u]; done.
  - destruct (_sessionRepo b) as [repo|]; [|done].
    cbn. destruct (SessionRepo.getModel repo) as [base|e]; [|done].
    cbn. destruct (getRandomString _ _ _ _) as [tok rest]. cbn.
    destruct user as [| |u]; done.
Qed.

(** C5, as the source has it. [create] throws in three cases and in no
    other: neither a model nor a session repository is configured (the
    error is ``No model for the bridge'' and nothing was touched); a
    model is configured and the container throws when asked for it; no
    model is configured and the repository's [getModel] throws. In the
    last two cases the error is the one that was thrown. Otherwise
    [create] returns a session whose token is the string drawn from the
    random source with the configured length and the alphanumeric
    options (so, by the generator's contract, of that length and
    alphanumeric), whose payload is empty, whose info is the snapshot
    computed from the request, whose user is the one given, and whose
    [userId] is the user's id when a user is given. *)
Theorem create_spec (b : t) (user : Nullable User) (req : option Req.t)
    (w : World) :
  let out := create b user req w in
  let drawn :=
    getRandomString (_util b) (tokenLength b) alphanumeric (entropy w) in
  let configured := str_truthy (model (cfg b)) in
  let resolving := get_model (_app b) (default "" (model (cfg b))) in
  (is_throw out.1 = true ↔
     (configured = false ∧ _sessionRepo b = None) ∨
     (configured = true ∧ is_throw resolving = true) ∨
     (configured = false ∧
      ∃ repo, _sessionRepo b = Some repo ∧
              is_throw (SessionRepo.getModel repo) = true)) ∧
  (configured = false → _sessionRepo b = None →
   out = (Throw "No model for the bridge", w)) ∧
  (∀ e, configured = true → resolving = Throw e → out = (Throw e, w)) ∧
  (∀ repo e, configured = false → _sessionRepo b = Some repo →
             SessionRepo.getModel repo = Throw e → out.1 = Throw e) ∧
  (is_throw out.1 = false →
   ∃ s, out.1 = Ok s ∧
        token s = Some drawn.1 ∧
        entropy out.2 = drawn.2 ∧
        (random_string_contract (_util b) →
         String.length drawn.1 = tokenLength b ∧
         all_chars is_alnum drawn.1 = true) ∧
        payload s = Obj ∅ ∧
        info s = Obj (_getInfo b req) ∧
        Model.user s = user ∧
        (∀ u, user = Obj u → userId s = id u)).
Proof.
  cbn zeta. rewrite create_eq. unfold model_source.
  assert (Hdrawn : ∀ tok rest base,
    getRandomString (_util b) (tokenLength b) alphanumeric (entropy w)
      = (tok, rest) →
    ∃ s, Ok (created_from b base tok user req) = Ok s ∧
         token s = Some tok ∧ rest = rest ∧
         (random_string_contract (_util b) →
          String.length tok = tokenLength b ∧
          all_chars is_alnum tok = true) ∧
         payload s = Obj ∅ ∧ info s = Obj (_getInfo b req) ∧
         Model.user s = user ∧ (∀ u, user = Obj u → userId s = id u)).
  { intros tok rest base Hrand. eexists. split; [reflexivity|]. cbn.
    split; [done|]. split; [done|]. split.
    - intros Hc. specialize (Hc (tokenLength b) (entropy w)).
      by rewrite Hrand in Hc.
    - split; [done|]. split; [done|]. split; [done|]. by intros u ->. }
  destruct (str_truthy (model (cfg b))) eqn:Hm.
  - destruct (get_model (_app b) (default "" (model (cfg b)))) as [base|e];
      cbn zeta.
    + destruct (getRandomString _ _ _ _) as [tok rest] eqn:Hrand.
      cbn [fst snd is_throw].
      split; [split; [done|]|].
      { intros [[? _]|[[_ ?]|[? _]]]; done. }
      split; [done|]. split; [done|]. split; [done|].
      intros _. by eapply Hdrawn.
    + cbn [fst snd is_throw].
      split; [split; [by right; left|done]|].
      split; [done|]. split.
      { intros e' _ [= <-]. rewrite app_nil_r. by destruct w. }
      split; [done|]. done.
  - destruct (_sessionRepo b) as [repo|]; cbn.
    + destruct (SessionRepo.getModel repo) as [base|e] eqn:Hget; cbn zeta.
      * destruct (getRandomString _ _ _ _) as [tok rest] eqn:Hrand.
        cbn [fst snd is_throw].
        split; [split; [done|]|].
        { intros [[_ ?]|[[? _]|[_ (repo' & [= <-] & Hthrow)]]]; [done..|].
          by rewrite Hget in Hthrow. }
        split; [done|]. split; [done|]. split.
        { intros repo' e' _ [= <-]. by rewrite Hget. }
        intros _. by eapply Hdrawn.
      * cbn [fst snd is_throw].
        split; [split; [|done]|].
        { intros _. right; right. split; [done|]. exists repo.
          by rewrite Hget. }
        split; [done|]. split; [done|]. split; [|done].
        intros repo' e' _ [= <-]. rewrite Hget. by intros [= <-].
    + split; [split; [by left|done]|].
      split; [done|]. split; [done|]. split; done.
Qed.

Lemma find_eq b tok req w :
  find b tok req w =
  match _sessionRepo b with
  | None => (Ok Null, w)
  | Some repo =>
      let w1 := {| calls := calls w ++ [CFindByToken tok];
                   entropy := entropy w |} in
      match SessionRepo.findByToken repo tok with
      | Throw e => (Throw e, w1)
      | Ok sessions =>
          match first_or_null sessions with
          | Obj s =>
              match atom_truthy (userId s), _userRepo b with
              | true, Some urepo =>
                  let w2 := {| calls := calls w1 ++ [CUserFind (userId s)];
                               entropy := entropy w |} in
                  match UserRepo.find urepo (userId s) with
                  | Throw e => (Throw e, w2)
                  | Ok users =>
                      (Ok (Obj (refreshed b req
                                  (set_user (first_or_null users) s))), w2)
                  end
              | _, _ => (Ok (Obj (refreshed b req s)), w1)
              end
          | _ => (Ok Null, w1)
          end
      end
  end.
Proof.
  unfold ExpressSession.find, repo_call, refreshed.
  unfold mbind, M_bind, bind, mret, M_ret, ret, get, modify, throw, call.
  destruct (_sessionRepo b) as [repo|]; [|done]. cbn.
  destruct (SessionRepo.findByToken repo tok) as [sessions|e]; [|done].
  destruct (first_or_null sessions) as [| |s]; [done..|].
  destruct (atom_truthy (userId s)); [|by destruct req].
  destruct (_userRepo b) as [urepo|]; [|by destruct req]. cbn.
  destruct (UserRepo.find urepo (userId s)) as [users|e]; [|done].
  by destruct req.
Qed.

(** C6. With a session repository configured and [findByToken]
    answering the array [sessions]: when the array is empty, or its
    first entry is [null] or [undefined], [find] returns [null] without
    throwing. When its first entry is the session [s], whose [userId] is
    truthy, and a user repository is configured and answers the array
    [users], [find] returns [s] with the first entry of [users] attached
    as its user, [null] when [users] is empty or starts with [null] or
    [undefined]; with its info replaced by the snapshot computed from the
    request if one was supplied, and left alone otherwise; and with the
    token, payload and [userId] it had. *)
Theorem find_spec (b : t) (repo : SessionRepo.t) (tok : string)
    (req : option Req.t) (w : World)
    (sessions : list (Nullable Session)) :
  _sessionRepo b = Some repo →
  SessionRepo.findByToken repo tok = Ok sessions →
  let out := find b tok req w in
  (sessions = [] → out.1 = Ok Null) ∧
  (∀ rest, sessions = Null :: rest ∨ sessions = Undefined :: rest →
           out.1 = Ok Null) ∧
  (∀ s rest urepo users,
     sessions = Obj s :: rest →
     atom_truthy (userId s) = true →
     _userRepo b = Some urepo →
     UserRepo.find urepo (userId s) = Ok users →
     ∃ s', out.1 = Ok (Obj s') ∧
           (users = [] → Model.user s' = Null) ∧
           (∀ u more, users = Obj u :: more → Model.user s' = Obj u) ∧
           (∀ more, users = Null :: more ∨ users = Undefined :: more →
                    Model.user s' = Null) ∧
           (is_Some req → info s' = Obj (_getInfo b req)) ∧
           (req = None → info s' = info s) ∧
           token s' = token s ∧ payload s' = payload s ∧
           userId s' = userId s).
Proof.
  intros Hrepo Hfind. cbn zeta. rewrite find_eq, Hrepo. cbn zeta.
  rewrite Hfind. split; [by intros ->|]. split.
  - by intros rest [-> | ->].
  - intros s rest urepo users -> Hid Hu Husers.
    cbn [first_or_null or_null truthy]. rewrite Hid, Hu, Husers.
    eexists. split; [reflexivity|]. unfold refreshed.
    assert (Huser : ∀ x : Session,
              Model.user x = first_or_null users →
              (users = [] → Model.user x = Null) ∧
              (∀ u more, users = Obj u :: more → Model.user x = Obj u) ∧
              (∀ more, users = Null :: more ∨ users = Undefined :: more →
                       Model.user x = Null)).
    { intros x ->. split; [by intros ->|]. split.
      - by intros u more ->.
      - by intros more [-> | ->]. }
    destruct req as [r|]; cbn [fst].
    + destruct (Huser (set_info (Obj (_getInfo b (Some r)))
                         (set_user (first_or_null users) s)) eq_refl)
        as (H1 & H2 & H3).
      split; [done|]. split; [done|]. split; [done|].
      split; [done|]. split; [by intros [=]|]. done.
    + destruct (Huser (set_user (first_or_null users) s) eq_refl)
        as (H1 & H2 & H3).
      split; [done|]. split; [done|]. split; [done|].
      split; [by intros [? [=]]|]. done.
Qed.

Lemma save_eq b s req w :
  save b s req w =
  let s' := set_userId (match Model.user s with
                        | Obj u => id u
                        | _ => ANull
                        end) (refreshed b req s) in
  match _sessionRepo b with
  | None => (Ok s', w)
  | Some repo =>
      (match SessionRepo.save repo s' with
       | Ok _ => Ok s'
       | Throw e => Throw e
       end,
       {| calls := calls w ++ [CSave s']; entropy := entropy w |})
  end.
Proof.
  unfold ExpressSession.save, repo_call, refreshed.
  unfold mbind, M_bind, bind, mret, M_ret, ret, get, modify, throw, call.
  destruct (_sessionRepo b) as [repo|]; destruct req; cbn; try done.
  - by destruct (SessionRepo.save repo _) as [[]|].
  - by destruct (SessionRepo.save repo _) as [[]|].
Qed.

(** C10. Without a session repository, [find] answers [null] and
    [save], [destroy] and [expire] return normally; none of them reaches
    any storage operation (the world, log of storage calls included, is
    as before); [save] still sets [userId] from the attached user and
    refreshes the info when a request is given. With a repository that
    has no [deleteExpired], [expire] does nothing either. *)
Theorem no_repository_noop (b : t) (w : World) :
  (_sessionRepo b = None →
   (∀ tok req, find b tok req w = (Ok Null, w)) ∧
   (∀ s req, ∃ s',
      save b s req w = (Ok s', w) ∧
      userId s' = match Model.user s with Obj u => id u | _ => ANull end ∧
      info s' = match req with
                | Some _ => Obj (_getInfo b req)
                | None => info s
                end ∧
      token s' = token s ∧ payload s' = payload s ∧
      Model.user s' = Model.user s) ∧
   (∀ s, destroy b s w = (Ok tt, w)) ∧
   expire b w = (Ok tt, w)) ∧
  (∀ repo, _sessionRepo b = Some repo → SessionRepo.deleteExpired repo = None →
           expire b w = (Ok tt, w)).
Proof.
  split.
  - intros Hnone. split; [|split; [|split]].
    + intros tok req. by rewrite find_eq, Hnone.
    + intros s req. rewrite save_eq, Hnone. cbn zeta.
      eexists. split; [reflexivity|]. unfold refreshed.
      by destruct req.
    + intros s. unfold destroy. by rewrite Hnone.
    + unfold expire. by rewrite Hnone.
  - intros repo Hrepo Hdel. unfold expire. by rewrite Hrepo, Hdel.
Qed.

End Bridge.

(** A bridge is built for the server whose name the container passes,
    and its cookie name is never empty. *)
Lemma constructor_server app config util server b :
  constructor app config util server = Ok b →
  ExpressSession.server b = server ∧
  tokenVar b = "sid_" +:+ server +:+ "_" +:+ project config ∧
  String.eqb (tokenVar b) "" = false.
Proof.
  unfold constructor.
  destruct (resolve_opt _ _) as [srepo|e]; [|done].
  destruct (resolve_opt _ _) as [urepo|e]; [|done].
  by intros [= <-].
Qed.

Example trim_example : trim (" 10.0.0.1" +:+ String "009" " ") = "10.0.0.1".
Proof. reflexivity. Qed.

(** The client address comes from the configured header when it holds
    something after trimming, else from the transport. *)
Example getInfo_example :
  let b := {| server := "api"; _app := demo_app;
              _config := {| project := "demo";
                            session_config := λ _,
                              {| secret_ := None; save_interval := None;
                                 expire_timeout := None;
                                 expire_interval := None;
                                 session_repository := None;
                                 user_repository := None;
                                 ip_header := Some "x-real-ip";
                                 model := None |} |};
              _util := demo_util; _tokenLength := 64;
              _sessionRepo := None; _userRepo := None |} in
  let req h := Some {| Req.cookies := None; Req.headers := h;
                       Req.ip := Some "127.0.0.1";
                       Req.session := Undefined; Req.user := Undefined |} in
  _getInfo no_geoip b (req {[ "x-real-ip" := " 10.0.0.1 ";
                              "user-agent" := "curl/8.0" ]})
  = {| ip := Some "10.0.0.1"; forwarded_for := None;
       user_agent := Some "curl/8.0"; geoip := None |} ∧
  _getInfo no_geoip b (req {[ "x-real-ip" := "   " ]})
  = {| ip := Some "127.0.0.1"; forwarded_for := None;
       user_agent := None; geoip := None |} ∧
  _getInfo no_geoip b None
  = {| ip := None; forwarded_for := None; user_agent := None; geoip := None |}.
Proof. vm_compute. done. Qed.

Example constructor_demo :
  constructor demo_app demo_config demo_util "api" = Ok demo_bridge.
Proof. reflexivity. Qed.

Example tokenVar_demo : tokenVar demo_bridge = "sid_api_demo".
Proof. reflexivity. Qed.

Lemma letters_length n e : String.length (letters n e) = n.
Proof.
  revert e. induction n as [|n IH]; intros e; [done|].
  cbn [letters String.length]. by rewrite IH.
Qed.

Lemma letter_is_alnum k : is_alnum (ascii_of_nat (97 + k `mod` 26)) = true.
Proof.
  pose proof (Nat.mod_upper_bound k 26 ltac:(lia)) as Hlt.
  unfold is_alnum. rewrite nat_ascii_embedding by lia.
  apply orb_true_iff. right. apply andb_true_iff.
  split; apply Nat.leb_le; lia.
Qed.

Lemma letters_alnum n e : all_chars is_alnum (letters n e) = true.
Proof.
  revert e. induction n as [|n IH]; intros e; [done|].
  cbn [letters all_chars]. by rewrite letter_is_alnum, IH.
Qed.

Lemma demo_util_contract : random_string_contract demo_util.
Proof.
  intros n e. cbn. split; [apply letters_length|apply letters_alnum].
Qed.

(** C5 as stated fails: with a model and a session repository both
    configured, [create] still throws when the container cannot resolve
    the model. *)
Lemma create_throws_with_model_and_repository :
  ¬ (∀ b user req w,
       is_throw (create no_geoip b user req w).1 = true ↔
       str_truthy (model (cfg b)) = false ∧ _sessionRepo b = None).
Proof.
  intros H.
  destruct (proj1 (H unresolved_bridge Null None demo_world) eq_refl)
    as [Hmodel _].
  discriminate Hmodel.
Qed.

Lemma create_spec_witness :
  ∃ s, (create no_geoip demo_bridge (Obj alice) None demo_world).1 = Ok s ∧
       userId s = ANum 7 ∧ payload s = Obj ∅ ∧ Model.user s = Obj alice.
Proof.
  destruct (create_spec no_geoip demo_bridge (Obj alice) None demo_world)
    as (_ & _ & _ & _ & Hok).
  destruct (Hok eq_refl) as (s & Hs & _ & _ & _ & Hp & _ & Hu & Hid).
  exists s. split; [exact Hs|]. split; [exact (Hid alice eq_refl)|].
  split; [exact Hp|exact Hu].
Defined.

Lemma find_spec_witness :
  _sessionRepo demo_bridge = Some demo_repo ∧
  SessionRepo.findByToken demo_repo "known" = Ok [Obj stored] ∧
  ∃ s, (find no_geoip demo_bridge "known" None demo_world).1 = Ok (Obj s) ∧
       Model.user s = Obj alice ∧ payload s = payload stored.
Proof.
  split; [reflexivity|]. split; [reflexivity|].
  destruct (find_spec no_geoip demo_bridge demo_repo "known" None demo_world
              [Obj stored] eq_refl eq_refl) as (_ & _ & Hfound).
  destruct (Hfound stored [] demo_users [Obj alice] eq_refl eq_refl eq_refl
              eq_refl) as (s & Hs & _ & Hu & _ & _ & _ & _ & Hp & _).
  exists s. split; [exact Hs|]. split; [exact (Hu alice [] eq_refl)|exact Hp].
Defined.

Lemma no_repository_noop_witness :
  _sessionRepo bare_bridge = None ∧
  expire bare_bridge demo_world = (Ok tt, demo_world).
Proof.
  split; [reflexivity|].
  apply (proj1 (no_repository_noop no_geoip bare_bridge demo_world) eq_refl).
Defined.

Example find_known :
  (find no_geoip demo_bridge "known" None demo_world)
  = (Ok (Obj (set_user (Obj alice) stored)),
     {| calls := [CFindByToken "known"; CUserFind (ANum 7)];
        entropy := [3; 1; 4; 1; 5]%nat |}).
Proof. reflexivity. Qed.

Example create_without_model_or_repository :
  create no_geoip
    {| server := "api"; _app := demo_app;
       _config := {| project := "demo";
                     session_config := λ _,
                       {| secret_ := None; save_interval := None;
                          expire_timeout := None; expire_interval := None;
                          session_repository := None; user_repository := None;
                          ip_header := None; model := None |} |};
       _util := demo_util; _tokenLength := 64;
       _sessionRepo := None; _userRepo := None |}
    Null None demo_world
  = (Throw "No model for the bridge", demo_world).
Proof. reflexivity. Qed.

End ExpressSessionFacts.

(* ===================================================================== *)
(** * Facts about the session middleware *)
(* ===================================================================== *)

Module SessionMwFacts.
Import Model SessionMw.

Section Facts.
Context (svc : SessionService) (name tokenVar : string).

Abbreviation handler_v1 := (SessionMw.handler_v1 svc name tokenVar).
Abbreviation handler_v2 := (SessionMw.handler_v2 svc name tokenVar).
Abbreviation end_v1 := (SessionMw.end_v1 svc name tokenVar).
Abbreviation end_v2 := (SessionMw.end_v2 svc name tokenVar).
Abbreviation token_of := (SessionMw.token_of tokenVar).
Abbreviation bridge_error := (SessionMw.bridge_error svc name tokenVar).
Abbreviation resolution := (SessionMw.resolution svc name tokenVar).
Abbreviation finalize := (SessionMw.finalize svc name tokenVar).
Abbreviation request_contained :=
  (SessionMw.request_contained svc name tokenVar).
Abbreviation finalize_contained :=
  (SessionMw.finalize_contained svc name tokenVar).

Lemma resolve_session_eq c :
  resolve_session svc name tokenVar c
  = ((resolution c).1, with_var (resolution c).2 c).
Proof.
  unfold resolve_session, resolution, token_of, assign_var.
  unfold mbind, M_bind, bind, mret, M_ret, ret, get, modify, call.
  destruct (str_truthy (cookie_token (Req.cookies (req c)) tokenVar)).
  - destruct (decodeJwt svc name _ (req c)) as [s|e]; [|by destruct c].
    cbn. destruct (truthy s); [done|]. cbn.
    by destruct (create svc name Null (req c)).
  - cbn. destruct (truthy (session c)); cbn; [by destruct c|].
    destruct (create svc name Null (req c)); by destruct c.
Qed.

Lemma resolution_throws c e :
  session c = Undefined →
  (resolution c).1 = Throw e ↔ bridge_error c e.
Proof.
  intros Hvar. unfold resolution. rewrite Hvar. split.
  - destruct (str_truthy (token_of c)) eqn:Htok.
    + destruct (decodeJwt svc name _ (req c)) as [s|e'] eqn:Hdec.
      * destruct (truthy s) eqn:Hs; [done|].
        destruct (create svc name Null (req c)) as [s'|e'] eqn:Hcr; [done|].
        intros [= ->]. by eapply create_threw_after_decode.
      * intros [= ->]. by apply decode_threw.
    + cbn. destruct (create svc name Null (req c)) as [s'|e'] eqn:Hcr;
        [done|].
      intros [= ->]. by apply create_threw.
  - intros [e' Htok Hdec|e' Htok Hcr|s e' Htok Hdec Hs Hcr];
      rewrite Htok; cbn; rewrite ?Hdec, ?Hs, ?Hcr; done.
Qed.

Lemma handler_v1_eq c :
  handler_v1 c =
  let c0 := reset_v1 c in
  let c1 := with_var (resolution c0).2 c0 in
  (Ok tt,
   nexted (match (resolution c0).1 with
           | Ok _ => publish_v1 (resolution c0).2 c1
           | Throw e => logged e c1
           end)).
Proof.
  unfold SessionMw.handler_v1, reset_v1, publish_v1.
  unfold assign_session, assign_user, assign_var, logger_error, next.
  unfold mbind at 1 2 3 4, M_bind, bind at 1 2 3 4, modify at 1 2 3. cbn.
  unfold try_catch, mbind at 1, M_bind, bind at 1.
  rewrite resolve_session_eq.
  destruct (resolution _) as [[[]|e] v]; cbn; done.
Qed.

Lemma handler_v2_eq c :
  handler_v2 c =
  let c0 := reset_v2 c in
  let c1 := with_var (resolution c0).2 c0 in
  (Ok tt,
   nexted (match (resolution c0).1 with
           | Ok _ => publish_v2 (resolution c0).2 c1
           | Throw e => logged e c1
           end)).
Proof.
  unfold SessionMw.handler_v2, reset_v2, publish_v2.
  unfold assign_session, assign_user, assign_var, logger_error, next.
  unfold mbind at 1 2 3 4, M_bind, bind at 1 2 3 4, modify at 1 2 3. cbn.
  unfold try_catch, mbind at 1, M_bind, bind at 1.
  rewrite resolve_session_eq.
  destruct (resolution _) as [[[]|e] [| |s]]; cbn; done.
Qed.

Lemma end_v1_eq c :
  end_v1 c =
  (Ok tt,
   ended (match session c with
          | Obj s0 => finalize (λ _ s', isValid name s') true
                               (finalized_v1 c s0) c
          | _ => c
          end)).
Proof.
  unfold SessionMw.end_v1, finalize, finalized_v1.
  unfold assign_var, logger_error, console_log, res_cookie, origEnd.
  unfold mbind at 1 2, M_bind, bind at 1 2, get. cbn.
  destruct (session c) as [| |s0]; [done..|].
  unfold try_catch, mbind, M_bind, bind, modify, call, mret, M_ret, ret.
  cbn. destruct (update svc name _ (req c)) as [[ok|e] s']; cbn; [|done].
  destruct (isValid name s' && negb (String.eqb tokenVar "")); [|done].
  by destruct (encodeJwt svc name s').
Qed.

Lemma end_v2_eq c :
  end_v2 c =
  (Ok tt,
   ended (match session c with
          | Obj s0 => finalize (λ ok _, ok) false (finalized_v2 c s0) c
          | _ => c
          end)).
Proof.
  unfold SessionMw.end_v2, finalize, finalized_v2.
  unfold assign_var, logger_error, console_log, res_cookie, origEnd.
  unfold mbind at 1 2, M_bind, bind at 1 2, get. cbn.
  destruct (session c) as [| |s0]; [done..|].
  unfold try_catch, mbind, M_bind, bind, modify, call, mret, M_ret, ret.
  cbn. destruct (update svc name _ (req c)) as [[ok|e] s']; cbn; [|done].
  destruct (ok && negb (String.eqb tokenVar "")); [|done].
  by destruct (encodeJwt svc name s').
Qed.

(** C2, as the sources have it. After either revision of the handler
    has run, and so before any later handler does, [req.session] and
    [req.user] hold a value other than [undefined], mirrored in
    [res.locals]. When decoding or creation raised an error, the user is
    [null] in both revisions; the session field is [null] in the
    revision with a nullable session and an empty object in the other. *)
Theorem session_fields_initialized (c : Ctx) :
  let c1 := (handler_v1 c).2 in
  let c2 := (handler_v2 c).2 in
  (Req.session (req c1) ≠ Undefined ∧ Req.user (req c1) ≠ Undefined ∧
   locals_session (res c1) = Req.session (req c1) ∧
   locals_user (res c1) = Req.user (req c1) ∧
   (∀ e, bridge_error (reset_v1 c) e →
         Req.session (req c1) = Null ∧ Req.user (req c1) = Null)) ∧
  (Req.session (req c2) ≠ Undefined ∧ Req.user (req c2) ≠ Undefined ∧
   locals_session (res c2) = Req.session (req c2) ∧
   locals_user (res c2) = Req.user (req c2) ∧
   (∀ e, bridge_error (reset_v2 c) e →
         Req.session (req c2) = Obj ∅ ∧ Req.user (req c2) = Null)).
Proof.
  cbn zeta. rewrite handler_v1_eq, handler_v2_eq. cbn zeta. split.
  - assert (Hthrow := resolution_throws (reset_v1 c)).
    destruct (resolution (reset_v1 c)) as [[[]|e] v]; cbn in *.
    + unfold payload_or_null, user_or_null, or_null.
      split; [|split; [|split; [done|split; [done|]]]].
      * destruct v as [| |s]; [done..|]. by destruct (payload s).
      * destruct v as [| |s]; [done..|]. by destruct (user s).
      * intros e' He'. by apply Hthrow in He'.
    + done.
  - assert (Hthrow := resolution_throws (reset_v2 c)).
    destruct (resolution (reset_v2 c)) as [[[]|e] v]; cbn in *.
    + unfold user_or_null, or_null.
      split; [|split; [|split; [|split]]].
      * by destruct v.
      * destruct v as [| |s]; [done..|]. by destruct (user s).
      * by destruct v.
      * by destruct v.
      * intros e' He'. by apply Hthrow in He'.
    + done.
Qed.

Lemma handler_v1_contained c : request_contained handler_v1 reset_v1 c.
Proof.
  unfold request_contained. rewrite handler_v1_eq. cbn zeta.
  split; [done|].
  assert (Hthrow := resolution_throws (reset_v1 c)).
  destruct (resolution (reset_v1 c)) as [[[]|e] v]; cbn in *.
  - split; [done|]. intros e' He'. by apply Hthrow in He'.
  - split; [done|]. intros e' He'. apply Hthrow in He'; [|done]. congruence.
Qed.

Lemma handler_v2_contained c : request_contained handler_v2 reset_v2 c.
Proof.
  unfold request_contained. rewrite handler_v2_eq. cbn zeta.
  split; [done|].
  assert (Hthrow := resolution_throws (reset_v2 c)).
  destruct (resolution (reset_v2 c)) as [[[]|e] v]; cbn in *.
  - split; [by destruct v|]. intros e' He'. by apply Hthrow in He'.
  - split; [done|]. intros e' He'. apply Hthrow in He'; [|done]. congruence.
Qed.

Lemma finalize_facts issue print s c :
  end_calls (res (finalize issue print s c)) = end_calls (res c) ∧
  (∀ s' e, update svc name s (req c) = (Throw e, s') →
           log (finalize issue print s c) = log c ++ [e]) ∧
  (∀ s' ok e, update svc name s (req c) = (Ok ok, s') →
              issue ok s' = true → String.eqb tokenVar "" = false →
              encodeJwt svc name s' = Throw e →
              log (finalize issue print s c) = log c ++ [e]).
Proof.
  unfold finalize.
  destruct (update svc name s (req c)) as [[ok|e] s'] eqn:Hup.
  - split; [|split].
    + destruct (issue ok s' && negb (String.eqb tokenVar "")); [|done].
      by destruct (encodeJwt svc name s'), print.
    + by intros s'' e [=].
    + intros s'' ok' e [= <- <-] -> -> ->. done.
  - split; [done|]. split.
    + by intros s'' e' [= <- <-].
    + by intros s'' ok e' [=].
Qed.

Lemma end_v1_contained c :
  finalize_contained end_v1 finalized_v1 (λ _ s', isValid name s') c.
Proof.
  unfold finalize_contained. rewrite end_v1_eq. split; [done|].
  destruct (session c) as [| |s0]; cbn [fst snd]; [by repeat split..|].
  destruct (finalize_facts (λ _ s', isValid name s') true
              (finalized_v1 c s0) c) as (Hend & Hup & Henc).
  split; [cbn; by rewrite Hend|]. split.
  - intros s1 s' e [= <-]. apply Hup.
  - intros s1 s' ok e [= <-]. apply Henc.
Qed.

Lemma end_v2_contained c :
  finalize_contained end_v2 finalized_v2 (λ ok _, ok) c.
Proof.
  unfold finalize_contained. rewrite end_v2_eq. split; [done|].
  destruct (session c) as [| |s0]; cbn [fst snd]; [by repeat split..|].
  destruct (finalize_facts (λ ok _, ok) false (finalized_v2 c s0) c)
    as (Hend & Hup & Henc).
  split; [cbn; by rewrite Hend|]. split.
  - intros s1 s' e [= <-]. apply Hup.
  - intros s1 s' ok e [= <-]. apply Henc.
Qed.

(** C7. In both revisions the request handler never throws and calls
    [next] once, and the patched [res.end] never throws and applies the
    original [end] once, whatever the session service does; an error
    thrown by token decoding or session creation (in the handler), or by
    the session update or the token encoding (in [res.end]), ends up in
    the logger. *)
Theorem session_errors_contained (c : Ctx) :
  request_contained handler_v1 reset_v1 c ∧
  request_contained handler_v2 reset_v2 c ∧
  finalize_contained end_v1 finalized_v1 (λ _ s', isValid name s') c ∧
  finalize_contained end_v2 finalized_v2 (λ ok _, ok) c.
Proof.
  split; [apply handler_v1_contained|].
  split; [apply handler_v2_contained|].
  split; [apply end_v1_contained|apply end_v2_contained].
Qed.



End Facts.

(** C4. On a server [name] whose bridge is the Express session bridge
    (so the token variable is [sid_<name>_<project>], never empty): when
    the hook finds a session, [update] returns normally leaving session
    [s] with a non-empty payload, and encoding [s] yields [tok], the first
    revision sets exactly one cookie, named [sid_<name>_<project>], with
    value [tok], [maxAge] of one year in milliseconds, path [/] and
    [httpOnly] false. The second revision sets the same cookie when
    [update] resolves to a truthy value. *)
Theorem valid_session_cookie (svc : SessionService) (name : string)
    (b : ExpressSession.t) (c : Ctx) (s0 s : Session) (ok : bool)
    (tok : string) :
  ExpressSession.server b = name →
  session c = Obj s0 →
  encodeJwt svc name s = Ok tok →
  let cookie :=
    {| cookie_name :=
         "sid_" +:+ name +:+ "_" +:+ ExpressSession.project (ExpressSession._config b);
       cookie_value := tok;
       maxAge := 31536000000;
       path := "/";
       httpOnly := false |} in
  (update svc name (finalized_v1 c s0) (req c) = (Ok ok, s) →
   payload_nonempty (payload s) = true →
   isValid name s = true ∧
   cookies_set (res (end_v1 svc name (ExpressSession.tokenVar b) c).2)
   = cookies_set (res c) ++ [cookie]) ∧
  (update svc name (finalized_v2 c s0) (req c) = (Ok true, s) →
   cookies_set (res (end_v2 svc name (ExpressSession.tokenVar b) c).2)
   = cookies_set (res c) ++ [cookie]).
Proof.
  intros <- Hs Henc. cbn zeta.
  rewrite end_v1_eq, end_v2_eq, Hs. cbn [fst snd]. unfold finalize.
  split.
  - intros -> Hp.
    assert (Hv : isValid (ExpressSession.server b) s = true)
      by (unfold isValid; by rewrite Hp).
    split; [done|]. by rewrite Hv, Henc.
  - intros ->. by rewrite Henc.
Qed.

Example returning_request_v1 :
  let c := (handler_v1 working "api" "sid_api_demo" returning).2 in
  Req.session (req c) = Obj {[ "cart" := ANum 3 ]} ∧
  Req.user (req c) = Null ∧
  cookies_set (res (end_v1 working "api" "sid_api_demo" c).2)
  = [session_cookie "sid_api_demo" "jwt:t1"].
Proof. vm_compute. done. Qed.

Example failing_request_v2 :
  let c := (handler_v2 failing "api" "sid_api_demo" arriving).2 in
  Req.session (req c) = Obj ∅ ∧ Req.user (req c) = Null ∧
  log c = ["No model for the bridge"] ∧ next_calls c = 1%nat.
Proof. vm_compute. done. Qed.

(** C2 as stated fails on the revision with a nullable session: when
    creation throws, [req.session] is [null], not an empty object. *)
Lemma session_null_after_failure :
  ¬ (∀ svc name tokenVar c e,
       bridge_error svc name tokenVar (reset_v1 c) e →
       Req.session (req (handler_v1 svc name tokenVar c).2) = Obj ∅ ∧
       Req.user (req (handler_v1 svc name tokenVar c).2) = Null).
Proof.
  intros H.
  destruct (H failing "api" "sid_api_demo" arriving "No model for the bridge")
    as [Hs _].
  - by apply create_threw.
  - vm_compute in Hs. discriminate Hs.
Qed.

Lemma session_fields_initialized_witness :
  bridge_error failing "api" "sid_api_demo" (reset_v1 arriving)
               "No model for the bridge" ∧
  Req.session (req (handler_v1 failing "api" "sid_api_demo" arriving).2) = Null ∧
  Req.session (req (handler_v2 failing "api" "sid_api_demo" arriving).2) = Obj ∅.
Proof.
  assert (H1 : bridge_error failing "api" "sid_api_demo" (reset_v1 arriving)
                 "No model for the bridge")
    by (apply create_threw; reflexivity).
  assert (H2 : bridge_error failing "api" "sid_api_demo" (reset_v2 arriving)
                 "No model for the bridge")
    by (apply create_threw; reflexivity).
  destruct (session_fields_initialized failing "api" "sid_api_demo" arriving)
    as [(_ & _ & _ & _ & Hv1) (_ & _ & _ & _ & Hv2)].
  split; [exact H1|].
  split; [exact (proj1 (Hv1 _ H1))|exact (proj1 (Hv2 _ H2))].
Defined.

Lemma session_errors_contained_witness :
  bridge_error failing "api" "sid_api_demo" (reset_v1 arriving)
               "No model for the bridge" ∧
  log (handler_v1 failing "api" "sid_api_demo" arriving).2
  = log arriving ++ ["No model for the bridge"].
Proof.
  assert (H1 : bridge_error failing "api" "sid_api_demo" (reset_v1 arriving)
                 "No model for the bridge")
    by (apply create_threw; reflexivity).
  split; [exact H1|].
  destruct (session_errors_contained failing "api" "sid_api_demo" arriving)
    as [(_ & _ & Hlog) _].
  exact (Hlog _ H1).
Defined.


Lemma valid_session_cookie_witness :
  ExpressSession.server ExpressSession.demo_bridge = "api" ∧
  cookies_set
    (res (end_v1 working "api"
            (ExpressSession.tokenVar ExpressSession.demo_bridge)
            (with_var (Obj shopper) (reset_v1 arriving))).2)
  = [ {| cookie_name := "sid_api_demo"; cookie_value := "jwt:t1";
         maxAge := 31536000000; path := "/"; httpOnly := false |} ].
Proof.
  split; [reflexivity|].
  destruct (valid_session_cookie working "api" ExpressSession.demo_bridge
              (with_var (Obj shopper) (reset_v1 arriving)) shopper shopper
              true "jwt:t1" eq_refl eq_refl eq_refl) as [H1 _].
  exact (proj2 (H1 eq_refl eq_refl)).
Defined.

End SessionMwFacts.

(* ===================================================================== *)
(** * More facts about the server lifecycle *)
(* ===================================================================== *)

Module ExpressEdgeFacts.
Import Express ExpressEdge ExpressFacts.

Lemma each_in_turn_app body l1 l2 st :
  each_in_turn body (l1 ++ l2) st
  = (each_in_turn body l1;; each_in_turn body l2) st.
Proof.
  revert st. induction l1 as [|cur l1 IH]; intros st; [done|].
  change (each_in_turn body ((cur :: l1) ++ l2))
    with (body cur;; each_in_turn body (l1 ++ l2)).
  change (each_in_turn body (cur :: l1))
    with (body cur;; each_in_turn body l1).
  rewrite !bind_run. destruct (body cur st) as [[[]|e] st1]; [|done].
  rewrite IH. by rewrite bind_run.
Qed.

Lemma invoke_error m cur obj f st :
  (invoke m cur obj f st).1
  = match call_error m cur (f (this_name st)) with
    | None => Ok tt
    | Some e => Throw e
    end.
Proof.
  rewrite invoke_eq. by destruct (f (this_name st)) as [[|e]| |e].
Qed.

(** A step, and so a chain, builds instances only for identifiers it is
    given, and leaves every other entry of the map alone. *)
Lemma register_one_frame cur st r st' :
  register_one cur st = (r, st') →
  (∀ m, m ≠ cur → cache (app st') !! m = cache (app st) !! m) ∧
  (∀ m o, (m, o) ∈ resolved (app st') →
          (m, o) ∈ resolved (app st) ∨ m = cur).
Proof.
  rewrite register_one_eq. unfold cache.
  destruct (default ∅ (middleware (app st)) !! cur) as [o|] eqn:Hc.
  - intros (_ & _ & Hmw & _ & Hrs & _)%invoke_facts.
    rewrite Hmw, Hrs. by eauto.
  - destruct (services (app st) !! cur) as [c|].
    + intros (_ & _ & Hmw & _ & Hrs & _)%invoke_facts.
      rewrite Hmw, Hrs. destruct st as [sv a]. cbn. split.
      * intros m Hne. by rewrite lookup_insert_ne.
      * intros m o [Hin|Hin]%elem_of_app; [by left|].
        apply list_elem_of_singleton in Hin as [= -> ->]. by right.
    + intros [= <- <-]. by eauto.
Qed.

Lemma registers_frame l st r st' :
  each_in_turn register_one l st = (r, st') →
  (∀ m, m ∉ l → cache (app st') !! m = cache (app st) !! m) ∧
  (∀ m o, (m, o) ∈ resolved (app st') →
          (m, o) ∈ resolved (app st) ∨ m ∈ l).
Proof.
  revert st. induction l as [|cur l IH]; intros st.
  - intros [= <- <-]. by eauto.
  - cbn [each_in_turn]. rewrite bind_run.
    destruct (register_one cur st) as [r1 st1] eqn:H1.
    apply register_one_frame in H1 as [Hc1 Hr1].
    assert (Hthis : (∀ m, m ∉ cur :: l →
                          cache (app st1) !! m = cache (app st) !! m) ∧
                    (∀ m o, (m, o) ∈ resolved (app st1) →
                            (m, o) ∈ resolved (app st) ∨ m ∈ cur :: l)).
    { split.
      - intros m Hm. apply Hc1. intros ->. apply Hm. by left.
      - intros m o Hin. destruct (Hr1 _ _ Hin) as [?| ->]; [by left|].
        right. by left. }
    destruct r1 as [[]|e]; [|by intros [= <- <-]].
    intros [Hc2 Hr2]%IH. split.
    + intros m Hm. rewrite Hc2 by (intros ?; apply Hm; by right).
      apply Hc1. intros ->. apply Hm. by left.
    + intros m o Hin. destruct (Hr2 _ _ Hin) as [Hin1|Hin1].
      * destruct (Hr1 _ _ Hin1) as [?| ->]; [by left|]. right. by left.
      * right. by right.
Qed.

(** X1. [init] gives up at the first identifier whose [register] throws,
    rejects or does not return a promise: it rejects with that error (for
    a non-promise, the message naming the identifier), has entered
    [register] for the identifiers up to and including that one and for no
    other, and has built no instance for any identifier it did not
    reach. *)
Theorem init_stops_at_first_failure (config : Config) (n : string) (st : St)
    (pre post : list string) (cur : string) (c : MwClass) (e : Error) :
  middleware_list (config n) = Some (pre ++ cur :: post) →
  enable (config n) ≠ Some false →
  setup (config n) = Ok tt →
  registers_resolve n (app st) pre →
  class_of (app st) cur = Some c →
  call_error Register cur (mw_register c n) = Some e →
  let out := init config n st in
  out.1 = Throw e ∧
  (∃ evs, trace (app out.2) = trace (app st) ++ evs ∧
          called Register evs = pre ++ [cur]) ∧
  (∀ m, m ∉ pre → m ≠ cur →
        cache (app out.2) !! m = cache (app st) !! m) ∧
  (∀ m o, (m, o) ∈ resolved (app out.2) →
          (m, o) ∈ resolved (app st) ∨ m ∈ pre ∨ m = cur).
Proof.
  intros Hl Hen Hsetup Hpre Hcls Herr. cbn zeta.
  rewrite init_eq, Hl, Hsetup, decide_False by done.
  set (st0 := with_map (created (named n st))).
  assert (Hcache0 : cache (app st0) = cache (app st))
    by (destruct st as [sv [svc [mw|] nx rs tr]]; done).
  assert (Hres0 : resolved (app st0) = resolved (app st))
    by (destruct st as [sv []]; done).
  assert (Htr0 : trace (app st0) = trace (app st))
    by (destruct st as [sv []]; done).
  rewrite each_in_turn_app, bind_run.
  destruct (each_in_turn register_one pre st0) as [r1 st1] eqn:H1.
  pose proof (registers_frame _ _ _ _ H1) as [Hc1 Hr1].
  apply registers_chain in H1
    as (Hs1 & _ & _ & Hcl1 & evs1 & Ht1 & _ & Hcomp1 & Hok1).
  assert (r1 = Ok tt) as ->.
  { apply Hok1. intros m Hm. destruct (Hpre m Hm) as (c' & Hc' & Hr').
    exists c'. split; [|done]. unfold st0. by rewrite class_of_with_map. }
  specialize (Hcomp1 eq_refl).
  cbn [each_in_turn]. rewrite bind_run.
  destruct (register_one cur st1) as [r2 st2] eqn:H2.
  pose proof (register_one_frame _ _ _ _ H2) as [Hc2 Hr2].
  assert (Hn1 : this_name st1 = n) by (unfold this_name; by rewrite Hs1).
  assert (Hcls1 : class_of (app st1) cur = Some c)
    by (rewrite Hcl1; unfold st0; by rewrite class_of_with_map).
  assert (Hr2e : r2 = Throw e ∧
                 ∃ evs2, trace (app st2) = trace (app st1) ++ evs2 ∧
                         called Register evs2 = [cur]).
  { rewrite register_one_eq in H2. unfold class_of, cache in Hcls1.
    destruct (default ∅ (middleware (app st1)) !! cur) as [o|] eqn:Ho.
    - injection Hcls1 as <-.
      pose proof (invoke_error Register cur o (mw_register (obj_class o)) st1)
        as Hie.
      rewrite H2, Hn1, Herr in Hie. cbn in Hie. split; [done|].
      apply invoke_facts in H2 as (_ & _ & _ & _ & _ & evs2 & Ht2 & Hsh & _).
      exists evs2. split; [done|].
      inversion Hsh; subst; unfold called, call_events; cbn;
        by rewrite decide_True.
    - rewrite Hcls1 in H2.
      match type of H2 with invoke _ _ ?o _ ?s = _ =>
        pose proof (invoke_error Register cur o (mw_register c) s) as Hie
      end.
      rewrite H2 in Hie. cbn [fst] in Hie.
      replace (this_name (cached cur c st1)) with n in Hie
        by (by rewrite <- Hn1).
      rewrite Herr in Hie. split; [done|].
      apply invoke_facts in H2 as (_ & _ & _ & _ & _ & evs2 & Ht2 & Hsh & _).
      exists evs2. split; [by rewrite Ht2|].
      inversion Hsh; subst; unfold called, call_events; cbn;
        by rewrite decide_True. }
  destruct Hr2e as [-> (evs2 & Ht2 & Hcalled2)]. cbn [fst snd].
  split; [done|]. split; [|split].
  - exists (evs1 ++ evs2). split; [by rewrite Ht2, Ht1, Htr0, app_assoc|].
    rewrite called_app, Hcalled2, Hcomp1. by rewrite called_completed.
  - intros m Hm Hne. by rewrite Hc2, Hc1, Hcache0.
  - intros m o Hin. destruct (Hr2 _ _ Hin) as [Hin1| ->]; [|by auto].
    destruct (Hr1 _ _ Hin1) as [Hin0|?]; [|by auto].
    left. by rewrite <- Hres0.
Qed.

(** The server of the specification, with a [session] middleware whose
    [register] is not [async]. *)
Lemma init_stops_at_first_failure_witness :
  (init api_config "api"
     {| srv := srv api_state;
        app := {| services :=
                    <["session" := {| mw_register := λ _, ReturnsOther;
                                      mw_unregister := None |}]>
                      (services (app api_state));
                  middleware := None; next_obj := 0; resolved := [];
                  trace := [] |} |}).1
  = Throw "Middleware 'session' register() did not return a Promise".
Proof.
  refine (proj1 (init_stops_at_first_failure api_config "api" _
                   ["parser"] ["routes"] "session"
                   {| mw_register := λ _, ReturnsOther; mw_unregister := None |}
                   _ eq_refl _ eq_refl _ _ eq_refl)).
  - discriminate.
  - intros cur Hin. apply list_elem_of_singleton in Hin as ->.
    exists resolving. split; [vm_compute; reflexivity|reflexivity].
  - vm_compute. reflexivity.
Defined.

(** X2. Starting a server twice is starting it once: the second call finds it
    listening (or disabled, or not initialised) and does nothing more. *)
Theorem start_twice (config : Config) (n : string) (st : St) :
  (start config n;; start config n) st = start config n st.
Proof.
  rewrite bind_run, (start_eq config n st).
  case_decide as Hn; [done|].
  assert (Hnn : ¬ Some n ≠ name (srv st)) by (intros Hne; by apply Hne).
  case_decide as Hen.
  { rewrite start_eq, decide_False, decide_True by done. done. }
  destruct (server (srv st)) eqn:Hs, (listening (srv st)) eqn:Hl; cbn;
    rewrite start_eq; cbn; rewrite ?Hs, ?Hl;
    rewrite decide_False, decide_False by done; done.
Qed.

(** X3. [stop] acts only on a listening server. Called right after [init],
    without [start] in between, it closes nothing and unregisters
    nothing: what [init] registered stays registered. Called twice, the
    second call does nothing. *)
Theorem stop_needs_listening (config : Config) (n : string) (st : St) :
  (listening (srv st) = false → (stop config n st).2 = st) ∧
  (init config n;; stop config n) st = init config n st ∧
  (stop config n;; stop config n) st = stop config n st.
Proof.
  assert (Hidle : ∀ st0, listening (srv st0) = false →
                         (stop config n st0).2 = st0 ∧
                         ((stop config n st0).1 = Ok tt ∨
                          (stop config n st0).1 = Throw (not_initialized n))).
  { intros st0 Hl. rewrite stop_eq. case_decide; [by auto|].
    case_decide; [by auto|]. rewrite Hl, orb_true_r. by auto. }
  split; [intros Hl; by apply Hidle|]. split.
  - rewrite bind_run.
    destruct (init config n st) as [[[]|e] st1] eqn:Hinit; [|done].
    rewrite init_eq in Hinit.
    case_decide as Hen.
    { injection Hinit as <-. rewrite stop_eq.
      rewrite decide_False by (intros Hne; by apply Hne).
      by rewrite decide_True. }
    assert (Hl1 : listening (srv st1) = false).
    { destruct (setup (config n)) as [[]|e]; [|done].
      destruct (middleware_list (config n)) as [l|].
      - apply registers_chain in Hinit as (-> & _). done.
      - by injection Hinit as <-. }
    assert (Hn1 : name (srv st1) = Some n).
    { destruct (setup (config n)) as [[]|e]; [|done].
      destruct (middleware_list (config n)) as [l|].
      - apply registers_chain in Hinit as (-> & _). done.
      - by injection Hinit as <-. }
    rewrite stop_eq, Hn1, Hl1, orb_true_r.
    rewrite decide_False by (intros Hne; by apply Hne).
    by rewrite decide_False.
  - rewrite bind_run.
    destruct (stop config n st) as [[[]|e] st1] eqn:Hstop; [|done].
    rewrite stop_eq in Hstop.
    case_decide as Hn; [done|].
    assert (Hnn : ¬ Some n ≠ name (srv st)) by (intros Hne; by apply Hne).
    case_decide as Hen.
    { injection Hstop as <-.
      rewrite stop_eq, decide_False, decide_True by done. done. }
    destruct (negb (server (srv st)) || negb (listening (srv st))) eqn:Hidle0.
    { injection Hstop as <-.
      rewrite stop_eq, decide_False, decide_False, Hidle0 by done. done. }
    cbn zeta in Hstop.
    assert (Hl1 : listening (srv st1) = false ∧ name (srv st1) = name (srv st)).
    { destruct (middleware_list (config n)) as [l|];
        [destruct (middleware (app st)) as [mw|]|].
      - apply unregisters_chain in Hstop as (-> & _). done.
      - by injection Hstop as <-.
      - by injection Hstop as <-. }
    destruct Hl1 as [Hl1 Hn1].
    rewrite stop_eq, Hn1, Hl1, orb_true_r.
    rewrite decide_False, decide_False by done. done.
Qed.

(** X4. Nothing in the lifecycle replaces or drops an instance: an entry of
    the shared map survives every [init], [start] and [stop], of any
    server; [start] and [stop] moreover build nothing. *)
Theorem instances_are_kept (config : Config) (n : string) (st : St)
    (m : string) (o : MwObj) :
  cache (app st) !! m = Some o →
  cache (app (init config n st).2) !! m = Some o ∧
  cache (app (start config n st).2) !! m = Some o ∧
  cache (app (stop config n st).2) !! m = Some o ∧
  resolved (app (start config n st).2) = resolved (app st) ∧
  resolved (app (stop config n st).2) = resolved (app st).
Proof.
  intros Hm. split; [by apply init_keeps_instances|].
  assert (Hstart : cache (app (start config n st).2) = cache (app st) ∧
                   resolved (app (start config n st).2) = resolved (app st)).
  { rewrite start_eq. repeat case_decide; try done.
    by destruct (server (srv st) && negb (listening (srv st))). }
  assert (Hstop : cache (app (stop config n st).2) = cache (app st) ∧
                  resolved (app (stop config n st).2) = resolved (app st)).
  { rewrite stop_eq. repeat case_decide; try done.
    destruct (negb (server (srv st)) || negb (listening (srv st))); [done|].
    cbn zeta.
    destruct (middleware_list (config n)) as [l|]; [|done].
    destruct (middleware (app st)) as [mw|] eqn:Hmw; [|done].
    match goal with
    | |- context [each_in_turn unregister_one l ?s] =>
        destruct (each_in_turn unregister_one l s) as [r st'] eqn:Hrun
    end.
    apply unregisters_chain in Hrun as (_ & _ & Hm' & _ & Hr & _).
    unfold cache. cbn [snd]. by rewrite Hm', Hr. }
  destruct Hstart as [-> ->], Hstop as [-> ->]. done.
Qed.

Lemma instances_are_kept_witness :
  let st := (init api_config "api" api_state).2 in
  cache (app st) !! "session"
    = Some {| obj_id := 1; obj_class := resolving |} ∧
  cache (app (init api_config "web" st).2) !! "session"
    = Some {| obj_id := 1; obj_class := resolving |}.
Proof.
  assert (H : cache (app (init api_config "api" api_state).2) !! "session"
              = Some {| obj_id := 1; obj_class := resolving |})
    by (vm_compute; reflexivity).
  split; [exact H|].
  exact (proj1 (instances_are_kept api_config "web" _ _ _ H)).
Defined.

(** X5. A server with [enable: false] is inert: [init] only records the name,
    and [init], [start], [stop] in a row emit no event, create no server
    and leave the container as it was. *)
Theorem disabled_server_inert (config : Config) (n : string) (st : St) :
  enable (config n) = Some false →
  (init config n;; start config n;; stop config n) st
  = (Ok tt, {| srv := {| name := Some n; express := express (srv st);
                         server := server (srv st);
                         listening := listening (srv st) |};
               app := app st |}).
Proof.
  intros Hen. rewrite bind_run, init_eq, decide_True by done.
  rewrite bind_run, start_eq.
  rewrite decide_False by (intros Hne; by apply Hne).
  rewrite decide_True by done.
  rewrite stop_eq.
  rewrite decide_False by (intros Hne; by apply Hne).
  by rewrite decide_True.
Qed.

Lemma disabled_server_inert_witness :
  enable (disabled_config "api") = Some false ∧
  trace (app ((init disabled_config "api";; start disabled_config "api";;
               stop disabled_config "api") api_state).2) = [].
Proof.
  split; [reflexivity|].
  by rewrite (disabled_server_inert disabled_config "api" api_state eq_refl).
Defined.

(** ** Ports *)

Lemma digit_not_space a : is_digit a = true → ExpressSession.is_space a = false.
Proof.
  unfold is_digit, ExpressSession.is_space. cbn zeta.
  intros [H1 H2]%andb_true_iff.
  apply Nat.leb_le in H1. apply Nat.leb_le in H2.
  apply orb_false_iff. split; [apply orb_false_iff; split|].
  - apply andb_false_iff. right. apply Nat.leb_gt. lia.
  - apply Nat.eqb_neq. lia.
  - apply Nat.eqb_neq. lia.
Qed.

Lemma digits_prefix_uint d rest :
  digits_prefix rest = EmptyString →
  digits_prefix (DecimalString.NilEmpty.string_of_uint d +:+ rest)
  = DecimalString.NilEmpty.string_of_uint d.
Proof.
  intros Hrest. induction d; simpl; by rewrite ?IHd.
Qed.

Lemma decimal_head n :
  ∃ a t, decimal n = String a t ∧ is_digit a = true.
Proof.
  unfold decimal.
  assert (Hnn : N.to_uint n ≠ Decimal.Nil).
  { destruct n as [|p]; [done|].
    apply DecimalPos.Unsigned.to_uint_nonnil. }
  destruct (N.to_uint n); [done|..]; cbn; by eauto.
Qed.

Lemma trim_start_spaces ws s :
  ExpressSession.all_chars ExpressSession.is_space ws = true →
  ExpressSession.trim_start (ws +:+ s) = ExpressSession.trim_start s.
Proof.
  induction ws as [|a ws IH]; [done|].
  cbn [ExpressSession.all_chars]. intros [Ha Hws]%andb_true_iff.
  change (String a ws +:+ s) with (String a (ws +:+ s)).
  cbn [ExpressSession.trim_start]. rewrite Ha. by apply IH.
Qed.

Lemma string_app_empty (s : string) : s +:+ "" = s.
Proof.
  induction s as [|a s IH]; [done|].
  change (String a s +:+ "") with (String a (s +:+ "")). by rewrite IH.
Qed.

Lemma digit_not_sign a :
  is_digit a = true → Ascii.eqb a "-" = false ∧ Ascii.eqb a "+" = false.
Proof.
  intros Ha. split; apply Ascii.eqb_neq; intros ->; by vm_compute in Ha.
Qed.

Lemma read_digits_decimal n rest :
  digits_prefix rest = EmptyString →
  read_digits (decimal n +:+ rest) = Some n.
Proof.
  intros Hrest. unfold read_digits, decimal.
  rewrite digits_prefix_uint by done.
  destruct (decimal_head n) as (a & t & Hd & _). unfold decimal in Hd.
  rewrite Hd, <- Hd, DecimalString.NilEmpty.usu. cbn.
  by rewrite DecimalN.Unsigned.of_to.
Qed.

Lemma read_integer_decimal n rest :
  digits_prefix rest = EmptyString →
  read_integer (decimal n +:+ rest) = Some (Z.of_N n).
Proof.
  intros Hrest. unfold read_integer.
  pose proof (read_digits_decimal n rest Hrest) as Hread.
  destruct (decimal_head n) as (a & t & Hd & Ha).
  destruct (digit_not_sign a Ha) as [Hm Hp].
  rewrite Hd in *. change (String a t +:+ rest) with (String a (t +:+ rest)).
  change (String a t +:+ rest) with (String a (t +:+ rest)) in Hread.
  cbn [ExpressSession.trim_start read_sign].
  rewrite (digit_not_space a Ha). cbn [read_sign]. rewrite Hm, Hp, Hread.
  cbn. f_equal. lia.
Qed.

Lemma read_integer_negative n :
  read_integer ("-" +:+ decimal n) = Some (- Z.of_N n).
Proof.
  unfold read_integer.
  pose proof (read_digits_decimal n "" eq_refl) as Hread.
  rewrite string_app_empty in Hread.
  change ("-" +:+ decimal n) with (String "-" (decimal n)).
  cbn [ExpressSession.trim_start].
  change (ExpressSession.is_space "-") with false. cbv iota.
  cbn [read_sign]. change (Ascii.eqb "-" "-") with true. cbv iota.
  rewrite Hread. cbn. f_equal; lia.
Qed.

Lemma exact_spec z : exact z = true ↔ - max_exact ≤ z ≤ max_exact.
Proof. unfold exact. rewrite Z.leb_le. lia. Qed.

(** X6. Within the integers that numbers hold exactly (up to [2^53] in
    magnitude), [_normalizePort] reads a port written in decimal, as a
    number or as a string with white space before it and anything but a
    digit after it, as that number; turns a negative number into
    [false]; hands back unchanged a string that starts with a character
    which is neither white space, a digit nor a sign, such as the path of
    a pipe; and never returns a negative port. *)
Theorem normalizePort_spec :
  (∀ n ws rest,
     Z.of_N n ≤ max_exact →
     ExpressSession.all_chars ExpressSession.is_space ws = true →
     digits_prefix rest = EmptyString →
     _normalizePort (VStr (ws +:+ decimal n +:+ rest))
     = Some (RPort (Z.of_N n))) ∧
  (∀ z, 0 ≤ z ≤ max_exact → _normalizePort (VNum z) = Some (RPort z)) ∧
  (∀ z, - max_exact ≤ z < 0 → _normalizePort (VNum z) = Some RFalse) ∧
  (∀ a s,
     ExpressSession.is_space a = false → is_digit a = false →
     a ≠ "-"%char → a ≠ "+"%char →
     _normalizePort (VStr (String a s)) = Some (RVal (VStr (String a s)))) ∧
  (∀ val port, _normalizePort val = Some (RPort port) →
               0 ≤ port ≤ max_exact).
Proof.
  split; [|split; [|split; [|split]]].
  - intros n ws rest Hn Hws Hrest. unfold _normalizePort, to_string.
    cbn [mbind option_bind].
    assert (Hp : read_integer (ws +:+ decimal n +:+ rest) = Some (Z.of_N n)).
    { pose proof (read_integer_decimal n rest Hrest) as Hd.
      unfold read_integer in *. by rewrite trim_start_spaces. }
    unfold parseInt. rewrite Hp.
    rewrite (proj2 (exact_spec (Z.of_N n))) by (unfold max_exact in *; lia).
    destruct (Z.leb_spec 0 (Z.of_N n)); [done|lia].
  - intros z Hz. unfold _normalizePort, to_string.
    rewrite (proj2 (exact_spec z)) by (unfold max_exact in *; lia).
    cbn [mbind option_bind].
    destruct (Z.ltb_spec z 0); [lia|].
    pose proof (read_integer_decimal (Z.to_N z) "" eq_refl) as Hp.
    rewrite string_app_empty in Hp. unfold parseInt.
    rewrite Hp, Z2N.id by lia.
    rewrite (proj2 (exact_spec z)) by (unfold max_exact in *; lia).
    destruct (Z.leb_spec 0 z); [done|lia].
  - intros z Hz. unfold _normalizePort, to_string.
    rewrite (proj2 (exact_spec z)) by (unfold max_exact in *; lia).
    cbn [mbind option_bind].
    destruct (Z.ltb_spec z 0); [|lia].
    unfold parseInt. rewrite read_integer_negative, Z2N.id by lia.
    rewrite (proj2 (exact_spec (- - z))) by (unfold max_exact in *; lia).
    destruct (Z.leb_spec 0 (- - z)); [lia|done].
  - intros a s Hsp Hdg Hm Hpl.
    unfold _normalizePort, to_string, parseInt, read_integer.
    cbn [mbind option_bind].
    cbn [ExpressSession.trim_start]. rewrite Hsp. cbn [read_sign].
    apply Ascii.eqb_neq in Hm, Hpl. rewrite Hm, Hpl.
    unfold read_digits. cbn [digits_prefix]. by rewrite Hdg.
  - intros val port. unfold _normalizePort.
    destruct (to_string val) as [s|]; [|done]. cbn [mbind option_bind].
    unfold parseInt.
    destruct (read_integer s) as [p|]; [|done].
    destruct (exact p) eqn:Hex; [|by destruct (p <? 0)].
    apply exact_spec in Hex.
    destruct (Z.leb_spec 0 p); [|done]. intros [= <-]. lia.
Qed.

Lemma normalizePort_spec_witness :
  _normalizePort (VStr " 3000/tcp") = Some (RPort 3000) ∧
  _normalizePort (VStr "/run/arpen.sock")
  = Some (RVal (VStr "/run/arpen.sock")).
Proof.
  destruct normalizePort_spec as (Hstr & _ & _ & Hpipe & _).
  split.
  - refine (Hstr 3000%N " " "/tcp" _ eq_refl eq_refl). discriminate.
  - apply Hpipe; [reflexivity|reflexivity|discriminate|discriminate].
Defined.

(** ** Options *)

Lemma replace_first_absent c d s :
  (∀ pre post, s ≠ pre +:+ String c post) → replace_first c d s = s.
Proof.
  induction s as [|a s IH]; [done|]. intros Hno. cbn [replace_first].
  destruct (Ascii.eqb_spec a c) as [->|Hne].
  - by destruct (Hno "" s).
  - f_equal. apply IH. intros pre post ->. by apply (Hno (String a pre) post).
Qed.

Lemma replace_first_present c d pre post :
  (∀ p q, pre ≠ p +:+ String c q) →
  replace_first c d (pre +:+ String c post) = pre +:+ String d post.
Proof.
  induction pre as [|a pre IH]; intros Hno.
  - change ("" +:+ String c post) with (String c post).
    cbn [replace_first]. by rewrite Ascii.eqb_refl.
  - change (String a pre +:+ String c post)
      with (String a (pre +:+ String c post)).
    cbn [replace_first].
    destruct (Ascii.eqb_spec a c) as [->|Hne].
    + by destruct (Hno "" pre).
    + change (String a pre +:+ String d post)
        with (String a (pre +:+ String d post)).
      f_equal. apply IH.
      intros p q ->. by apply (Hno (String a p) q).
Qed.

(** X7. The options loop turns only the first underscore of an option name
    into a space: an option [pre_post], with no underscore in [pre], is
    stored under the setting ["pre post"], with every underscore of [post]
    left in place; a name without underscore is stored under itself. The
    settings of other names are not touched by it. *)
Theorem set_options_first_underscore {V} (pre post : string) (v : V)
    (settings : gmap string V) :
  (∀ p q, pre ≠ p +:+ String "_" q) →
  set_options [(pre +:+ String "_" post, v)] settings
    = <[pre +:+ String " " post := v]> settings ∧
  set_options [(pre, v)] settings = <[pre := v]> settings.
Proof.
  intros Hno. unfold set_options. cbn.
  assert (Hfix : replace_first "_" " " pre = pre)
    by (by apply replace_first_absent).
  split; [|by rewrite Hfix].
  by rewrite replace_first_present.
Qed.

Lemma set_options_first_underscore_witness :
  set_options [("case_sensitive_routing", true)] (∅ : gmap string bool)
  = {[ "case sensitive_routing" := true ]}.
Proof.
  refine (proj1 (set_options_first_underscore "case" "sensitive_routing" true ∅
                   _)).
  intros p q Heq.
  destruct p as [|a1 [|a2 [|a3 [|a4 [|a5 p]]]]]; simplify_eq/=.
Defined.

(** ** The transport *)

Lemma servers_key_ne (name a b : string) :
  a ≠ b → "servers." +:+ name +:+ a ≠ "servers." +:+ name +:+ b.
Proof.
  intros Hne Heq. apply Hne.
  apply (inj (String.app "servers.")) in Heq.
  by apply (inj (String.app name)) in Heq.
Qed.

Lemma server_key_ne (name a b : string) :
  "server." +:+ name +:+ a ≠ "servers." +:+ name +:+ b.
Proof.
  change ("server." +:+ name +:+ a)
    with (String "s" (String "e" (String "r" (String "v" (String "e"
            (String "r" (String "." (name +:+ a)))))))).
  change ("servers." +:+ name +:+ b)
    with (String "s" (String "e" (String "r" (String "v" (String "e"
            (String "r" (String "s" (String "." (name +:+ b))))))))).
  intros [=].
Qed.

Lemma override_other key v get k : k ≠ key → override key v get k = get k.
Proof.
  intros Hne. unfold override. by rewrite (proj2 (String.eqb_neq k key)).
Qed.

(** X29. The CA file of a TLS server is looked up under
    [server.<name>.ssl.ca], not under [servers.<name>.ssl.ca] where the
    key and the certificate are: whatever the configuration holds under
    the latter, [init] creates the same server, and the options carry a
    CA only when the former is set. Without [ssl.enable] the server is a
    plain HTTP one and no file is read. *)
Theorem ca_setting_is_not_read (path_join : list string → string)
    (base_path : string) (config_truthy : string → bool)
    (config_str : string → option string)
    (lockReadBuffer : option string → Result string)
    (first_settled : list Error → Error) (name : string) :
  (∀ v, create_server path_join base_path config_truthy
          (override ("servers." +:+ name +:+ ".ssl.ca") v config_str)
          lockReadBuffer first_settled name
        = create_server path_join base_path config_truthy config_str
            lockReadBuffer first_settled name) ∧
  (∀ o, create_server path_join base_path config_truthy config_str
          lockReadBuffer first_settled name = Ok (Https o) →
        is_Some (tls_ca o) →
        str_truthy (config_str ("server." +:+ name +:+ ".ssl.ca")) = true) ∧
  (config_truthy ("servers." +:+ name +:+ ".ssl.enable") = false →
   create_server path_join base_path config_truthy config_str
     lockReadBuffer first_settled name = Ok Http).
Proof.
  split; [|split].
  - intros v. unfold create_server.
    rewrite !override_other; [done|..].
    + apply server_key_ne.
    + by apply servers_key_ne.
    + by apply servers_key_ne.
  - intros o. unfold create_server.
    destruct (config_truthy _); [|done].
    destruct (config_str ("server." +:+ name +:+ ".ssl.ca")) as [[|a ca]|];
      cbn [under_base str_truthy].
    + destruct (lockReadBuffer _), (lockReadBuffer _); intros [= <-];
        by intros [? [=]].
    + done.
    + destruct (lockReadBuffer _), (lockReadBuffer _); intros [= <-];
        by intros [? [=]].
  - intros Hen. unfold create_server. by rewrite Hen.
Qed.

Example tls_server :
  create_server Assets.demo_join "/srv" tls_truthy tls_settings tls_read
    (λ es, default "" (head es)) "api"
  = Ok (Https {| tls_key := "</srv/certs/api.key>";
                 tls_cert := "</etc/ssl/api.crt>";
                 tls_ca := None |}).
Proof. reflexivity. Qed.

End ExpressEdgeFacts.

(* ===================================================================== *)
(** * More facts about the session bridge *)
(* ===================================================================== *)

Module BridgeEdgeFacts.
Import Model ExpressSession BridgeEdge ExpressSessionFacts.

(** ** Strings *)

Lemma string_app_assoc (s t u : string) : (s +:+ t) +:+ u = s +:+ (t +:+ u).
Proof.
  induction s as [|a s IH]; [done|].
  change (String a ((s +:+ t) +:+ u) = String a (s +:+ (t +:+ u))).
  by rewrite IH.
Qed.

Lemma string_app_nil_r (s : string) : s +:+ "" = s.
Proof.
  induction s as [|a s IH]; [done|].
  change (String a (s +:+ "") = String a s). by rewrite IH.
Qed.

Lemma string_app_length (s t : string) :
  String.length (s +:+ t) = (String.length s + String.length t)%nat.
Proof.
  induction s as [|a s IH]; [done|].
  change (Datatypes.S (String.length (s +:+ t))
          = Datatypes.S (String.length s + String.length t)).
  by rewrite IH.
Qed.

Lemma string_app_inv_tail (s1 s2 t : string) :
  s1 +:+ t = s2 +:+ t → s1 = s2.
Proof.
  revert s2. induction s1 as [|a s1 IH]; intros [|b s2] Heq.
  - done.
  - apply (f_equal String.length) in Heq.
    rewrite !string_app_length in Heq. cbn [String.length] in Heq. lia.
  - apply (f_equal String.length) in Heq.
    rewrite !string_app_length in Heq. cbn [String.length] in Heq. lia.
  - change (String a (s1 +:+ t) = String b (s2 +:+ t)) in Heq.
    injection Heq as -> Heq. f_equal. by apply IH.
Qed.

Lemma rev_app_spec (s t : string) : String.rev_app s t = String.rev s +:+ t.
Proof.
  revert t. induction s as [|a s IH]; intros t; [done|].
  unfold String.rev. cbn [String.rev_app].
  rewrite (IH (String a t)), (IH (String a "")).
  by rewrite string_app_assoc.
Qed.

Lemma rev_cons (a : ascii) (s : string) :
  String.rev (String a s) = String.rev s +:+ String a "".
Proof. unfold String.rev at 1. cbn [String.rev_app]. apply rev_app_spec. Qed.

Lemma rev_snoc (s : string) (a : ascii) :
  String.rev (s +:+ String a "") = String a (String.rev s).
Proof.
  induction s as [|b s IH]; [done|].
  change (String b s +:+ String a "") with (String b (s +:+ String a "")).
  by rewrite !rev_cons, IH.
Qed.

Lemma rev_involutive (s : string) : String.rev (String.rev s) = s.
Proof.
  induction s as [|a s IH]; [done|]. by rewrite rev_cons, rev_snoc, IH.
Qed.

(** ** [trim] *)

Lemma trim_start_no_lead s : no_lead (trim_start s).
Proof.
  induction s as [|a s IH]; [done|]. cbn [trim_start].
  destruct (is_space a) eqn:Ha; [done|].
  by intros b r [= <- <-].
Qed.

Lemma no_lead_trim_start s : no_lead s → trim_start s = s.
Proof.
  destruct s as [|a s]; [done|]. intros Hs. cbn [trim_start].
  by rewrite (Hs a s eq_refl).
Qed.

Lemma trim_start_suffix s : ∃ ws, s = ws +:+ trim_start s.
Proof.
  induction s as [|a s [ws IH]]; [by exists ""|]. cbn [trim_start].
  destruct (is_space a).
  - exists (String a ws).
    change (String a s = String a (ws +:+ trim_start s)). by rewrite <-IH.
  - by exists "".
Qed.

Lemma trim_start_no_trail s : no_trail s → no_trail (trim_start s).
Proof.
  intros Hs r a Heq. destruct (trim_start_suffix s) as [ws Hws].
  apply (Hs (ws +:+ r)). by rewrite string_app_assoc, <-Heq.
Qed.

Lemma rev_no_lead s : no_trail s → no_lead (String.rev s).
Proof.
  intros Hs a r Heq. apply (Hs (String.rev r)).
  by rewrite <-(rev_involutive s), Heq, rev_cons.
Qed.

Lemma rev_no_trail s : no_lead s → no_trail (String.rev s).
Proof.
  intros Hs r a Heq. apply (Hs a (String.rev r)).
  by rewrite <-(rev_involutive s), Heq, rev_snoc.
Qed.

Lemma trim_clean s : no_lead (trim s) ∧ no_trail (trim s).
Proof.
  unfold trim. split.
  - apply rev_no_lead, trim_start_no_trail, rev_no_trail, trim_start_no_lead.
  - apply rev_no_trail, trim_start_no_lead.
Qed.

Lemma trim_fixed s : no_lead s → no_trail s → trim s = s.
Proof.
  intros Hl Ht. unfold trim.
  rewrite (no_lead_trim_start s Hl).
  rewrite (no_lead_trim_start (String.rev s)) by by apply rev_no_lead.
  apply rev_involutive.
Qed.

Lemma trim_idempotent s : trim (trim s) = trim s.
Proof. destruct (trim_clean s). by apply trim_fixed. Qed.

(** ** The cookie name *)

(** X8. Two bridges of one project that serve different servers use
    different cookie names. *)
Theorem tokenVar_distinct_servers (b1 b2 : t) :
  project (_config b1) = project (_config b2) →
  server b1 ≠ server b2 →
  tokenVar b1 ≠ tokenVar b2.
Proof.
  unfold tokenVar. intros -> Hne Heq. apply Hne.
  apply (inj (String.app "sid_")) in Heq.
  by apply string_app_inv_tail in Heq.
Qed.

Lemma tokenVar_distinct_servers_witness :
  tokenVar demo_bridge ≠ tokenVar admin_bridge.
Proof.
  apply (tokenVar_distinct_servers demo_bridge admin_bridge);
    [reflexivity|discriminate].
Defined.

Section Bridge.
Context (geoip_lookup : string → option Geo).

Abbreviation create := (ExpressSession.create geoip_lookup).
Abbreviation find := (ExpressSession.find geoip_lookup).
Abbreviation save := (ExpressSession.save geoip_lookup).
Abbreviation _getInfo := (ExpressSession._getInfo geoip_lookup).
Abbreviation created_from := (ExpressSession.created_from geoip_lookup).
Abbreviation refreshed := (ExpressSession.refreshed geoip_lookup).

(** ** [_getInfo] *)

Lemma str_or_null_nonempty o : str_or_null o ≠ Some "".
Proof. unfold str_or_null. by destruct o as [[|a s]|]. Qed.

Lemma str_or_null_trimmed (o : option string) v :
  str_or_null (trim <$> o) = Some v → trim v = v.
Proof.
  unfold str_or_null. destruct o as [s|]; cbn; [|done].
  destruct (negb _); [|done]. intros [= <-]. apply trim_idempotent.
Qed.

Lemma str_or_null_geoip (o : option string) :
  (str_or_null o = None →
   (if str_truthy o then geoip_lookup (default "" o) else None) = None) ∧
  (∀ a, str_or_null o = Some a →
   (if str_truthy o then geoip_lookup (default "" o) else None)
   = geoip_lookup a).
Proof.
  unfold str_or_null.
  destruct o as [[|c s]|]; cbn; split; try done; by intros a [= <-].
Qed.

(** X9. The snapshot [_getInfo] builds never holds an empty string: a
    missing or blank value is [null]. It carries a geo-IP record only
    together with an address, and that record is the lookup of exactly
    that address. The fields taken from the [x-forwarded-for] and
    [user-agent] headers have no white space around them. Without a
    request every field is [null]. *)
Theorem getInfo_wellformed (b : t) (req : option Req.t) :
  let i := _getInfo b req in
  ip i ≠ Some "" ∧ forwarded_for i ≠ Some "" ∧ user_agent i ≠ Some "" ∧
  (ip i = None → geoip i = None) ∧
  (∀ a, ip i = Some a → geoip i = geoip_lookup a) ∧
  (∀ v, forwarded_for i = Some v → trim v = v) ∧
  (∀ v, user_agent i = Some v → trim v = v) ∧
  (req = None → i = no_info).
Proof.
  cbn zeta. unfold ExpressSession._getInfo. cbn [ip forwarded_for user_agent geoip].
  split; [apply str_or_null_nonempty|].
  split; [apply str_or_null_nonempty|].
  split; [apply str_or_null_nonempty|].
  split; [|split; [|split; [|split]]].
  - apply str_or_null_geoip.
  - apply str_or_null_geoip.
  - destruct req as [r|]; cbn; [|done]. apply str_or_null_trimmed.
  - destruct req as [r|]; cbn; [|done]. apply str_or_null_trimmed.
  - by intros ->.
Qed.

(** ** [find] *)

(** X10. [find] only reads: it leaves the random source alone and
    reaches storage at most twice, first with [findByToken] for the
    token it was given and then, only for a stored session with a truthy
    [userId] and only when a user repository is configured, with the
    lookup of that user. It never saves or deletes. *)
Theorem find_reads_only (b : t) (tok : string) (req : option Req.t)
    (w : World) :
  let out := find b tok req w in
  entropy out.2 = entropy w ∧
  ((_sessionRepo b = None ∧ calls out.2 = calls w) ∨
   (is_Some (_sessionRepo b) ∧ calls out.2 = calls w ++ [CFindByToken tok]) ∨
   (∃ s, is_Some (_sessionRepo b) ∧ is_Some (_userRepo b) ∧
         atom_truthy (userId s) = true ∧
         calls out.2 = calls w ++ [CFindByToken tok; CUserFind (userId s)])).
Proof.
  cbn zeta. rewrite find_eq.
  destruct (_sessionRepo b) as [repo|]; [|by split; [|left]].
  cbn zeta.
  destruct (SessionRepo.findByToken repo tok) as [sessions|e];
    [|by split; [|right; left]].
  destruct (first_or_null sessions) as [| |s];
    [by split; [|right; left]..|].
  destruct (atom_truthy (userId s)) eqn:Hid; [|by split; [|right; left]].
  destruct (_userRepo b) as [urepo|]; [|by split; [|right; left]].
  assert (Hcalls : ∀ l : list StorageCall,
    (l ++ [CFindByToken tok]) ++ [CUserFind (userId s)]
    = l ++ [CFindByToken tok; CUserFind (userId s)])
    by (intros l; by rewrite <-app_assoc).
  destruct (UserRepo.find urepo (userId s)) as [users|e]; cbn.
  - split; [done|]. right; right. exists s. by rewrite Hcalls.
  - split; [done|]. right; right. exists s. by rewrite Hcalls.
Qed.

(** X11. A stored session without a truthy [userId] (anonymous, or with
    the id [0] or the empty string), or any stored session on a bridge
    without a user repository, comes back from [find] with the user the
    session repository left on it: the user repository is not asked. *)
Theorem find_without_user_lookup (b : t) (repo : SessionRepo.t)
    (tok : string) (req : option Req.t) (w : World)
    (sessions : list (Nullable Session)) (s : Session) :
  _sessionRepo b = Some repo →
  SessionRepo.findByToken repo tok = Ok sessions →
  first_or_null sessions = Obj s →
  atom_truthy (userId s) = false ∨ _userRepo b = None →
  find b tok req w
  = (Ok (Obj (refreshed b req s)),
     {| calls := calls w ++ [CFindByToken tok]; entropy := entropy w |}).
Proof.
  intros Hrepo Hfind Hs Hno. rewrite find_eq, Hrepo. cbn zeta.
  rewrite Hfind, Hs.
  destruct Hno as [->| ->]; [done|]. by destruct (atom_truthy _).
Qed.

(** ** [save] *)

Lemma refreshed_set_userId b req a s :
  refreshed b req (set_userId a s) = set_userId a (refreshed b req s).
Proof. by destruct req. Qed.

Lemma refreshed_idempotent b req s :
  refreshed b req (refreshed b req s) = refreshed b req s.
Proof. by destruct req. Qed.

Lemma save_normal_form b req s :
  let s' := set_userId (owner (Model.user s)) (refreshed b req s) in
  set_userId (owner (Model.user s')) (refreshed b req s') = s'.
Proof. cbn zeta. by destruct req. Qed.

(** X12. Saving is idempotent on what it stores: the session a successful
    [save] leaves behind is handed to the repository unchanged by a second
    [save] with the same request. The repository sees one [save] per
    call and nothing else. *)
Theorem save_idempotent (b : t) (s s' : Session) (req : option Req.t)
    (w w' : World) :
  (save b s req w).1 = Ok s' →
  calls (save b s' req w').2
  = calls w' ++ match _sessionRepo b with
                | Some _ => [CSave s']
                | None => []
                end ∧
  entropy (save b s' req w').2 = entropy w' ∧
  ∀ s'', (save b s' req w').1 = Ok s'' → s'' = s'.
Proof.
  rewrite !save_eq. cbn zeta. fold (owner (Model.user s)).
  fold (owner (Model.user s')).
  intros Hs'.
  assert (Heq : s' = set_userId (owner (Model.user s)) (refreshed b req s)).
  { destruct (_sessionRepo b) as [repo|]; cbn in Hs'.
    - destruct (SessionRepo.save repo _); by simplify_eq.
    - by simplify_eq. }
  pose proof (save_normal_form b req s) as Hnf. cbn zeta in Hnf.
  rewrite <-Heq in Hnf. rewrite Hnf.
  destruct (_sessionRepo b) as [repo|]; cbn.
  - split; [done|]. split; [done|].
    intros s''. destruct (SessionRepo.save repo s'); by intros [=].
  - rewrite app_nil_r. split; [done|]. split; [done|]. by intros s'' [=].
Qed.

(** X13. What [create] builds and [save] stores agree: for a session
    created for a user, [save] with the same request hands the repository
    that very session; for an anonymous one it stores the same session
    with [userId] set to [null], whatever the model object carried. *)
Theorem create_then_save (b : t) (repo : SessionRepo.t)
    (user : Nullable User) (req : option Req.t) (w w' : World)
    (s : Session) :
  _sessionRepo b = Some repo →
  (create b user req w).1 = Ok s →
  calls (save b s req w').2
  = calls w' ++ [CSave (set_userId (owner user) s)] ∧
  (truthy user = true → set_userId (owner user) s = s).
Proof.
  intros Hrepo. rewrite create_eq, save_eq, Hrepo. cbn zeta.
  destruct (model_source b) as [[base|e]|]; [|done..].
  destruct (getRandomString _ _ _ _) as [tok rest]. cbn [fst snd].
  intros [= <-]. cbn [calls snd].
  split.
  - do 2 f_equal. f_equal. unfold created_from, ExpressSession.created_from.
    by destruct req.
  - by destruct user.
Qed.

(** ** Errors of the repositories *)

(** X14. The bridge catches nothing: when the session repository or the
    user repository throws, [find], [save], [destroy] and [expire] throw
    that same error. *)
Theorem repository_errors_propagate (b : t) (repo : SessionRepo.t)
    (w : World) (e : Error) :
  _sessionRepo b = Some repo →
  (∀ tok req, SessionRepo.findByToken repo tok = Throw e →
              (find b tok req w).1 = Throw e) ∧
  (∀ tok req sessions s urepo,
     SessionRepo.findByToken repo tok = Ok sessions →
     first_or_null sessions = Obj s →
     atom_truthy (userId s) = true →
     _userRepo b = Some urepo →
     UserRepo.find urepo (userId s) = Throw e →
     (find b tok req w).1 = Throw e) ∧
  (∀ s req,
     SessionRepo.save repo
       (set_userId (owner (Model.user s)) (refreshed b req s)) = Throw e →
     (save b s req w).1 = Throw e) ∧
  (∀ s, SessionRepo.delete repo s = Throw e →
        (destroy b s w).1 = Throw e) ∧
  (∀ del, SessionRepo.deleteExpired repo = Some del →
          del (expirationTimeout b) = Throw e →
          (expire b w).1 = Throw e).
Proof.
  intros Hrepo. split; [|split; [|split; [|split]]].
  - intros tok req Hf. by rewrite find_eq, Hrepo; cbn zeta; rewrite Hf.
  - intros tok req sessions s urepo Hf Hs Hid Hu He.
    rewrite find_eq, Hrepo; cbn zeta. by rewrite Hf, Hs, Hid, Hu, He.
  - intros s req Hs. rewrite save_eq, Hrepo; cbn zeta.
    fold (owner (Model.user s)). by rewrite Hs.
  - intros s Hd. unfold destroy, repo_call. rewrite Hrepo.
    unfold mbind, M_bind, bind, modify, call. cbn. by rewrite Hd.
  - intros del Hdel He. unfold expire, repo_call. rewrite Hrepo, Hdel.
    unfold mbind, M_bind, bind, modify, call. cbn. by rewrite He.
Qed.

End Bridge.

Lemma find_without_user_lookup_witness :
  (ExpressSession.find no_geoip lonely_bridge "known" None demo_world).1
  = Ok (Obj stored).
Proof.
  refine (f_equal fst
    (find_without_user_lookup no_geoip lonely_bridge demo_repo "known" None
       demo_world [Obj stored] stored _ _ _ _)).
  - reflexivity.
  - reflexivity.
  - reflexivity.
  - right. reflexivity.
Defined.

Lemma save_idempotent_witness :
  (ExpressSession.save no_geoip demo_bridge stored None demo_world).1
    = Ok (set_userId ANull stored) ∧
  calls (ExpressSession.save no_geoip demo_bridge (set_userId ANull stored)
           None demo_world).2
    = [CSave (set_userId ANull stored)].
Proof.
  split; [reflexivity|].
  apply (save_idempotent no_geoip demo_bridge stored
           (set_userId ANull stored) None demo_world demo_world).
  reflexivity.
Defined.

Lemma create_then_save_witness :
  ∃ s, (ExpressSession.create no_geoip demo_bridge (Obj alice) None
          demo_world).1 = Ok s ∧
       calls (ExpressSession.save no_geoip demo_bridge s None demo_world).2
       = [CSave s].
Proof.
  eexists. split; [reflexivity|].
  refine (proj1 (create_then_save no_geoip demo_bridge demo_repo (Obj alice)
                   None demo_world demo_world _ _ _)).
  - reflexivity.
  - reflexivity.
Defined.

Lemma repository_errors_propagate_witness :
  _sessionRepo broken_bridge = Some broken_repo ∧
  (ExpressSession.find no_geoip broken_bridge "known" None demo_world).1
  = Throw "connection refused".
Proof.
  split; [reflexivity|].
  apply (proj1 (repository_errors_propagate no_geoip broken_bridge
                  broken_repo demo_world "connection refused" eq_refl)).
  reflexivity.
Defined.

End BridgeEdgeFacts.

(* ===================================================================== *)
(** * More facts about the session middleware *)
(* ===================================================================== *)

Module SessionMwEdgeFacts.
Import Model SessionMw SessionMwEdge SessionMwFacts.

Lemma request_v1_eq svc name tokenVar c :
  request_v1 svc name tokenVar c
  = SessionMw.end_v1 svc name tokenVar
      (SessionMw.handler_v1 svc name tokenVar c).2.
Proof.
  unfold request_v1, mbind, M_bind, bind. by rewrite handler_v1_eq.
Qed.

Lemma request_v2_eq svc name tokenVar c :
  request_v2 svc name tokenVar c
  = SessionMw.end_v2 svc name tokenVar
      (SessionMw.handler_v2 svc name tokenVar c).2.
Proof.
  unfold request_v2, mbind, M_bind, bind. by rewrite handler_v2_eq.
Qed.

Section Facts.
Context (svc : SessionService) (name tokenVar : string).

Abbreviation handler_v1 := (SessionMw.handler_v1 svc name tokenVar).
Abbreviation handler_v2 := (SessionMw.handler_v2 svc name tokenVar).
Abbreviation end_v1 := (SessionMw.end_v1 svc name tokenVar).
Abbreviation end_v2 := (SessionMw.end_v2 svc name tokenVar).
Abbreviation token_of := (SessionMw.token_of tokenVar).
Abbreviation resolution := (SessionMw.resolution svc name tokenVar).
Abbreviation finalize := (SessionMw.finalize svc name tokenVar).

(** X15. Neither revision of the handler sets a cookie, applies the
    original [end], prints, or changes the cookies, headers or address of
    the request; and it logs nothing but the one error that decoding or
    creation raised. *)
Theorem handlers_framed (c : Ctx) :
  handler_framed svc name tokenVar handler_v1 reset_v1 c ∧
  handler_framed svc name tokenVar handler_v2 reset_v2 c.
Proof.
  unfold handler_framed. rewrite handler_v1_eq, handler_v2_eq. cbn zeta.
  split.
  - assert (Hthrow := resolution_throws svc name tokenVar (reset_v1 c)).
    destruct (SessionMw.resolution _ _ _ (reset_v1 c)) as [[[]|e] v];
      cbn in *.
    + repeat (split; [done|]). by left.
    + repeat (split; [done|]). right. exists e. split; [|done].
      by apply Hthrow.
  - assert (Hthrow := resolution_throws svc name tokenVar (reset_v2 c)).
    destruct (SessionMw.resolution _ _ _ (reset_v2 c)) as [[[]|e] v];
      cbn in *.
    + destruct v; cbn; repeat (split; [done|]); by left.
    + repeat (split; [done|]). right. exists e. split; [|done].
      by apply Hthrow.
Qed.

Lemma finalize_framed issue print s c :
  let c' := finalize issue print s c in
  req c' = req c ∧
  locals_session (res c') = locals_session (res c) ∧
  locals_user (res c') = locals_user (res c) ∧
  next_calls c' = next_calls c ∧
  end_calls (res c') = end_calls (res c) ∧
  ((cookies_set (res c') = cookies_set (res c) ∧ console c' = console c ∧
    (log c' = log c ∨ ∃ e, log c' = log c ++ [e])) ∨
   (∃ tok,
      cookies_set (res c')
        = cookies_set (res c) ++ [session_cookie tokenVar tok] ∧
      log c' = log c ∧
      console c' = console c ++ (if print then [tok] else []))).
Proof.
  cbn zeta. unfold SessionMw.finalize.
  destruct (update svc name s (req c)) as [[ok|e] s'].
  - destruct (issue ok s' && negb (String.eqb tokenVar "")).
    + destruct (encodeJwt svc name s') as [tok|e].
      * repeat (split; [by destruct print|]). right. exists tok.
        destruct print; cbn; [done|]. by rewrite app_nil_r.
      * repeat (split; [done|]). left. repeat (split; [done|]).
        right. by exists e.
    + repeat (split; [done|]). left. repeat (split; [done|]). by left.
  - repeat (split; [done|]). left. repeat (split; [done|]).
    right. by exists e.
Qed.

(** X16. Neither revision of the patched [res.end] changes the request,
    [res.locals] or the count of [next] calls. It either sets no cookie
    and logs at most one error, or it sets exactly one cookie, named by
    the token variable, and logs nothing; only the first revision prints
    the token, and only when it sets the cookie. *)
Theorem ends_framed (c : Ctx) :
  end_framed tokenVar end_v1 true c ∧ end_framed tokenVar end_v2 false c.
Proof.
  unfold end_framed. rewrite end_v1_eq, end_v2_eq. cbn zeta.
  cbn [fst snd]. split.
  - destruct (session c) as [| |s0].
    + repeat (split; [done|]). left. repeat (split; [done|]). by left.
    + repeat (split; [done|]). left. repeat (split; [done|]). by left.
    + destruct (finalize_framed (λ _ s', isValid name s') true
                  (finalized_v1 c s0) c) as (Hreq & Hls & Hlu & Hn & _ & H).
      cbn. by repeat (split; [done|]).
  - destruct (session c) as [| |s0].
    + repeat (split; [done|]). left. repeat (split; [done|]). by left.
    + repeat (split; [done|]). left. repeat (split; [done|]). by left.
    + destruct (finalize_framed (λ ok _, ok) false
                  (finalized_v2 c s0) c) as (Hreq & Hls & Hlu & Hn & _ & H).
      cbn. by repeat (split; [done|]).
Qed.

(** X17. A request whose token cannot be decoded is turned away for
    good: creation is not attempted (whatever [create] would do, the
    outcome is the same), the handler and [res.end] together leave the
    request without session and user, log the decoding error and nothing
    else, and set no cookie. *)
Theorem broken_token_gets_no_session (c : Ctx) (e : Error) :
  str_truthy (token_of c) = true →
  (decodeJwt svc name (default "" (token_of c)) (req (reset_v1 c)) = Throw e →
   turned_away (request_v1 svc name tokenVar) Null e c ∧
   ∀ k, request_v1 (with_create k svc) name tokenVar c
        = request_v1 svc name tokenVar c) ∧
  (decodeJwt svc name (default "" (token_of c)) (req (reset_v2 c)) = Throw e →
   turned_away (request_v2 svc name tokenVar) (Obj ∅) e c ∧
   ∀ k, request_v2 (with_create k svc) name tokenVar c
        = request_v2 svc name tokenVar c).
Proof.
  intros Htok. split; intros Hdec.
  - assert (Hres : ∀ k, SessionMw.resolution (with_create k svc) name tokenVar
                          (reset_v1 c) = (Throw e, Undefined)).
    { intros k. unfold SessionMw.resolution.
      change (SessionMw.token_of tokenVar (reset_v1 c)) with (token_of c).
      rewrite Htok. cbn [decodeJwt with_create]. by rewrite Hdec. }
    assert (Hres0 : resolution (reset_v1 c) = (Throw e, Undefined)).
    { generalize (Hres (create svc)). by destruct svc. }
    split.
    + unfold turned_away. rewrite request_v1_eq, end_v1_eq, handler_v1_eq.
      cbn zeta. by rewrite Hres0.
    + intros k. rewrite !request_v1_eq, !end_v1_eq, !handler_v1_eq.
      cbn zeta. by rewrite Hres, Hres0.
  - assert (Hres : ∀ k, SessionMw.resolution (with_create k svc) name tokenVar
                          (reset_v2 c) = (Throw e, Undefined)).
    { intros k. unfold SessionMw.resolution.
      change (SessionMw.token_of tokenVar (reset_v2 c)) with (token_of c).
      rewrite Htok. cbn [decodeJwt with_create]. by rewrite Hdec. }
    assert (Hres0 : resolution (reset_v2 c) = (Throw e, Undefined)).
    { generalize (Hres (create svc)). by destruct svc. }
    split.
    + unfold turned_away. rewrite request_v2_eq, end_v2_eq, handler_v2_eq.
      cbn zeta. by rewrite Hres0.
    + intros k. rewrite !request_v2_eq, !end_v2_eq, !handler_v2_eq.
      cbn zeta. by rewrite Hres, Hres0.
Qed.

Lemma resolution_without_token c0 d :
  str_truthy (token_of c0) = false →
  SessionMw.resolution (with_decodeJwt d svc) name tokenVar c0
  = resolution c0.
Proof. intros Htok. unfold SessionMw.resolution. by rewrite Htok. Qed.

Lemma resolution_decoded c0 s k :
  str_truthy (token_of c0) = true →
  decodeJwt svc name (default "" (token_of c0)) (req c0) = Ok (Obj s) →
  SessionMw.resolution (with_create k svc) name tokenVar c0 = resolution c0.
Proof.
  intros Htok Hdec. unfold SessionMw.resolution. rewrite Htok.
  cbn [decodeJwt with_create]. by rewrite Hdec.
Qed.

(** X18. The handler decodes only when the request carries a non-empty
    session cookie, and creates only when decoding gave no session:
    without such a cookie its outcome does not depend on [decodeJwt], and
    with a token that decodes to a session it does not depend on
    [create]. *)
Theorem handler_consults (c : Ctx) :
  (str_truthy (token_of c) = false →
   ∀ d, SessionMw.handler_v1 (with_decodeJwt d svc) name tokenVar c
        = handler_v1 c ∧
        SessionMw.handler_v2 (with_decodeJwt d svc) name tokenVar c
        = handler_v2 c) ∧
  (str_truthy (token_of c) = true →
   (∀ s k, decodeJwt svc name (default "" (token_of c)) (req (reset_v1 c))
           = Ok (Obj s) →
           SessionMw.handler_v1 (with_create k svc) name tokenVar c
           = handler_v1 c) ∧
   (∀ s k, decodeJwt svc name (default "" (token_of c)) (req (reset_v2 c))
           = Ok (Obj s) →
           SessionMw.handler_v2 (with_create k svc) name tokenVar c
           = handler_v2 c)).
Proof.
  split.
  - intros Htok d. rewrite !handler_v1_eq, !handler_v2_eq. cbn zeta.
    by rewrite !resolution_without_token.
  - intros Htok. split.
    + intros s k Hdec. rewrite !handler_v1_eq. cbn zeta.
      by rewrite (resolution_decoded (reset_v1 c) s k).
    + intros s k Hdec. rewrite !handler_v2_eq. cbn zeta.
      by rewrite (resolution_decoded (reset_v2 c) s k).
Qed.

(** X19. A request that no later handler touches hands to [update] the
    session it resolved, with the user it published and, in the second
    revision, the payload it published. That is the resolved session
    itself whenever its user is not [undefined] and, for the second
    revision, its payload is an object. *)
Theorem untouched_request_writes_back (c : Ctx) (s : Session) :
  (resolution (reset_v1 c) = (Ok tt, Obj s) →
   request_v1 svc name tokenVar c
   = (Ok tt, ended (finalize (λ _ s', isValid name s') true
                             (written_back_v1 s) (handler_v1 c).2))) ∧
  (resolution (reset_v2 c) = (Ok tt, Obj s) →
   request_v2 svc name tokenVar c
   = (Ok tt, ended (finalize (λ ok _, ok) false
                             (written_back_v2 s) (handler_v2 c).2))) ∧
  (user s ≠ Undefined → written_back_v1 s = s) ∧
  (user s ≠ Undefined → is_Some (match payload s with
                                 | Obj p => Some p
                                 | _ => None
                                 end) →
   written_back_v2 s = s).
Proof.
  split; [|split; [|split]].
  - intros Hres. rewrite request_v1_eq, end_v1_eq, handler_v1_eq.
    cbn zeta. by rewrite Hres.
  - intros Hres. rewrite request_v2_eq, end_v2_eq, handler_v2_eq.
    cbn zeta. by rewrite Hres.
  - intros Hu. unfold written_back_v1, or_null.
    destruct s as [tk p i u uid]; cbn in *. by destruct u.
  - intros Hu [p Hp]. unfold written_back_v2, or_null, object_assign.
    destruct s as [tk [| |p'] i u uid]; cbn in *; [done..|].
    rewrite (right_id_L ∅ (∪)). by destruct u.
Qed.

End Facts.

Lemma broken_token_gets_no_session_witness :
  str_truthy (SessionMw.token_of "sid_api_demo" returning) = true ∧
  log (request_v1 failing "api" "sid_api_demo" returning).2
  = ["jwt malformed"].
Proof.
  split; [reflexivity|].
  destruct (broken_token_gets_no_session failing "api" "sid_api_demo"
              returning "jwt malformed" eq_refl) as [H1 _].
  destruct (H1 eq_refl) as [(_ & _ & _ & _ & Hlog & _) _]. exact Hlog.
Defined.

End SessionMwEdgeFacts.

(* ===================================================================== *)
(** * More facts about the routes middleware *)
(* ===================================================================== *)

Module RoutesEdgeFacts.
Import Routes RoutesFacts.

Lemma collect_perm (ms1 ms2 : list AppModule) :
  ms1 ≡ₚ ms2 → collect ms1 ≡ₚ collect ms2.
Proof.
  rewrite !collect_concat.
  induction 1 as [|m l1 l2 _ IH|m1 m2 l|l1 l2 l3 _ IH1 _ IH2]; simpl.
  - done.
  - by rewrite IH.
  - rewrite !app_assoc. f_equiv. apply Permutation_app_comm.
  - by rewrite IH1.
Qed.

Lemma filter_priority_absent p (l : list Router) :
  p ∉ priority <$> l → filter (has_priority p) l = [].
Proof.
  induction l as [|r l IH]; [done|]. rewrite fmap_cons, not_elem_of_cons.
  intros [Hr Hl]. rewrite filter_cons. unfold has_priority at 1.
  case_decide; [done|]. by apply IH.
Qed.

Lemma filter_priority_short p (l : list Router) :
  NoDup (priority <$> l) →
  filter (has_priority p) l = [] ∨ ∃ r, filter (has_priority p) l = [r].
Proof.
  induction l as [|r l IH]; [by left|].
  rewrite fmap_cons, NoDup_cons. intros [Hr Hl].
  rewrite filter_cons.
  destruct (decide (has_priority p r)) as [Hp|Hp]; [|by apply IH].
  right. exists r. rewrite filter_priority_absent; [done|].
  unfold has_priority in Hp. by rewrite <-Hp.
Qed.

Lemma perm_short {A} (l1 l2 : list A) :
  l1 ≡ₚ l2 → l1 = [] ∨ (∃ r, l1 = [r]) → l1 = l2.
Proof.
  intros Hperm [->|[r ->]].
  - by apply Permutation_nil_l.
  - by apply Permutation_singleton_l.
Qed.

Lemma array_sort_sorted_id (l : list Router) :
  StronglySorted desc l → array_sort by_priority_desc l = l.
Proof.
  intros Hl. apply desc_stable_unique; [apply array_sort_sorted|done|].
  intros p. apply array_sort_filter.
Qed.

(** X20. When no two routers share a priority, the order in which they
    are mounted does not depend on the order in which the modules were
    loaded. *)
Theorem mount_order_ignores_load_order (ms1 ms2 : list AppModule) :
  ms1 ≡ₚ ms2 →
  NoDup (priority <$> collect ms1) →
  mount_order ms1 = mount_order ms2.
Proof.
  intros Hperm Hnd. unfold mount_order.
  apply desc_stable_unique; [apply array_sort_sorted..|].
  intros p. rewrite !array_sort_filter. apply perm_short.
  - by rewrite (collect_perm ms1 ms2).
  - by apply filter_priority_short.
Qed.

Lemma mount_order_ignores_load_order_witness :
  mount_order [ {| routers := Some [mkRouter 5 1] |};
                {| routers := Some [mkRouter 20 2] |} ]
  = mount_order [ {| routers := Some [mkRouter 20 2] |};
                  {| routers := Some [mkRouter 5 1] |} ].
Proof.
  apply mount_order_ignores_load_order.
  - apply Permutation_swap.
  - apply NoDup_cons. split; [|apply NoDup_singleton].
    intros Hin. apply elem_of_cons in Hin as [Heq|Hin];
      [discriminate Heq|by apply elem_of_nil in Hin].
Defined.

(** X21. The two revisions of [register] agree on modules that declare
    their routers by descending priority (all with the same priority, for
    one): the revision that sorts mounts the collected routers as they
    come, which is what the older revision does with [server.routers]. *)
Theorem sorted_routers_mount_as_declared (modules : list AppModule)
    (e : ExpressApp) :
  StronglySorted desc (collect modules) →
  stack (register modules e)
  = stack (register_server_routers (map router (collect modules)) e).
Proof.
  intros Hs. unfold register.
  rewrite mount_from, register_server_routers_stack, array_sort_sorted_id
    by done.
  by rewrite map_map.
Qed.

Lemma sorted_routers_mount_as_declared_witness :
  stack (register [ {| routers := Some [mkRouter 5 1; mkRouter 5 2] |} ]
                  {| stack := [] |})
  = [("/", 1%nat); ("/", 2%nat)].
Proof.
  apply (sorted_routers_mount_as_declared
           [ {| routers := Some [mkRouter 5 1; mkRouter 5 2] |} ]
           {| stack := [] |}).
  repeat constructor; unfold desc; cbn; lia.
Defined.

End RoutesEdgeFacts.

(* ===================================================================== *)
(** * Facts about static files and the favicon *)
(* ===================================================================== *)

Module AssetsFacts.
Import Assets.

Section Register.
Context (path_join : list string → string) (base_path : string).
Context (lstat_isFile : string → Result bool).
Context (favicon : string → Result nat).

Abbreviation resolve := (Assets.resolve path_join base_path).
Abbreviation static_register := (Assets.static_register path_join base_path).
Abbreviation static_dirs := (Assets.static_dirs path_join base_path).
Abbreviation icon_of := (Assets.icon_of path_join).
Abbreviation try_favicon := (Assets.try_favicon lstat_isFile favicon).
Abbreviation favicon_dirs :=
  (Assets.favicon_dirs path_join base_path lstat_isFile favicon).
Abbreviation favicon_modules :=
  (Assets.favicon_modules path_join base_path lstat_isFile favicon).
Abbreviation favicon_register :=
  (Assets.favicon_register path_join base_path lstat_isFile favicon).

Lemma static_inner name dirs stack :
  fold_left (λ stack dir, stack ++ [Static (resolve name dir)]) dirs stack
  = stack ++ map Static (map (resolve name) dirs).
Proof.
  revert stack. induction dirs as [|d dirs IH]; intros stack; simpl.
  - by rewrite app_nil_r.
  - by rewrite IH, <-app_assoc.
Qed.

Lemma static_register_from modules stack :
  static_register modules stack = stack ++ map Static (static_dirs modules).
Proof.
  unfold Assets.static_register, Assets.static_dirs. revert stack.
  induction modules as [|m ms IH]; intros stack; simpl.
  - by rewrite app_nil_r.
  - by rewrite IH, static_inner, map_app, app_assoc.
Qed.

(** X22. The static middleware mounts one handler for every configured
    directory, behind what is already mounted, module by module and, in a
    module, in the order of its [static] list; a directory that starts
    with a slash is served as it is, whatever the base path and the
    module. A module without a [static] list adds nothing. *)
Theorem static_register_spec (modules : list (string * ModuleConfig))
    (stack : list Mounted) :
  static_register modules stack = stack ++ map Static (static_dirs modules) ∧
  (∀ name dir, is_absolute dir = true → resolve name dir = dir) ∧
  (∀ m ms, static m.2 = None → static_dirs (m :: ms) = static_dirs ms) ∧
  (∀ ms1 ms2, static_dirs (ms1 ++ ms2) = static_dirs ms1 ++ static_dirs ms2).
Proof.
  split; [apply static_register_from|]. split; [|split].
  - intros name dir Habs. unfold Assets.resolve. by rewrite Habs.
  - intros m ms Hm. unfold Assets.static_dirs. simpl. by rewrite Hm.
  - intros ms1 ms2. unfold Assets.static_dirs.
    by rewrite map_app, concat_app.
Qed.

Lemma favicon_dirs_spec name dirs :
  match favicon_dirs name dirs with
  | Some h =>
      ∃ pre dir post,
        dirs = pre ++ dir :: post ∧
        try_favicon (icon_of (resolve name dir)) = Some h ∧
        Forall (λ d, try_favicon (icon_of (resolve name d)) = None) pre
  | None => Forall (λ d, try_favicon (icon_of (resolve name d)) = None) dirs
  end.
Proof.
  induction dirs as [|d dirs IH]; simpl; [done|].
  unfold Assets.favicon_file. fold (icon_of (resolve name d)).
  destruct (try_favicon (icon_of (resolve name d))) as [h|] eqn:Hd.
  - by exists [], d, dirs.
  - destruct (favicon_dirs name dirs) as [h|].
    + destruct IH as (pre & dir & post & -> & Hh & Hpre).
      exists (d :: pre), dir, post. by repeat split; [|constructor].
    + by constructor.
Qed.

Lemma favicon_modules_spec modules :
  match favicon_modules modules with
  | Some h =>
      ∃ pre dir post,
        static_dirs modules = pre ++ dir :: post ∧
        try_favicon (icon_of dir) = Some h ∧
        Forall (λ d, try_favicon (icon_of d) = None) pre
  | None => Forall (λ d, try_favicon (icon_of d) = None) (static_dirs modules)
  end.
Proof.
  induction modules as [|m ms IH]; simpl; [done|].
  unfold Assets.static_dirs. simpl. fold (static_dirs ms).
  pose proof (favicon_dirs_spec m.1 (default [] (static m.2))) as Hm.
  destruct (favicon_dirs m.1 (default [] (static m.2))) as [h|].
  - destruct Hm as (pre & dir & post & -> & Hh & Hpre).
    exists (map (resolve m.1) pre), (resolve m.1 dir),
      (map (resolve m.1) post ++ static_dirs ms).
    split; [by rewrite map_app, <-app_assoc|]. split; [done|].
    by apply Forall_map.
  - assert (Hm' : Forall (λ d, try_favicon (icon_of d) = None)
                    (map (resolve m.1) (default [] (static m.2))))
      by by apply Forall_map.
    destruct (favicon_modules ms) as [h|].
    + destruct IH as (pre & dir & post & -> & Hh & Hpre).
      exists (map (resolve m.1) (default [] (static m.2)) ++ pre), dir, post.
      split; [by rewrite <-app_assoc|]. split; [done|].
      by apply Forall_app.
    + by apply Forall_app.
Qed.

(** X23. The favicon middleware mounts at most one handler. It walks the
    directories the static middleware serves, in the same order, and
    mounts the icon of the first directory whose [img/favicon.ico] is a
    regular file that [serve-favicon] accepts; a directory where the
    look-up or the construction throws is passed over like one without
    an icon. When no directory has a usable icon nothing is mounted. *)
Theorem favicon_register_spec (modules : list (string * ModuleConfig))
    (stack : list Mounted) :
  (favicon_register modules stack = stack ∧
   Forall (λ d, try_favicon (icon_of d) = None) (static_dirs modules)) ∨
  (∃ pre dir post h,
     static_dirs modules = pre ++ dir :: post ∧
     Forall (λ d, try_favicon (icon_of d) = None) pre ∧
     lstat_isFile (icon_of dir) = Ok true ∧
     favicon (icon_of dir) = Ok h ∧
     favicon_register modules stack = stack ++ [Favicon h]).
Proof.
  unfold Assets.favicon_register.
  pose proof (favicon_modules_spec modules) as H.
  destruct (favicon_modules modules) as [h|]; [|by left].
  right. destruct H as (pre & dir & post & Hdirs & Hh & Hpre).
  exists pre, dir, post, h. repeat (split; [done|]).
  unfold Assets.try_favicon in Hh.
  destruct (lstat_isFile (icon_of dir)) as [[]|]; [|done..].
  destruct (favicon (icon_of dir)); by simplify_eq.
Qed.

End Register.

Example static_demo :
  Assets.static_register demo_join "/srv" demo_modules []
  = [Static "/var/www"; Static "/srv/modules/site/assets";
     Static "/srv/modules/shop/public"].
Proof. reflexivity. Qed.

Example favicon_demo :
  Assets.favicon_register demo_join "/srv" demo_lstat demo_favicon
    demo_modules []
  = [Favicon 40].
Proof. reflexivity. Qed.

End AssetsFacts.

(* ===================================================================== *)
(** * Facts about the web sockets of the server *)
(* ===================================================================== *)

Module SocketsFacts.
Import Sockets.

(** ** Event names *)

Lemma prefix_app (p s : string) :
  String.prefix p s = true → ∃ r, s = p +:+ r.
Proof.
  revert s. induction p as [|a p IH]; intros s; [by exists s|].
  destruct s as [|b s]; [done|]. cbn [String.prefix].
  destruct (ascii_dec a b) as [->|]; [|done].
  intros [r ->]%IH. by exists r.
Qed.

Lemma prefix_app_true (p r : string) : String.prefix p (p +:+ r) = true.
Proof.
  induction p as [|a p IH]; [by destruct r|].
  change (String a p +:+ r) with (String a (p +:+ r)).
  cbn [String.prefix]. by destruct (ascii_dec a a).
Qed.

Lemma split_nonempty c s : split c s ≠ [].
Proof.
  destruct s as [|a s]; [done|]. cbn [split].
  destruct (Ascii.eqb a c); [done|]. by destruct (split c s).
Qed.

(** Joining what [split] gave with the separator restores the string. *)
Lemma concat_split (c : ascii) (s : string) :
  String.concat (String c "") (split c s) = s.
Proof.
  induction s as [|a s IH]; [done|]. cbn [split].
  destruct (Ascii.eqb_spec a c) as [->|Hne].
  - pose proof (split_nonempty c s) as Hs.
    destruct (split c s) as [|h t] eqn:Hsplit; [done|].
    cbn [String.concat] in *. by rewrite IH.
  - pose proof (split_nonempty c s) as Hs.
    destruct (split c s) as [|h t] eqn:Hsplit; [done|].
    destruct t as [|h' t]; cbn [String.concat] in *.
    + by rewrite IH.
    + by rewrite <-IH.
Qed.

Lemma socket_event_prefixed (e : string) : socket_event ("socket_" +:+ e) = e.
Proof.
  unfold socket_event.
  assert (Hsplit : split "_" ("socket_" +:+ e) = "socket" :: split "_" e).
  { change ("socket_" +:+ e)
      with (String "s" (String "o" (String "c" (String "k" (String "e"
              (String "t" (String "_" e))))))).
    cbn [split Ascii.eqb Bool.eqb].
    pose proof (split_nonempty "_" e) as Hs.
    by destruct (split "_" e). }
  rewrite Hsplit. cbn [drop]. apply (concat_split "_").
Qed.

Lemma prefixed_event (event : string) :
  String.prefix "socket_" event = true →
  event = "socket_" +:+ socket_event event.
Proof.
  intros [e ->]%prefix_app. by rewrite socket_event_prefixed.
Qed.

Lemma unprefixed_event (event e : string) :
  String.prefix "socket_" event = false → event ≠ "socket_" +:+ e.
Proof. intros Hp ->. by rewrite prefix_app_true in Hp. Qed.

(** ** Emitters and sets *)

Section Emitter.
Context {L : Type} `{EqDecision L}.
Implicit Types em : gmap string (list L).

Lemma listeners_insert em k l : listeners (<[k := l]> em) k = l.
Proof. unfold listeners. by rewrite lookup_insert_eq. Qed.

Lemma listeners_insert_ne em k k' l :
  k ≠ k' → listeners (<[k := l]> em) k' = listeners em k'.
Proof. intros Hne. unfold listeners. by rewrite lookup_insert_ne. Qed.

Lemma listeners_delete em k : listeners (delete k em) k = [].
Proof. unfold listeners. by rewrite lookup_delete_eq. Qed.

Lemma listeners_delete_ne em k k' :
  k ≠ k' → listeners (delete k em) k' = listeners em k'.
Proof. intros Hne. unfold listeners. by rewrite lookup_delete_ne. Qed.

Lemma listeners_empty k : listeners (∅ : gmap string (list L)) k = [].
Proof. unfold listeners. by rewrite lookup_empty. Qed.

Lemma remove_last_head (h : L) (l : list L) :
  h ∉ l → remove_last h (h :: l) = l.
Proof.
  intros Hl. cbn [remove_last]. rewrite decide_True by done.
  by rewrite decide_False.
Qed.

Lemma remove_last_nil_inv (h : L) (l : list L) :
  remove_last h l ≠ [] → l ≠ [].
Proof. by destruct l. Qed.

End Emitter.

Lemma set_add_elem e x l : x ∈ set_add e l ↔ x = e ∨ x ∈ l.
Proof.
  unfold set_add. destruct (decide (e ∈ l)) as [He|He].
  - split; [by right|]. by intros [->|].
  - rewrite elem_of_app, elem_of_cons, elem_of_nil. tauto.
Qed.

Lemma set_add_NoDup e l : NoDup l → NoDup (set_add e l).
Proof.
  intros Hl. unfold set_add. destruct (decide (e ∈ l)) as [He|He]; [done|].
  apply NoDup_app. split; [done|]. split; [|apply NoDup_singleton].
  intros x Hx Hx'. apply elem_of_cons in Hx' as [->|Hx']; [done|].
  by apply elem_of_nil in Hx'.
Qed.

Lemma set_delete_elem e x l : x ∈ set_delete e l ↔ x ≠ e ∧ x ∈ l.
Proof. unfold set_delete. by rewrite list_elem_of_filter. Qed.

Lemma set_delete_NoDup e l : NoDup l → NoDup (set_delete e l).
Proof. apply NoDup_filter. Qed.

(** ** One socket *)

Lemma expected_not_disconnect id info event :
  event ≠ "disconnect" →
  expected id info event
  = match handlers info !! event with Some h => [h] | None => [] end.
Proof.
  intros Hd. unfold expected. rewrite decide_False by done.
  by rewrite app_nil_r.
Qed.

Lemma install_ok events e id gen info :
  socket_ok events id info →
  listenerCount (socket info) e = 0%nat →
  socket_ok (set_add e events) id (install gen e id info).
Proof.
  intros (Ha & Hb & Hc) Hcount.
  assert (Hnone : handlers info !! e = None ∧ e ≠ "disconnect").
  { unfold listenerCount in Hcount. rewrite Hb in Hcount.
    unfold expected in Hcount.
    destruct (handlers info !! e); [done|]. split; [done|].
    intros ->. by rewrite decide_True in Hcount. }
  destruct Hnone as [Hnone Hnd].
  assert (Hl : listeners (socket info) e = []).
  { by rewrite Hb, expected_not_disconnect, Hnone. }
  split; [|split].
  - intros event h. cbn [install handlers].
    destruct (decide (e = event)) as [<-|Hne].
    + rewrite lookup_insert_eq. intros [= <-].
      split; [apply set_add_elem; by left|by exists gen].
    + rewrite lookup_insert_ne by done. intros Hh.
      destruct (Ha _ _ Hh) as [Hin Hg].
      split; [apply set_add_elem; by right|done].
  - intros event. unfold expected. cbn [install handlers socket].
    unfold em_on. destruct (decide (e = event)) as [<-|Hne].
    + rewrite listeners_insert, lookup_insert_eq, Hl.
      by rewrite decide_False.
    + rewrite listeners_insert_ne, lookup_insert_ne by done. apply Hb.
  - intros event Hin Hd. cbn [install handlers].
    destruct (decide (e = event)) as [<-|Hne].
    + rewrite lookup_insert_eq. by eexists.
    + rewrite lookup_insert_ne by done. apply Hc; [|done].
      apply set_add_elem in Hin as [->|Hin]; done.
Qed.

Lemma install_skip_ok events e id info :
  socket_ok events id info →
  listenerCount (socket info) e ≠ 0%nat →
  socket_ok (set_add e events) id info.
Proof.
  intros (Ha & Hb & Hc) Hcount. split; [|split].
  - intros event h Hh. destruct (Ha _ _ Hh) as [Hin Hg].
    split; [apply set_add_elem; by right|done].
  - done.
  - intros event Hin Hd. apply set_add_elem in Hin as [->|Hin];
      [|by apply Hc].
    unfold listenerCount in Hcount.
    rewrite Hb, expected_not_disconnect in Hcount by done.
    destruct (handlers info !! e); [by eexists|done].
Qed.

Lemma uninstall_ok events e id info :
  socket_ok events id info →
  socket_ok (set_delete e events) id (uninstall e info).
Proof.
  intros (Ha & Hb & Hc). unfold uninstall.
  destruct (handlers info !! e) as [h|] eqn:Hh.
  - destruct (Ha _ _ Hh) as [Hin [gen ->]].
    split; [|split].
    + intros event h'. cbn [handlers].
      destruct (decide (e = event)) as [<-|Hne].
      * by rewrite lookup_delete_eq.
      * rewrite lookup_delete_ne by done. intros Hh'.
        destruct (Ha _ _ Hh') as [Hin' Hg]. split; [|done].
        apply set_delete_elem. by split; [intros ->|].
    + intros event. unfold expected. cbn [handlers socket].
      unfold em_remove. destruct (decide (e = event)) as [<-|Hne].
      * rewrite listeners_insert, lookup_delete_eq, Hb. unfold expected.
        rewrite Hh. cbn [app]. apply remove_last_head.
        destruct (decide (e = "disconnect")); [|apply not_elem_of_nil].
        intros Hin'. apply elem_of_cons in Hin' as [Heq|Hin'];
          [done|by apply elem_of_nil in Hin'].
      * rewrite listeners_insert_ne, lookup_delete_ne by done. apply Hb.
    + intros event Hin' Hd. apply set_delete_elem in Hin' as [Hne Hin'].
      cbn [handlers]. rewrite lookup_delete_ne by done. by apply Hc.
  - split; [|split].
    + intros event h' Hh'. destruct (Ha _ _ Hh') as [Hin' Hg].
      split; [|done]. apply set_delete_elem. split; [|done].
      intros ->. congruence.
    + done.
    + intros event Hin' Hd. apply set_delete_elem in Hin' as [Hne Hin'].
      by apply Hc.
Qed.

Lemma install_fold id gen (events : list string) (info : Info) :
  NoDup events →
  let info' :=
    fold_left (λ info event, install gen event id info) events info in
  (∀ event,
     handlers info' !! event
     = if decide (event ∈ events) then Some (Reemit gen event id)
       else handlers info !! event) ∧
  (∀ event,
     listeners (socket info') event
     = listeners (socket info) event
       ++ if decide (event ∈ events) then [Reemit gen event id] else []).
Proof.
  revert info. induction events as [|e events IH]; intros info Hnd; cbn zeta.
  - split; intros event; rewrite decide_False by apply not_elem_of_nil;
      [done|by rewrite app_nil_r].
  - apply NoDup_cons in Hnd as [He Hnd]. cbn [fold_left].
    destruct (IH (install gen e id info) Hnd) as [IHh IHl]. cbn zeta in *.
    split; intros event.
    + rewrite IHh. destruct (decide (event ∈ events)) as [Hin|Hin].
      * by rewrite decide_True by (apply elem_of_cons; by right).
      * cbn [install handlers]. destruct (decide (e = event)) as [<-|Hne].
        -- rewrite lookup_insert_eq.
           by rewrite decide_True by (apply elem_of_cons; by left).
        -- rewrite lookup_insert_ne by done. rewrite decide_False; [done|].
           intros [->|Hin']%elem_of_cons; done.
    + rewrite IHl. cbn [install socket]. unfold em_on.
      destruct (decide (e = event)) as [<-|Hne].
      * rewrite listeners_insert. rewrite (decide_False (P := e ∈ events))
          by done.
        rewrite decide_True by (apply elem_of_cons; by left).
        by rewrite app_nil_r.
      * rewrite listeners_insert_ne by done.
        destruct (decide (event ∈ events)) as [Hin|Hin].
        -- by rewrite decide_True by (apply elem_of_cons; by right).
        -- rewrite decide_False; [done|].
           intros [->|Hin']%elem_of_cons; done.
Qed.

Lemma connection_info_ok events id gen :
  NoDup events →
  let info :=
    fold_left (λ info event, install gen event id info) events
              {| socket := ∅; handlers := ∅ |} in
  socket_ok events id
    {| socket := em_on "disconnect" (Cleanup id) (socket info);
       handlers := handlers info |}.
Proof.
  intros Hnd.
  destruct (install_fold id gen events {| socket := ∅; handlers := ∅ |} Hnd)
    as [Hh Hl].
  cbn zeta in *. cbn [handlers socket] in Hh, Hl.
  split; [|split].
  - intros event h. cbn [handlers]. rewrite Hh.
    destruct (decide (event ∈ events)); [|by rewrite lookup_empty].
    intros [= <-]. split; [done|by exists gen].
  - intros event. unfold expected. cbn [handlers socket]. unfold em_on.
    rewrite Hh. destruct (decide ("disconnect" = event)) as [<-|Hne].
    + rewrite listeners_insert, Hl, listeners_empty.
      rewrite (decide_True (P := "disconnect" = "disconnect")) by done.
      destruct (decide _); [done|]. by rewrite lookup_empty.
    + rewrite listeners_insert_ne by done. rewrite Hl, listeners_empty.
      rewrite (decide_False (P := event = "disconnect")) by done.
      destruct (decide _); [done|]. by rewrite lookup_empty.
  - intros event Hin Hd. cbn [handlers]. rewrite Hh, decide_True by done.
    by eexists.
Qed.

(** ** The server *)

Lemma inv_with_own srv o :
  inv srv →
  (∀ e, listeners o ("socket_" +:+ e) ≠ []
        ↔ listeners (own srv) ("socket_" +:+ e) ≠ []) →
  inv (with_own o srv).
Proof.
  intros (Hnd & Hown & Hs) Ho. split; [done|]. split; [|done].
  intros e. cbn. by rewrite Ho.
Qed.

Lemma inv_install srv o e0 :
  inv srv →
  (∀ k, k ≠ "socket_" +:+ e0 → listeners o k = listeners (own srv) k) →
  listeners o ("socket_" +:+ e0) ≠ [] →
  inv (_installSocketEvent ("socket_" +:+ e0) (with_own o srv)).
Proof.
  intros (Hnd & Hown & Hs) Ho Hne. unfold _installSocketEvent.
  rewrite socket_event_prefixed. split; [by apply set_add_NoDup|]. split.
  - intros e. cbn [socketEvents own with_own]. rewrite set_add_elem.
    destruct (decide (e = e0)) as [->|Hee].
    + split; [done|by left].
    + rewrite Ho by (intros Heq; by apply (inj (String.app "socket_")) in Heq).
      rewrite <-Hown. split; [by intros [?|?]|by right].
  - intros id info. cbn. rewrite map_lookup_imap.
    destruct (sockets srv !! id) as [info0|] eqn:Hid; [|done]. cbn.
    intros [= <-]. specialize (Hs id info0 Hid).
    destruct (decide _); [by apply install_ok|by apply install_skip_ok].
Qed.

Lemma inv_remove srv o e0 :
  inv srv →
  (∀ k, k ≠ "socket_" +:+ e0 → listeners o k = listeners (own srv) k) →
  listeners o ("socket_" +:+ e0) = [] →
  inv (_removeSocketEvent ("socket_" +:+ e0) (with_own o srv)).
Proof.
  intros (Hnd & Hown & Hs) Ho Hnil. unfold _removeSocketEvent.
  rewrite socket_event_prefixed. split; [by apply set_delete_NoDup|]. split.
  - intros e. cbn [socketEvents own with_own]. rewrite set_delete_elem.
    destruct (decide (e = e0)) as [->|Hee].
    + rewrite Hnil. by split; [intros [? _]|].
    + rewrite Ho by (intros Heq; by apply (inj (String.app "socket_")) in Heq).
      rewrite <-Hown. by split; [intros [_ ?]|].
  - intros id info. cbn. rewrite lookup_fmap.
    destruct (sockets srv !! id) as [info0|] eqn:Hid; [|done]. cbn.
    intros [= <-]. by apply uninstall_ok, (Hs id).
Qed.

Lemma on_inv srv event h : inv srv → inv (on event h srv).
Proof.
  intros Hinv. unfold on. cbn zeta.
  destruct (String.prefix "socket_" event) eqn:Hp.
  - apply prefix_app in Hp as [e0 ->]. apply inv_install; [done|..].
    + intros k Hk. unfold em_on. by rewrite listeners_insert_ne.
    + unfold em_on. rewrite listeners_insert. by destruct (listeners _ _).
  - apply inv_with_own; [done|]. intros e. unfold em_on.
    rewrite listeners_insert_ne; [done|]. by apply unprefixed_event.
Qed.

Lemma prependListener_inv srv event h :
  inv srv → inv (prependListener event h srv).
Proof.
  intros Hinv. unfold prependListener. cbn zeta.
  destruct (String.prefix "socket_" event) eqn:Hp.
  - apply prefix_app in Hp as [e0 ->]. apply inv_install; [done|..].
    + intros k Hk. unfold em_prepend. by rewrite listeners_insert_ne.
    + unfold em_prepend. by rewrite listeners_insert.
  - apply inv_with_own; [done|]. intros e. unfold em_prepend.
    rewrite listeners_insert_ne; [done|]. by apply unprefixed_event.
Qed.

Lemma removeListener_inv srv event h :
  inv srv → inv (removeListener event h srv).
Proof.
  intros Hinv. unfold removeListener. cbn zeta.
  destruct (String.prefix "socket_" event) eqn:Hp; cbn [andb].
  - apply prefix_app in Hp as [e0 ->]. cbn [with_own own].
    unfold listenerCount, em_remove. rewrite listeners_insert.
    case_bool_decide as Hlen.
    + apply inv_remove; [done|..].
      * intros k Hk. by rewrite listeners_insert_ne.
      * rewrite listeners_insert. by apply nil_length_inv.
    + apply inv_with_own; [done|]. intros e.
      destruct (decide (e = e0)) as [->|Hee].
      * rewrite listeners_insert. split.
        -- apply remove_last_nil_inv.
        -- intros _ Hnil. by rewrite Hnil in Hlen.
      * rewrite listeners_insert_ne; [done|].
        intros Heq. by apply (inj (String.app "socket_")) in Heq.
  - apply inv_with_own; [done|]. intros e. unfold em_remove.
    rewrite listeners_insert_ne; [done|]. by apply unprefixed_event.
Qed.

Lemma removeAllListeners_inv srv event :
  inv srv → inv (removeAllListeners event srv).
Proof.
  intros Hinv. unfold removeAllListeners. cbn zeta.
  destruct (String.prefix "socket_" event) eqn:Hp.
  - apply prefix_app in Hp as [e0 ->]. apply inv_remove; [done|..].
    + intros k Hk. unfold em_remove_all. by rewrite listeners_delete_ne.
    + unfold em_remove_all. by rewrite listeners_delete.
  - apply inv_with_own; [done|]. intros e. unfold em_remove_all.
    rewrite listeners_delete_ne; [done|]. by apply unprefixed_event.
Qed.

Lemma emit_inv srv event args : inv srv → inv (emit event args srv).
Proof. by intros (Hnd & Hown & Hs). Qed.

Lemma call_listener_inv l args srv :
  inv srv → inv (call_listener l args srv).
Proof.
  intros Hinv. destruct l as [gen event id|id]; [by apply emit_inv|].
  destruct Hinv as (Hnd & Hown & Hs). split; [done|]. split; [done|].
  by apply map_Forall_delete.
Qed.

Lemma calls_inv ls args srv :
  inv srv → inv (fold_left (λ srv l, call_listener l args srv) ls srv).
Proof.
  revert srv. induction ls as [|l ls IH]; intros srv Hinv; [done|].
  cbn [fold_left]. by apply IH, call_listener_inv.
Qed.

Lemma fire_inv srv id event args : inv srv → inv (fire id event args srv).
Proof.
  intros Hinv. unfold fire. destruct (sockets srv !! id); [|done].
  by apply calls_inv.
Qed.

Lemma connection_inv srv id : inv srv → inv (connection id srv).
Proof.
  intros (Hnd & Hown & Hs). unfold connection. cbn zeta. apply emit_inv.
  split; [done|]. split; [done|]. cbn.
  apply map_Forall_insert_2; [|done]. by apply connection_info_ok.
Qed.

Lemma clear_inv srv : inv srv → inv (clear srv).
Proof.
  intros (Hnd & Hown & Hs). split; [done|]. split; [done|].
  apply map_Forall_empty.
Qed.

Lemma new_inv : inv new.
Proof.
  split; [constructor|]. split; [|apply map_Forall_empty].
  intros e. cbn. rewrite listeners_empty. split; [|done].
  by intros Hin%elem_of_nil.
Qed.

Lemma tracked_sockets_inv srv : reachable srv → inv srv.
Proof.
  induction 1; eauto using new_inv, on_inv, prependListener_inv,
    removeListener_inv, removeAllListeners_inv, connection_inv, fire_inv,
    clear_inv.
Qed.

(** ** What sockets and listeners see *)

Lemma chatting_reachable : reachable chatting.
Proof.
  apply reach_connection; [apply reach_on, reach_new|]. reflexivity.
Qed.

(** In a state the server gets into, a kept socket has, for an event other
    than [disconnect], one re-emitting closure when the server has a
    listener for the prefixed event, and no listener otherwise. *)
Lemma socket_listeners srv id info event :
  reachable srv → sockets srv !! id = Some info → event ≠ "disconnect" →
  (listeners (own srv) ("socket_" +:+ event) = [] ∧
   handlers info !! event = None ∧
   listeners (socket info) event = []) ∨
  (listeners (own srv) ("socket_" +:+ event) ≠ [] ∧
   ∃ gen, handlers info !! event = Some (Reemit gen event id) ∧
          listeners (socket info) event = [Reemit gen event id]).
Proof.
  intros Hr Hid Hd. destruct (tracked_sockets_inv srv Hr) as (Hnd & Hown & Hs).
  destruct (Hs id info Hid) as (Ha & Hb & Hc).
  rewrite Hb, expected_not_disconnect by done.
  destruct (handlers info !! event) as [h|] eqn:Hh.
  - right. destruct (Ha _ _ Hh) as [Hin [gen ->]].
    split; [by apply Hown|]. by exists gen.
  - left. split; [|done].
    destruct (listeners (own srv) ("socket_" +:+ event)) as [|x l] eqn:Hl;
      [done|].
    assert (Hin : event ∈ socketEvents srv) by (apply Hown; by rewrite Hl).
    destruct (Hc event Hin Hd) as [h' Hh']. congruence.
Qed.

(** X24. The name under which the closure of [_getSocketEventHandler]
    emits on the server leads back to the socket event: stripping the
    prefix as [_installSocketEvent] and [_removeSocketEvent] do gives the
    event again, whatever underscores it contains; and a name the
    overridden methods take for a socket event is the prefix followed by
    what they strip. *)
Theorem socket_event_round_trip (e : string) :
  String.prefix "socket_" ("socket_" +:+ e) = true ∧
  socket_event ("socket_" +:+ e) = e ∧
  (∀ event, String.prefix "socket_" event = true →
            "socket_" +:+ socket_event event = event).
Proof.
  split; [apply prefix_app_true|]. split; [apply socket_event_prefixed|].
  intros event Hp. symmetry. by apply prefixed_event.
Qed.

(** X25. In every state the server gets into, an event other than
    [disconnect] that a kept socket emits reaches the server as one
    emission of the prefixed event with the socket id in front of the
    arguments: every listener of [socket_<event>] is called once, in
    order, and when there is none nothing happens. Nothing else of the
    server changes. *)
Theorem socket_event_delivered (srv : Server) (id event : string)
    (args : list Val) :
  reachable srv →
  is_Some (sockets srv !! id) →
  event ≠ "disconnect" →
  fire id event args srv = emit ("socket_" +:+ event) (VStr id :: args) srv.
Proof.
  intros Hr [info Hid] Hd. unfold fire. rewrite Hid.
  destruct (socket_listeners srv id info event Hr Hid Hd)
    as [(Hown & _ & ->)|(_ & gen & _ & ->)]; [|done].
  unfold emit. rewrite Hown. cbn. rewrite app_nil_r. by destruct srv.
Qed.

Lemma socket_event_delivered_witness :
  delivered (fire "s1" "message" [VData 1] chatting)
  = [(7%nat, "socket_message", [VStr "s1"; VData 1])].
Proof.
  rewrite (socket_event_delivered chatting "s1" "message" [VData 1]
             chatting_reachable).
  - reflexivity.
  - eexists. reflexivity.
  - discriminate.
Defined.

(** X26. In every state the server gets into, a kept socket has for an
    event other than [disconnect] exactly one listener, the re-emitting
    closure recorded in [handlers], when the server has a listener for
    [socket_<event>], and none when it has not: closures are neither
    installed twice nor left behind when the last listener goes. *)
Theorem reemitters_match_listeners (srv : Server) (id : string)
    (info : Info) (event : string) :
  reachable srv →
  sockets srv !! id = Some info →
  event ≠ "disconnect" →
  (listeners (own srv) ("socket_" +:+ event) = [] →
   listeners (socket info) event = [] ∧ handlers info !! event = None) ∧
  (listeners (own srv) ("socket_" +:+ event) ≠ [] →
   ∃ gen, listeners (socket info) event = [Reemit gen event id] ∧
          handlers info !! event = Some (Reemit gen event id)).
Proof.
  intros Hr Hid Hd.
  destruct (socket_listeners srv id info event Hr Hid Hd)
    as [(Hown & Hh & Hl)|(Hown & gen & Hh & Hl)].
  - split; [done|]. by intros Hne.
  - split; [by intros Hnil|]. intros _. by exists gen.
Qed.

Lemma reemitters_match_listeners_witness :
  ∃ info, sockets chatting !! "s1" = Some info ∧
          listeners (socket info) "typing" = [].
Proof.
  eexists. split; [reflexivity|].
  refine (proj1 (proj1 (reemitters_match_listeners chatting "s1" _ "typing"
                          chatting_reachable eq_refl _) _)).
  - discriminate.
  - reflexivity.
Defined.

(** X27. When a kept socket emits [disconnect] the server forgets it,
    whatever listeners there are; its listeners and socket events stay as
    they were. *)
Theorem disconnect_forgets_socket (srv : Server) (id : string)
    (args : list Val) :
  reachable srv →
  is_Some (sockets srv !! id) →
  let srv' := fire id "disconnect" args srv in
  sockets srv' = delete id (sockets srv) ∧
  socketEvents srv' = socketEvents srv ∧
  own srv' = own srv.
Proof.
  intros Hr [info Hid]. cbn zeta. unfold fire. rewrite Hid.
  destruct (tracked_sockets_inv srv Hr) as (Hnd & Hown & Hs).
  destruct (Hs id info Hid) as (Ha & Hb & Hc).
  rewrite Hb. unfold expected. rewrite decide_True by done.
  destruct (handlers info !! "disconnect") as [h|] eqn:Hh; [|done].
  destruct (Ha _ _ Hh) as [_ [gen ->]]. done.
Qed.

Lemma disconnect_forgets_socket_witness :
  sockets (fire "s1" "disconnect" [] chatting) = delete "s1" (sockets chatting).
Proof.
  refine (proj1 (disconnect_forgets_socket chatting "s1" []
                   chatting_reachable _)).
  eexists. reflexivity.
Defined.



End SocketsFacts.
